(** * Derivative bars of tardis-machine: a shallow embedding

    The development follows the class [DerivativeBarComputable]: the bar
    record, the source events, the five methods of the class and the
    generator [compute], first with the in-progress bar passed as a value,
    then (module [Store]) with the bar objects living in a heap, so that the
    aliasing between emitted bars and the in-progress bar can be stated.

    JavaScript numbers are modelled by [Z]: timestamps are the integral
    millisecond value of a [Date], [ticks] is a counter, and the interval,
    the prices and the open interest are taken in integral units.  On integers
    below 2^53 the operations used by the class ([+], [-], [*], [>=], [>],
    [Math.floor] of a quotient by a number that is not zero) are exact, so
    [Z] agrees with the doubles of the program there; rounding, NaN and the
    infinities are not modelled.

    Two further models lift restrictions of the first two.  Module
    [Fractional] takes the interval a rational number, so that [new Date]
    has a fraction to drop; on a whole interval it is the integer model
    ([embed_run]).  Module [Objects] keeps every [Date] an object in the
    heap, so that the dates an emitted bar shares with the in-progress bar
    and with the messages can be stated; read by their time values its bars
    are those of the integer model ([objects_refines]). *)

From Stdlib Require Import ZArith QArith Qround List Lia Bool DecimalString Sorted.
From stdpp Require Import gmap strings.
Import ListNotations.
Open Scope Z_scope.

(** ** Data model *)

(** A [Date] is its time value, [valueOf()], in milliseconds. *)
Definition Date := Z.

(** [new Date(v)] for an integral [v]. *)
Definition new_Date (v : Z) : Date := v.

(** [const DATE_MIN = new Date(-1)] *)
Definition DATE_MIN : Date := new_Date (-1).

(** [type BarKind = 'time' | 'volume' | 'tick'].  The union is erased at run
    time and the options arrive as parsed JSON, so a kind is the string that
    the methods compare with [===]. *)
Definition BarKind := string.

(** Modelled from the spec: the type [DerivativeTicker] is imported from
    tardis-dev; section 3 lists its fields (identity fields and timestamps
    required, every numeric field optional). *)
Module DerivativeTicker.
Record t := mk {
  symbol : string;
  exchange : string;
  timestamp : Date;
  localTimestamp : Date;
  lastPrice : option Z;
  openInterest : option Z;
  fundingRate : option Z;
  indexPrice : option Z;
  markPrice : option Z;
  predictedFundingRate : option Z
}.
End DerivativeTicker.

(** Modelled from the spec: the type [BookChange] is imported from
    tardis-dev; section 3 calls it the heartbeat, of which only the identity
    fields and the two timestamps are read. *)
Module BookChange.
Record t := mk {
  symbol : string;
  exchange : string;
  timestamp : Date;
  localTimestamp : Date
}.
End BookChange.

(** [message: DerivativeTicker | BookChange], told apart by [message.type]. *)
Inductive Message :=
| derivative_ticker (t : DerivativeTicker.t)
| book_change (b : BookChange.t).

Definition msg_timestamp (message : Message) : Date :=
  match message with
  | derivative_ticker t => DerivativeTicker.timestamp t
  | book_change b => BookChange.timestamp b
  end.

Definition msg_localTimestamp (message : Message) : Date :=
  match message with
  | derivative_ticker t => DerivativeTicker.localTimestamp t
  | book_change b => BookChange.localTimestamp b
  end.

Definition msg_symbol (message : Message) : string :=
  match message with
  | derivative_ticker t => DerivativeTicker.symbol t
  | book_change b => BookChange.symbol b
  end.

Definition msg_exchange (message : Message) : string :=
  match message with
  | derivative_ticker t => DerivativeTicker.exchange t
  | book_change b => BookChange.exchange b
  end.

(** [type DerivativeBar].  [localTimestamp] and [fundingTimestamp] are the two
    fields that [_reset] does not assign: they are [undefined] ([None]) on the
    object the constructor creates. *)
Record DerivativeBar := mkBar {
  type : string;
  symbol : string;
  exchange : string;
  name : string;
  interval : Z;
  kind : BarKind;
  openLastPrice : option Z;
  openOi : option Z;
  openFundingRate : option Z;
  openIndexPrice : option Z;
  openMarkPrice : option Z;
  openTimestamp : Date;
  closeLastPrice : option Z;
  closeOi : option Z;
  closeFundingRate : option Z;
  closeIndexPrice : option Z;
  closeMarkPrice : option Z;
  closeTimestamp : Date;
  deltaOi : Z;
  predictedFundingRate : option Z;
  ticks : Z;
  fundingTimestamp : option Date;
  timestamp : Date;
  localTimestamp : option Date
}.

(** [type DerivativeBarComputableOptions] *)
Record DerivativeBarComputableOptions := mkOptions {
  opt_kind : BarKind;
  opt_interval : Z;
  opt_name : option string
}.

(** [const kindSuffix = { tick: 'ticks', time: 'ms', volume: 'vol' }] *)
Definition kindSuffix : gmap string string :=
  <["tick" := "ticks"]> (<["time" := "ms"]> (<["volume" := "vol"]> ∅)).

(** A number inside a template literal: decimal digits, with a sign.  This
    is what JavaScript prints for an integer whose magnitude is below 2^53;
    larger numbers are rounded to a double and, from 10^21 on, printed with
    an exponent, which is not modelled. *)
Definition string_of_number (n : Z) : string :=
  NilZero.string_of_int (Z.to_int n).

(** A looked-up suffix inside a template literal; a missing key prints as
    [undefined] (the properties an object literal inherits are left out). *)
Definition string_of_suffix (s : option string) : string :=
  default "undefined" s.

(** [x ?? 0] *)
Definition orZero (x : option Z) : Z := default 0 x.

(** ** The bar as a value: what each method assigns

    Every method works on the one object [this._inProgressBar]; its
    assignments are collected here as functions on the bar record, each field
    carrying the value it holds when the method returns. *)

(** [private readonly _type = 'derivative_bar'] *)
Definition _type : string := "derivative_bar".

(** The assignments of [_reset] (lines 165-187). *)
Definition reset_fields (k : BarKind) (i : Z) (n : string) (bar : DerivativeBar)
  : DerivativeBar :=
  {| type := _type;
     symbol := "";
     exchange := "";
     name := n;
     interval := i;
     kind := k;
     openLastPrice := Some 0;
     openOi := None;
     openFundingRate := None;
     openIndexPrice := None;
     openMarkPrice := None;
     openTimestamp := DATE_MIN;
     closeLastPrice := None;
     closeOi := None;
     closeFundingRate := None;
     closeIndexPrice := None;
     closeMarkPrice := None;
     closeTimestamp := DATE_MIN;
     deltaOi := 0;
     predictedFundingRate := None;
     ticks := 0;
     fundingTimestamp := fundingTimestamp bar;
     timestamp := DATE_MIN;
     localTimestamp := localTimestamp bar |}.

(** The assignments of [_update] (lines 137-160). *)
Definition update_fields (derivativeTicker : DerivativeTicker.t) (bar : DerivativeBar)
  : DerivativeBar :=
  let isNotOpenedYet := bool_decide (ticks bar = 0) in
  let openOi' :=
    if isNotOpenedYet then DerivativeTicker.openInterest derivativeTicker else openOi bar in
  let closeOi' := DerivativeTicker.openInterest derivativeTicker in
  {| type := type bar;
     symbol := symbol bar;
     exchange := exchange bar;
     name := name bar;
     interval := interval bar;
     kind := kind bar;
     openLastPrice :=
       if isNotOpenedYet then DerivativeTicker.lastPrice derivativeTicker
       else openLastPrice bar;
     openOi := openOi';
     openFundingRate :=
       if isNotOpenedYet then DerivativeTicker.fundingRate derivativeTicker
       else openFundingRate bar;
     openIndexPrice :=
       if isNotOpenedYet then DerivativeTicker.indexPrice derivativeTicker
       else openIndexPrice bar;
     openMarkPrice :=
       if isNotOpenedYet then DerivativeTicker.markPrice derivativeTicker
       else openMarkPrice bar;
     openTimestamp :=
       if isNotOpenedYet then DerivativeTicker.timestamp derivativeTicker
       else openTimestamp bar;
     closeLastPrice := DerivativeTicker.lastPrice derivativeTicker;
     closeOi := closeOi';
     closeFundingRate := DerivativeTicker.fundingRate derivativeTicker;
     closeIndexPrice := DerivativeTicker.indexPrice derivativeTicker;
     closeMarkPrice := DerivativeTicker.markPrice derivativeTicker;
     closeTimestamp := DerivativeTicker.timestamp derivativeTicker;
     deltaOi := orZero closeOi' - orZero openOi';
     predictedFundingRate := DerivativeTicker.predictedFundingRate derivativeTicker;
     ticks := ticks bar + 1;
     fundingTimestamp := fundingTimestamp bar;
     timestamp := DerivativeTicker.timestamp derivativeTicker;
     localTimestamp := localTimestamp bar |}.

(** The three assignments that open [_computeBar] (lines 94-96). *)
Definition stamp_fields (message : Message) (bar : DerivativeBar) : DerivativeBar :=
  {| type := type bar;
     symbol := msg_symbol message;
     exchange := msg_exchange message;
     name := name bar;
     interval := interval bar;
     kind := kind bar;
     openLastPrice := openLastPrice bar;
     openOi := openOi bar;
     openFundingRate := openFundingRate bar;
     openIndexPrice := openIndexPrice bar;
     openMarkPrice := openMarkPrice bar;
     openTimestamp := openTimestamp bar;
     closeLastPrice := closeLastPrice bar;
     closeOi := closeOi bar;
     closeFundingRate := closeFundingRate bar;
     closeIndexPrice := closeIndexPrice bar;
     closeMarkPrice := closeMarkPrice bar;
     closeTimestamp := closeTimestamp bar;
     deltaOi := deltaOi bar;
     predictedFundingRate := predictedFundingRate bar;
     ticks := ticks bar;
     fundingTimestamp := fundingTimestamp bar;
     timestamp := timestamp bar;
     localTimestamp := Some (msg_localTimestamp message) |}.

(** The assignment [this._inProgressBar.timestamp = d] of [_hasNewBar]
    (line 117). *)
Definition set_timestamp (d : Date) (bar : DerivativeBar) : DerivativeBar :=
  {| type := type bar;
     symbol := symbol bar;
     exchange := exchange bar;
     name := name bar;
     interval := interval bar;
     kind := kind bar;
     openLastPrice := openLastPrice bar;
     openOi := openOi bar;
     openFundingRate := openFundingRate bar;
     openIndexPrice := openIndexPrice bar;
     openMarkPrice := openMarkPrice bar;
     openTimestamp := openTimestamp bar;
     closeLastPrice := closeLastPrice bar;
     closeOi := closeOi bar;
     closeFundingRate := closeFundingRate bar;
     closeIndexPrice := closeIndexPrice bar;
     closeMarkPrice := closeMarkPrice bar;
     closeTimestamp := closeTimestamp bar;
     deltaOi := deltaOi bar;
     predictedFundingRate := predictedFundingRate bar;
     ticks := ticks bar;
     fundingTimestamp := fundingTimestamp bar;
     timestamp := d;
     localTimestamp := localTimestamp bar |}.

(** [Math.floor(timestamp.valueOf() / interval)]: for a non-zero interval the
    floor of the exact quotient is [Z.div]. *)
Definition time_bucket (i : Z) (timestamp : Date) : Z := timestamp / i.

(** The decision of [_hasNewBar] (lines 108-133) on a bar value: the boolean
    it returns, and the bar after the one assignment it may make. *)
Definition hasNewBar_fields (k : BarKind) (i : Z) (timestamp : Date) (bar : DerivativeBar)
  : bool * DerivativeBar :=
  if decide (ticks bar = 0) then (false, bar)
  else if decide (k = "time") then
    let currentTimestampTimeBucket := time_bucket i timestamp in
    let openTimestampTimeBucket := time_bucket i (openTimestamp bar) in
    if decide (currentTimestampTimeBucket > openTimestampTimeBucket) then
      (true, set_timestamp (new_Date ((openTimestampTimeBucket + 1) * i)) bar)
    else (false, bar)
  else if decide (k = "volume") then (bool_decide (deltaOi bar >= i), bar)
  else if decide (k = "tick") then (bool_decide (ticks bar >= i), bar)
  else (false, bar).

(** ** The class, with the in-progress bar held by value *)

Record DerivativeBarComputable := mkComputable {
  _inProgressBar : DerivativeBar;
  _kind : BarKind;
  _interval : Z;
  _name : string
}.

(** [public readonly sourceDataTypes = ['derivative_ticker', 'book_change']] *)
Definition sourceDataTypes : list string := ["derivative_ticker"; "book_change"].

Definition with_bar (this : DerivativeBarComputable) (bar : DerivativeBar)
  : DerivativeBarComputable :=
  {| _inProgressBar := bar;
     _kind := _kind this;
     _interval := _interval this;
     _name := _name this |}.

Definition _reset (this : DerivativeBarComputable) : DerivativeBarComputable :=
  with_bar this
    (reset_fields (_kind this) (_interval this) (_name this) (_inProgressBar this)).

Definition _getTimeBucket (this : DerivativeBarComputable) (timestamp : Date) : Z :=
  time_bucket (_interval this) timestamp.

Definition _hasNewBar (this : DerivativeBarComputable) (timestamp : Date)
  : bool * DerivativeBarComputable :=
  let r := hasNewBar_fields (_kind this) (_interval this) timestamp (_inProgressBar this) in
  (fst r, with_bar this (snd r)).

Definition _update (this : DerivativeBarComputable) (derivativeTicker : DerivativeTicker.t)
  : DerivativeBarComputable :=
  with_bar this (update_fields derivativeTicker (_inProgressBar this)).

(** [_computeBar]: stamp, copy with [{ ...this._inProgressBar }], reset,
    return the copy. *)
Definition _computeBar (this : DerivativeBarComputable) (message : Message)
  : DerivativeBar * DerivativeBarComputable :=
  let this1 := with_bar this (stamp_fields message (_inProgressBar this)) in
  let derivativeBar := _inProgressBar this1 in
  (derivativeBar, _reset this1).

(** One guarded [yield this._computeBar(message)] of [compute]. *)
Definition yield_if_new (this : DerivativeBarComputable) (message : Message)
  : list DerivativeBar * DerivativeBarComputable :=
  let '(new, this1) := _hasNewBar this (msg_timestamp message) in
  if new then
    let '(bar, this2) := _computeBar this1 message in ([bar], this2)
  else ([], this1).

(** The generator [compute], drained: the bars it yields, in order, and the
    object afterwards. *)
Definition compute (this : DerivativeBarComputable) (message : Message)
  : list DerivativeBar * DerivativeBarComputable :=
  let '(out1, this1) := yield_if_new this message in
  match message with
  | book_change _ => (out1, this1)
  | derivative_ticker t =>
      let this2 := _update this1 t in
      let '(out2, this3) := yield_if_new this2 message in
      (out1 ++ out2, this3)
  end.

(** The result of evaluating [new C(...)]: a value, or a thrown error. *)
Inductive completion (A : Type) :=
| Returns (a : A)
| Throws (error : string).
Arguments Returns {A} a.
Arguments Throws {A} error.

(** The object literal [{}] before [_reset] has run on it: [_reset] assigns
    every field but [fundingTimestamp] and [localTimestamp], so only these two
    (both [undefined]) are read from it. *)
Definition empty_object : DerivativeBar :=
  {| type := ""; symbol := ""; exchange := ""; name := ""; interval := 0; kind := "";
     openLastPrice := None; openOi := None; openFundingRate := None;
     openIndexPrice := None; openMarkPrice := None; openTimestamp := 0;
     closeLastPrice := None; closeOi := None; closeFundingRate := None;
     closeIndexPrice := None; closeMarkPrice := None; closeTimestamp := 0;
     deltaOi := 0; predictedFundingRate := None; ticks := 0;
     fundingTimestamp := None; timestamp := 0; localTimestamp := None |}.

(** The name the constructor settles on (lines 64-68). *)
Definition default_name (k : BarKind) (i : Z) : string :=
  _type +:+ "_" +:+ string_of_number i +:+ string_of_suffix (kindSuffix !! k).

(** The body of the constructor (lines 60-72): the options are stored, the
    name is settled, and the object [{}] is reset. *)
Definition new_computable (options : DerivativeBarComputableOptions)
  : DerivativeBarComputable :=
  let n :=
    match opt_name options with
    | None => default_name (opt_kind options) (opt_interval options)
    | Some n => n
    end in
  _reset {| _inProgressBar := empty_object;
            _kind := opt_kind options;
            _interval := opt_interval options;
            _name := n |}.

(** [new DerivativeBarComputable(options)].  The constructor has no [throw]
    and calls only [_reset], which has none, so the evaluation always
    completes with the new object. *)
Definition constructor (options : DerivativeBarComputableOptions)
  : completion DerivativeBarComputable :=
  Returns (new_computable options).

(** Successive calls of [compute] on one accumulator: the messages are fed
    in arrival order and each call is drained before the next message is fed.
    The result is the bars of all the calls, in the order they were yielded,
    and the object at the end. *)
Fixpoint run (this : DerivativeBarComputable) (messages : list Message)
  : list DerivativeBar * DerivativeBarComputable :=
  match messages with
  | [] => ([], this)
  | message :: rest =>
      let '(out, this1) := compute this message in
      let '(outs, this2) := run this1 rest in
      (out ++ outs, this2)
  end.

(** States an accumulator built by the constructor can be in. *)
Inductive reachable (options : DerivativeBarComputableOptions)
  : DerivativeBarComputable -> Prop :=
| reachable_new : reachable options (new_computable options)
| reachable_compute this message :
    reachable options this -> reachable options (snd (compute this message)).

(** ** The class over a store of objects

    Here the bars are objects in a heap and [this._inProgressBar] is a
    reference that the constructor sets once.  Field assignments update the
    object in place; the spread [{ ...this._inProgressBar }] allocates a new
    object and copies the fields.  The fields hold numbers, strings and
    [Date]s; a copy shares the [Date]s of the original, but the class never
    calls a mutator of a [Date], so a [Date] is kept as its value here;
    module [Objects] below keeps it an object. *)

(** Reading through a reference is total; the default is never read, every
    reference in use being allocated. *)
#[global] Instance DerivativeBar_inhabited : Inhabited DerivativeBar :=
  populate empty_object.

Module Store.
(** References to objects. *)
Abbreviation loc := positive.

Abbreviation heap := (gmap loc DerivativeBar).

Record DerivativeBarComputable := mk {
  _inProgressBar : loc;
  _kind : BarKind;
  _interval : Z;
  _name : string
}.

Definition _reset (this : DerivativeBarComputable) (h : heap) : heap :=
  alter (reset_fields (_kind this) (_interval this) (_name this))
    (_inProgressBar this) h.

Definition _update (this : DerivativeBarComputable)
    (derivativeTicker : DerivativeTicker.t) (h : heap) : heap :=
  alter (update_fields derivativeTicker) (_inProgressBar this) h.

Definition _hasNewBar (this : DerivativeBarComputable) (timestamp : Date) (h : heap)
  : bool * heap :=
  let decision bar := hasNewBar_fields (_kind this) (_interval this) timestamp bar in
  (fst (decision (h !!! _inProgressBar this)),
   alter (fun bar => snd (decision bar)) (_inProgressBar this) h).

(** [{ ...o }]: a new object with the fields of [o]. *)
Definition spread (o : loc) (h : heap) : loc * heap :=
  let l := fresh (dom h) in (l, <[l := h !!! o]> h).

Definition _computeBar (this : DerivativeBarComputable) (message : Message) (h : heap)
  : loc * heap :=
  let h1 := alter (stamp_fields message) (_inProgressBar this) h in
  let '(derivativeBar, h2) := spread (_inProgressBar this) h1 in
  (derivativeBar, _reset this h2).

Definition yield_if_new (this : DerivativeBarComputable) (message : Message) (h : heap)
  : list loc * heap :=
  let '(new, h1) := _hasNewBar this (msg_timestamp message) h in
  if new then
    let '(bar, h2) := _computeBar this message h1 in ([bar], h2)
  else ([], h1).

Definition compute (this : DerivativeBarComputable) (message : Message) (h : heap)
  : list loc * heap :=
  let '(out1, h1) := yield_if_new this message h in
  match message with
  | book_change _ => (out1, h1)
  | derivative_ticker t =>
      let h2 := _update this t h1 in
      let '(out2, h3) := yield_if_new this message h2 in
      (out1 ++ out2, h3)
  end.

(** [new DerivativeBarComputable(options)]: the object [{}] is allocated
    and reset. *)
Definition constructor (options : DerivativeBarComputableOptions) (h : heap)
  : DerivativeBarComputable * heap :=
  let n :=
    match opt_name options with
    | None => default_name (opt_kind options) (opt_interval options)
    | Some n => n
    end in
  let l := fresh (dom h) in
  let this := {| _inProgressBar := l;
                 _kind := opt_kind options;
                 _interval := opt_interval options;
                 _name := n |} in
  (this, _reset this (<[l := empty_object]> h)).

Fixpoint run (this : DerivativeBarComputable) (messages : list Message) (h : heap)
  : list loc * heap :=
  match messages with
  | [] => ([], h)
  | message :: rest =>
      let '(out, h1) := compute this message h in
      let '(outs, h2) := run this rest h1 in
      (out ++ outs, h2)
  end.

(** [later this h h']: [h'] is [h] after any number of calls of the
    methods of [this]. *)
Inductive later (this : DerivativeBarComputable) : heap -> heap -> Prop :=
| later_refl h : later this h h
| later_reset h h' : later this (_reset this h) h' -> later this h h'
| later_update t h h' : later this (_update this t h) h' -> later this h h'
| later_hasNewBar timestamp h h' :
    later this (snd (_hasNewBar this timestamp h)) h' -> later this h h'
| later_computeBar message h h' :
    later this (snd (_computeBar this message h)) h' -> later this h h'.
End Store.

(** The object of the value model that stands for [this] in the heap [h]. *)
Definition value_of (this : Store.DerivativeBarComputable) (h : gmap positive DerivativeBar)
  : DerivativeBarComputable :=
  {| _inProgressBar := h !!! Store._inProgressBar this;
     _kind := Store._kind this;
     _interval := Store._interval this;
     _name := Store._name this |}.

(** * Notions used in the statements *)

(** ** The invariant of the in-progress bar, and the cases of one call *)

(** What holds of the in-progress bar between two calls of [compute]: the
    count is not negative, a volume or tick bar that is open is still under
    its threshold, and [deltaOi] is the difference of the two snapshots. *)
Definition bar_ok (k : BarKind) (i : Z) (bar : DerivativeBar) : Prop :=
  0 <= ticks bar /\
  (k = "volume" -> ticks bar = 0 \/ deltaOi bar < i) /\
  (k = "tick" -> ticks bar = 0 \/ ticks bar < i) /\
  deltaOi bar = orZero (closeOi bar) - orZero (openOi bar).

Definition inv (this : DerivativeBarComputable) : Prop :=
  bar_ok (_kind this) (_interval this) (_inProgressBar this).

(** The bar a time accumulator closes: the in-progress bar with the boundary
    of its bucket as timestamp, stamped with the closing message. *)
Definition closed_time_bar (i : Z) (message : Message) (bar : DerivativeBar)
  : DerivativeBar :=
  stamp_fields message
    (set_timestamp (new_Date ((time_bucket i (openTimestamp bar) + 1) * i)) bar).

(** The five ways a call [compute(message)] can go from a state that
    satisfies the invariant: the bars yielded and the in-progress bar left. *)
Inductive step_case (this : DerivativeBarComputable) (message : Message)
  : list DerivativeBar -> DerivativeBar -> Prop :=
| heartbeat_idle b :
    message = book_change b ->
    hasNewBar_fields (_kind this) (_interval this) (msg_timestamp message)
      (_inProgressBar this) = (false, _inProgressBar this) ->
    step_case this message [] (_inProgressBar this)
| time_close_on_heartbeat b :
    message = book_change b ->
    _kind this = "time" ->
    ticks (_inProgressBar this) <> 0 ->
    time_bucket (_interval this) (msg_timestamp message)
      > time_bucket (_interval this) (openTimestamp (_inProgressBar this)) ->
    step_case this message
      [closed_time_bar (_interval this) message (_inProgressBar this)]
      (reset_fields (_kind this) (_interval this) (_name this)
         (closed_time_bar (_interval this) message (_inProgressBar this)))
| time_close_on_tick t :
    message = derivative_ticker t ->
    _kind this = "time" ->
    ticks (_inProgressBar this) <> 0 ->
    time_bucket (_interval this) (msg_timestamp message)
      > time_bucket (_interval this) (openTimestamp (_inProgressBar this)) ->
    step_case this message
      [closed_time_bar (_interval this) message (_inProgressBar this)]
      (update_fields t
         (reset_fields (_kind this) (_interval this) (_name this)
            (closed_time_bar (_interval this) message (_inProgressBar this))))
| tick_folded t :
    message = derivative_ticker t ->
    hasNewBar_fields (_kind this) (_interval this) (msg_timestamp message)
      (_inProgressBar this) = (false, _inProgressBar this) ->
    hasNewBar_fields (_kind this) (_interval this) (msg_timestamp message)
      (update_fields t (_inProgressBar this))
      = (false, update_fields t (_inProgressBar this)) ->
    step_case this message [] (update_fields t (_inProgressBar this))
| threshold_close t :
    message = derivative_ticker t ->
    hasNewBar_fields (_kind this) (_interval this) (msg_timestamp message)
      (_inProgressBar this) = (false, _inProgressBar this) ->
    (_kind this = "volume" /\ deltaOi (update_fields t (_inProgressBar this)) >= _interval this
     \/ _kind this = "tick" /\ ticks (update_fields t (_inProgressBar this)) >= _interval this) ->
    step_case this message
      [stamp_fields message (update_fields t (_inProgressBar this))]
      (reset_fields (_kind this) (_interval this) (_name this)
         (stamp_fields message (update_fields t (_inProgressBar this)))).

(** ** Concrete events used by the examples *)

Definition tick_at (timestamp : Date) (openInterest : option Z) : Message :=
  derivative_ticker
    (DerivativeTicker.mk "XBTUSD" "bitmex" timestamp (timestamp + 7)
       (Some 100) openInterest None None None None).

Definition heartbeat_at (timestamp : Date) : Message :=
  book_change (BookChange.mk "XBTUSD" "bitmex" timestamp (timestamp + 7)).

Definition is_heartbeat (message : Message) : Prop :=
  match message with
  | book_change _ => True
  | derivative_ticker _ => False
  end.

#[global] Instance is_heartbeat_dec message : Decision (is_heartbeat message) :=
  match message with
  | book_change _ => left I
  | derivative_ticker _ => right (fun H : False => H)
  end.

(** ** Inputs and bars *)

(** The number of [DerivativeTicker] messages in an input. *)
Fixpoint n_ticks (ms : list Message) : Z :=
  match ms with
  | [] => 0
  | derivative_ticker _ :: rest => 1 + n_ticks rest
  | book_change _ :: rest => n_ticks rest
  end.

(** The open interest of the ticks of an input, a missing one counted 0. *)
Fixpoint open_interests (ms : list Message) : list Z :=
  match ms with
  | [] => []
  | derivative_ticker t :: rest =>
      orZero (DerivativeTicker.openInterest t) :: open_interests rest
  | book_change _ :: rest => open_interests rest
  end.

Definition decreasing : list Z -> Prop := Sorted (fun a b => b <= a).

(** The fields a bar accumulates from its ticks. *)
Definition same_accumulated (bar bar' : DerivativeBar) : Prop :=
  ticks bar = ticks bar' /\
  deltaOi bar = deltaOi bar' /\
  predictedFundingRate bar = predictedFundingRate bar' /\
  (openLastPrice bar, openOi bar, openFundingRate bar, openIndexPrice bar,
   openMarkPrice bar, openTimestamp bar)
  = (openLastPrice bar', openOi bar', openFundingRate bar', openIndexPrice bar',
     openMarkPrice bar', openTimestamp bar') /\
  (closeLastPrice bar, closeOi bar, closeFundingRate bar, closeIndexPrice bar,
   closeMarkPrice bar, closeTimestamp bar)
  = (closeLastPrice bar', closeOi bar', closeFundingRate bar', closeIndexPrice bar',
     closeMarkPrice bar', closeTimestamp bar').

(** The three kinds the methods know. *)
Definition recognized (k : BarKind) : Prop :=
  k = "time" \/ k = "volume" \/ k = "tick".

#[global] Instance recognized_dec k : Decision (recognized k) :=
  or_dec (decide (k = "time")) (or_dec (decide (k = "volume")) (decide (k = "tick"))).

(** [P] is a lower bound kept under the opening timestamp of an open bar. *)
Definition opened_after (P : Date) (bar : DerivativeBar) : Prop :=
  ticks bar <> 0 -> P <= openTimestamp bar.

(** ** Notions used in the further properties *)

(** The [DerivativeTicker] messages of an input, in order. *)
Fixpoint tickers (ms : list Message) : list DerivativeTicker.t :=
  match ms with
  | [] => []
  | derivative_ticker t :: rest => t :: tickers rest
  | book_change _ :: rest => tickers rest
  end.

(** An input with its [book_change] messages left out. *)
Fixpoint without_heartbeats (ms : list Message) : list Message :=
  match ms with
  | [] => []
  | derivative_ticker t :: rest => derivative_ticker t :: without_heartbeats rest
  | book_change _ :: rest => without_heartbeats rest
  end.

(** [_update] run on a bar for each tick of a list in turn. *)
Definition fold_ticks (ts : list DerivativeTicker.t) (bar : DerivativeBar)
  : DerivativeBar :=
  fold_left (fun b t => update_fields t b) ts bar.

(** The window of a time bar stamped [boundary]: the interval's worth of
    milliseconds that ends just before it. *)
Definition in_window (i : Z) (boundary : Date) (timestamp : Date) : Prop :=
  boundary - i <= timestamp < boundary.

(** What a time bar that closes its bucket looks like. *)
Definition closes_its_bucket (i : Z) (bar : DerivativeBar) : Prop :=
  timestamp bar mod i = 0 /\
  in_window i (timestamp bar) (openTimestamp bar) /\
  in_window i (timestamp bar) (closeTimestamp bar) /\
  openTimestamp bar <= closeTimestamp bar.

(** While a time bar is open, its ticks lie in one bucket, in order, and not
    after [T], the timestamp of the last message. *)
Definition open_in_one_bucket (i : Z) (T : Date) (bar : DerivativeBar) : Prop :=
  ticks bar <> 0 ->
  openTimestamp bar <= closeTimestamp bar <= T /\
  closeTimestamp bar / i = openTimestamp bar / i.

(** The in-progress bar carries the configuration of its accumulator. *)
Definition configured (this : DerivativeBarComputable) : Prop :=
  type (_inProgressBar this) = _type /\
  name (_inProgressBar this) = _name this /\
  interval (_inProgressBar this) = _interval this /\
  kind (_inProgressBar this) = _kind this.

(** No non-empty prefix of the ticks [pend], folded into a bar just reset,
    has an open-interest delta of [i] or more. *)
Definition under_threshold (i : Z) (base : DerivativeBar)
    (pend : list DerivativeTicker.t) : Prop :=
  forall p, p <> [] -> p `prefix_of` pend -> deltaOi (fold_ticks p base) < i.

(** The block's last tick is the first to take the delta to [i]. *)
Definition reaches_first (i : Z) (base : DerivativeBar)
    (block : list DerivativeTicker.t) : Prop :=
  deltaOi (fold_ticks block base) >= i /\
  forall p, p <> [] -> p `prefix_of` block -> p <> block ->
            deltaOi (fold_ticks p base) < i.

(** [computeDerivativeBars] (lines 36-39): the factory keeps the options and
    returns a function that builds a new accumulator at every call; over the
    store, a call allocates. *)
Definition computeDerivativeBars (options : DerivativeBarComputableOptions)
  : gmap positive DerivativeBar ->
    Store.DerivativeBarComputable * gmap positive DerivativeBar :=
  fun h => Store.constructor options h.

(** * The class with other number and date types

    The records and the field assignments of the methods once more, for any
    type [I] of the interval and any type [D] of what a [Date]-typed field
    holds.  Module [Fractional] takes the interval a rational ([I := Q]) and a
    date its time value ([D := Z]); module [Objects] keeps the interval an
    integer and takes a date a reference to a [Date] object in a heap. *)
Module Generic.

(** Modelled from the spec: [DerivativeTicker] of tardis-dev (section 3). *)
Record DerivativeTicker (D : Type) := mkTicker {
  t_symbol : string;
  t_exchange : string;
  t_timestamp : D;
  t_localTimestamp : D;
  t_lastPrice : option Z;
  t_openInterest : option Z;
  t_fundingRate : option Z;
  t_indexPrice : option Z;
  t_markPrice : option Z;
  t_predictedFundingRate : option Z
}.
Arguments mkTicker {D}.
Arguments t_symbol {D}.
Arguments t_exchange {D}.
Arguments t_timestamp {D}.
Arguments t_localTimestamp {D}.
Arguments t_lastPrice {D}.
Arguments t_openInterest {D}.
Arguments t_fundingRate {D}.
Arguments t_indexPrice {D}.
Arguments t_markPrice {D}.
Arguments t_predictedFundingRate {D}.

(** Modelled from the spec: [BookChange] of tardis-dev (section 3). *)
Record BookChange (D : Type) := mkBookChange {
  b_symbol : string;
  b_exchange : string;
  b_timestamp : D;
  b_localTimestamp : D
}.
Arguments mkBookChange {D}.
Arguments b_symbol {D}.
Arguments b_exchange {D}.
Arguments b_timestamp {D}.
Arguments b_localTimestamp {D}.

Inductive Message (D : Type) :=
| derivative_ticker (t : DerivativeTicker D)
| book_change (b : BookChange D).
Arguments derivative_ticker {D}.
Arguments book_change {D}.

Definition msg_timestamp {D} (message : Message D) : D :=
  match message with
  | derivative_ticker t => t_timestamp t
  | book_change b => b_timestamp b
  end.

Definition msg_localTimestamp {D} (message : Message D) : D :=
  match message with
  | derivative_ticker t => t_localTimestamp t
  | book_change b => b_localTimestamp b
  end.

Definition msg_symbol {D} (message : Message D) : string :=
  match message with
  | derivative_ticker t => t_symbol t
  | book_change b => b_symbol b
  end.

Definition msg_exchange {D} (message : Message D) : string :=
  match message with
  | derivative_ticker t => t_exchange t
  | book_change b => b_exchange b
  end.

(** [type DerivativeBar] *)
Record DerivativeBar (I D : Type) := mkBar {
  type : string;
  symbol : string;
  exchange : string;
  name : string;
  interval : I;
  kind : BarKind;
  openLastPrice : option Z;
  openOi : option Z;
  openFundingRate : option Z;
  openIndexPrice : option Z;
  openMarkPrice : option Z;
  openTimestamp : D;
  closeLastPrice : option Z;
  closeOi : option Z;
  closeFundingRate : option Z;
  closeIndexPrice : option Z;
  closeMarkPrice : option Z;
  closeTimestamp : D;
  deltaOi : Z;
  predictedFundingRate : option Z;
  ticks : Z;
  fundingTimestamp : option D;
  timestamp : D;
  localTimestamp : option D
}.
Arguments mkBar {I D}.
Arguments type {I D}.
Arguments symbol {I D}.
Arguments exchange {I D}.
Arguments name {I D}.
Arguments interval {I D}.
Arguments kind {I D}.
Arguments openLastPrice {I D}.
Arguments openOi {I D}.
Arguments openFundingRate {I D}.
Arguments openIndexPrice {I D}.
Arguments openMarkPrice {I D}.
Arguments openTimestamp {I D}.
Arguments closeLastPrice {I D}.
Arguments closeOi {I D}.
Arguments closeFundingRate {I D}.
Arguments closeIndexPrice {I D}.
Arguments closeMarkPrice {I D}.
Arguments closeTimestamp {I D}.
Arguments deltaOi {I D}.
Arguments predictedFundingRate {I D}.
Arguments ticks {I D}.
Arguments fundingTimestamp {I D}.
Arguments timestamp {I D}.
Arguments localTimestamp {I D}.

(** The assignments of [_reset] (lines 165-187); [DATE_MIN] is what the
    constant of line 3 holds. *)
Definition reset_fields {I D} (DATE_MIN : D) (k : BarKind) (i : I) (n : string)
    (bar : DerivativeBar I D) : DerivativeBar I D :=
  {| type := _type;
     symbol := "";
     exchange := "";
     name := n;
     interval := i;
     kind := k;
     openLastPrice := Some 0;
     openOi := None;
     openFundingRate := None;
     openIndexPrice := None;
     openMarkPrice := None;
     openTimestamp := DATE_MIN;
     closeLastPrice := None;
     closeOi := None;
     closeFundingRate := None;
     closeIndexPrice := None;
     closeMarkPrice := None;
     closeTimestamp := DATE_MIN;
     deltaOi := 0;
     predictedFundingRate := None;
     ticks := 0;
     fundingTimestamp := fundingTimestamp bar;
     timestamp := DATE_MIN;
     localTimestamp := localTimestamp bar |}.

(** The assignments of [_update] (lines 137-160). *)
Definition update_fields {I D} (derivativeTicker : DerivativeTicker D)
    (bar : DerivativeBar I D) : DerivativeBar I D :=
  let isNotOpenedYet := bool_decide (ticks bar = 0) in
  let openOi' :=
    if isNotOpenedYet then t_openInterest derivativeTicker else openOi bar in
  let closeOi' := t_openInterest derivativeTicker in
  {| type := type bar;
     symbol := symbol bar;
     exchange := exchange bar;
     name := name bar;
     interval := interval bar;
     kind := kind bar;
     openLastPrice :=
       if isNotOpenedYet then t_lastPrice derivativeTicker else openLastPrice bar;
     openOi := openOi';
     openFundingRate :=
       if isNotOpenedYet then t_fundingRate derivativeTicker else openFundingRate bar;
     openIndexPrice :=
       if isNotOpenedYet then t_indexPrice derivativeTicker else openIndexPrice bar;
     openMarkPrice :=
       if isNotOpenedYet then t_markPrice derivativeTicker else openMarkPrice bar;
     openTimestamp :=
       if isNotOpenedYet then t_timestamp derivativeTicker else openTimestamp bar;
     closeLastPrice := t_lastPrice derivativeTicker;
     closeOi := closeOi';
     closeFundingRate := t_fundingRate derivativeTicker;
     closeIndexPrice := t_indexPrice derivativeTicker;
     closeMarkPrice := t_markPrice derivativeTicker;
     closeTimestamp := t_timestamp derivativeTicker;
     deltaOi := orZero closeOi' - orZero openOi';
     predictedFundingRate := t_predictedFundingRate derivativeTicker;
     ticks := ticks bar + 1;
     fundingTimestamp := fundingTimestamp bar;
     timestamp := t_timestamp derivativeTicker;
     localTimestamp := localTimestamp bar |}.

(** The three assignments that open [_computeBar] (lines 94-96). *)
Definition stamp_fields {I D} (message : Message D) (bar : DerivativeBar I D)
  : DerivativeBar I D :=
  {| type := type bar;
     symbol := msg_symbol message;
     exchange := msg_exchange message;
     name := name bar;
     interval := interval bar;
     kind := kind bar;
     openLastPrice := openLastPrice bar;
     openOi := openOi bar;
     openFundingRate := openFundingRate bar;
     openIndexPrice := openIndexPrice bar;
     openMarkPrice := openMarkPrice bar;
     openTimestamp := openTimestamp bar;
     closeLastPrice := closeLastPrice bar;
     closeOi := closeOi bar;
     closeFundingRate := closeFundingRate bar;
     closeIndexPrice := closeIndexPrice bar;
     closeMarkPrice := closeMarkPrice bar;
     closeTimestamp := closeTimestamp bar;
     deltaOi := deltaOi bar;
     predictedFundingRate := predictedFundingRate bar;
     ticks := ticks bar;
     fundingTimestamp := fundingTimestamp bar;
     timestamp := timestamp bar;
     localTimestamp := Some (msg_localTimestamp message) |}.

(** The assignment [this._inProgressBar.timestamp = d] (line 117). *)
Definition set_timestamp {I D} (d : D) (bar : DerivativeBar I D)
  : DerivativeBar I D :=
  {| type := type bar;
     symbol := symbol bar;
     exchange := exchange bar;
     name := name bar;
     interval := interval bar;
     kind := kind bar;
     openLastPrice := openLastPrice bar;
     openOi := openOi bar;
     openFundingRate := openFundingRate bar;
     openIndexPrice := openIndexPrice bar;
     openMarkPrice := openMarkPrice bar;
     openTimestamp := openTimestamp bar;
     closeLastPrice := closeLastPrice bar;
     closeOi := closeOi bar;
     closeFundingRate := closeFundingRate bar;
     closeIndexPrice := closeIndexPrice bar;
     closeMarkPrice := closeMarkPrice bar;
     closeTimestamp := closeTimestamp bar;
     deltaOi := deltaOi bar;
     predictedFundingRate := predictedFundingRate bar;
     ticks := ticks bar;
     fundingTimestamp := fundingTimestamp bar;
     timestamp := d;
     localTimestamp := localTimestamp bar |}.

(** The object literal [{}] before [_reset] has run on it; [i] and [d] fill
    the fields that [_reset] assigns before anything reads them. *)
Definition empty_object {I D} (i : I) (d : D) : DerivativeBar I D :=
  {| type := ""; symbol := ""; exchange := ""; name := ""; interval := i; kind := "";
     openLastPrice := None; openOi := None; openFundingRate := None;
     openIndexPrice := None; openMarkPrice := None; openTimestamp := d;
     closeLastPrice := None; closeOi := None; closeFundingRate := None;
     closeIndexPrice := None; closeMarkPrice := None; closeTimestamp := d;
     deltaOi := 0; predictedFundingRate := None; ticks := 0;
     fundingTimestamp := None; timestamp := d; localTimestamp := None |}.
End Generic.

(** ** Fractional intervals

    The class with the interval a rational number.  The quotient and the
    product of line 191 and line 117 are exact here; [new Date] drops the
    fraction of its argument, as the [Date] constructor does.  The counter,
    the open interest and the prices stay integers. *)
Module Fractional.
Abbreviation Bar := (Generic.DerivativeBar Q Z).
Abbreviation Message := (Generic.Message Z).

(** [const DATE_MIN = new Date(-1)] *)
Definition DATE_MIN : Z := -1.

(** [new Date(v)]: the time value is [v] truncated towards zero. *)
Definition new_Date (v : Q) : Z :=
  if Qle_bool 0 v then Qfloor v else Qceiling v.

(** [Math.floor(timestamp.valueOf() / interval)] *)
Definition time_bucket (i : Q) (timestamp : Z) : Z :=
  Qfloor (inject_Z timestamp / i).

(** The decision of [_hasNewBar] (lines 108-133). *)
Definition hasNewBar_fields (k : BarKind) (i : Q) (timestamp : Z) (bar : Bar)
  : bool * Bar :=
  if decide (Generic.ticks bar = 0) then (false, bar)
  else if decide (k = "time") then
    let currentTimestampTimeBucket := time_bucket i timestamp in
    let openTimestampTimeBucket := time_bucket i (Generic.openTimestamp bar) in
    if decide (currentTimestampTimeBucket > openTimestampTimeBucket) then
      (true,
       Generic.set_timestamp
         (new_Date ((inject_Z openTimestampTimeBucket + 1) * i)) bar)
    else (false, bar)
  else if decide (k = "volume") then
    (Qle_bool i (inject_Z (Generic.deltaOi bar)), bar)
  else if decide (k = "tick") then
    (Qle_bool i (inject_Z (Generic.ticks bar)), bar)
  else (false, bar).

Record DerivativeBarComputable := mkComputable {
  _inProgressBar : Bar;
  _kind : BarKind;
  _interval : Q;
  _name : string
}.

Definition with_bar (this : DerivativeBarComputable) (bar : Bar)
  : DerivativeBarComputable :=
  {| _inProgressBar := bar;
     _kind := _kind this;
     _interval := _interval this;
     _name := _name this |}.

Definition _reset (this : DerivativeBarComputable) : DerivativeBarComputable :=
  with_bar this
    (Generic.reset_fields DATE_MIN (_kind this) (_interval this) (_name this)
       (_inProgressBar this)).

Definition _getTimeBucket (this : DerivativeBarComputable) (timestamp : Z) : Z :=
  time_bucket (_interval this) timestamp.

Definition _hasNewBar (this : DerivativeBarComputable) (timestamp : Z)
  : bool * DerivativeBarComputable :=
  let r := hasNewBar_fields (_kind this) (_interval this) timestamp (_inProgressBar this) in
  (fst r, with_bar this (snd r)).

Definition _update (this : DerivativeBarComputable)
    (derivativeTicker : Generic.DerivativeTicker Z) : DerivativeBarComputable :=
  with_bar this (Generic.update_fields derivativeTicker (_inProgressBar this)).

Definition _computeBar (this : DerivativeBarComputable) (message : Message)
  : Bar * DerivativeBarComputable :=
  let this1 := with_bar this (Generic.stamp_fields message (_inProgressBar this)) in
  let derivativeBar := _inProgressBar this1 in
  (derivativeBar, _reset this1).

Definition yield_if_new (this : DerivativeBarComputable) (message : Message)
  : list Bar * DerivativeBarComputable :=
  let '(new, this1) := _hasNewBar this (Generic.msg_timestamp message) in
  if new then
    let '(bar, this2) := _computeBar this1 message in ([bar], this2)
  else ([], this1).

Definition compute (this : DerivativeBarComputable) (message : Message)
  : list Bar * DerivativeBarComputable :=
  let '(out1, this1) := yield_if_new this message in
  match message with
  | Generic.book_change _ => (out1, this1)
  | Generic.derivative_ticker t =>
      let this2 := _update this1 t in
      let '(out2, this3) := yield_if_new this2 message in
      (out1 ++ out2, this3)
  end.

Record Options := mkOptions {
  opt_kind : BarKind;
  opt_interval : Q;
  opt_name : option string
}.

(** The constructor (lines 60-72).  How a template literal prints a number
    that is not an integer (the shortest decimal that reads back as the same
    double) is not fixed by exact arithmetic: [number_to_string] stands for
    it. *)
Definition new_computable (number_to_string : Q -> string) (options : Options)
  : DerivativeBarComputable :=
  let n :=
    match opt_name options with
    | None =>
        _type +:+ "_" +:+ number_to_string (opt_interval options)
          +:+ string_of_suffix (kindSuffix !! opt_kind options)
    | Some n => n
    end in
  _reset {| _inProgressBar := Generic.empty_object (opt_interval options) DATE_MIN;
            _kind := opt_kind options;
            _interval := opt_interval options;
            _name := n |}.

Fixpoint run (this : DerivativeBarComputable) (messages : list Message)
  : list Bar * DerivativeBarComputable :=
  match messages with
  | [] => ([], this)
  | message :: rest =>
      let '(out, this1) := compute this message in
      let '(outs, this2) := run this1 rest in
      (out ++ outs, this2)
  end.

(** A tick and a heartbeat at a given time, for the examples. *)
Definition tick_at (timestamp : Z) : Message :=
  Generic.derivative_ticker
    (Generic.mkTicker "XBTUSD" "bitmex" timestamp (timestamp + 7)
       (Some 100) None None None None None).

Definition heartbeat_at (timestamp : Z) : Message :=
  Generic.book_change (Generic.mkBookChange "XBTUSD" "bitmex" timestamp (timestamp + 7)).

(** The bar a time accumulator closes, and the in-progress bar once the
    message has been folded in. *)
Definition closed_time_bar (i : Q) (message : Message) (bar : Bar) : Bar :=
  Generic.stamp_fields message
    (Generic.set_timestamp
       (new_Date ((inject_Z (time_bucket i (Generic.openTimestamp bar)) + 1) * i)) bar).

End Fractional.

(** ** The integer model inside the fractional one

    A state, a message and a bar of the integer model, read in the fractional
    model: the interval [i] becomes the rational [i/1], everything else is
    the same. *)

Definition embed_ticker (t : DerivativeTicker.t) : Generic.DerivativeTicker Z :=
  Generic.mkTicker (DerivativeTicker.symbol t) (DerivativeTicker.exchange t)
    (DerivativeTicker.timestamp t) (DerivativeTicker.localTimestamp t)
    (DerivativeTicker.lastPrice t) (DerivativeTicker.openInterest t)
    (DerivativeTicker.fundingRate t) (DerivativeTicker.indexPrice t)
    (DerivativeTicker.markPrice t) (DerivativeTicker.predictedFundingRate t).

Definition embed_message (message : Message) : Fractional.Message :=
  match message with
  | derivative_ticker t => Generic.derivative_ticker (embed_ticker t)
  | book_change b =>
      Generic.book_change
        (Generic.mkBookChange (BookChange.symbol b) (BookChange.exchange b)
           (BookChange.timestamp b) (BookChange.localTimestamp b))
  end.

Definition embed_bar (bar : DerivativeBar) : Fractional.Bar :=
  Generic.mkBar (type bar) (symbol bar) (exchange bar) (name bar)
    (inject_Z (interval bar)) (kind bar)
    (openLastPrice bar) (openOi bar) (openFundingRate bar) (openIndexPrice bar)
    (openMarkPrice bar) (openTimestamp bar)
    (closeLastPrice bar) (closeOi bar) (closeFundingRate bar) (closeIndexPrice bar)
    (closeMarkPrice bar) (closeTimestamp bar)
    (deltaOi bar) (predictedFundingRate bar) (ticks bar) (fundingTimestamp bar)
    (timestamp bar) (localTimestamp bar).

Definition embed_computable (this : DerivativeBarComputable)
  : Fractional.DerivativeBarComputable :=
  Fractional.mkComputable (embed_bar (_inProgressBar this)) (_kind this)
    (inject_Z (_interval this)) (_name this).

(** A message of the fractional model, read in the integer model: the two
    have the same content. *)
Definition unembed_message (message : Fractional.Message) : Message :=
  match message with
  | Generic.derivative_ticker t =>
      derivative_ticker
        (DerivativeTicker.mk (Generic.t_symbol t) (Generic.t_exchange t)
           (Generic.t_timestamp t) (Generic.t_localTimestamp t)
           (Generic.t_lastPrice t) (Generic.t_openInterest t)
           (Generic.t_fundingRate t) (Generic.t_indexPrice t)
           (Generic.t_markPrice t) (Generic.t_predictedFundingRate t))
  | Generic.book_change b =>
      book_change
        (BookChange.mk (Generic.b_symbol b) (Generic.b_exchange b)
           (Generic.b_timestamp b) (Generic.b_localTimestamp b))
  end.

(** What a time bar that closes its bucket looks like, for an interval of
    [n] whole milliseconds. *)
Definition closes_its_whole_bucket (n : Z) (bar : Fractional.Bar) : Prop :=
  Generic.timestamp bar mod n = 0 /\
  in_window n (Generic.timestamp bar) (Generic.openTimestamp bar) /\
  in_window n (Generic.timestamp bar) (Generic.closeTimestamp bar) /\
  Generic.openTimestamp bar <= Generic.closeTimestamp bar.

(** ** Dates as objects

    The class once more over a heap, now with every [Date] an object of its
    own: a [Date]-typed field holds a reference, an assignment
    [a.f = b.g] and the spread [{ ...o }] copy the reference, and
    [new Date(v)] allocates.  A bar made by an object literal is an ordinary
    object; the class freezes nothing.  The interval is an integer, as in
    the first model, and [_getTimeBucket] is the integer quotient, which is
    [Math.floor] of the quotient for an interval that is not zero. *)
Module Objects.
Abbreviation ref := positive.
Abbreviation Bar := (Generic.DerivativeBar Z ref).
Abbreviation Message := (Generic.Message ref).

(** The [Date] objects with their time values, and the bar objects. *)
Record Heap := mkHeap {
  dates : gmap ref Z;
  bars : gmap ref Bar
}.

(** [const DATE_MIN = new Date(-1)] (line 3): one object, made when the
    module is loaded. *)
Definition DATE_MIN : ref := 1%positive.

Definition module_heap : Heap :=
  {| dates := {[DATE_MIN := -1]}; bars := ∅ |}.

(** Reading through a reference is total; the default is never read, every
    reference in use being allocated. *)
#[global] Instance Bar_inhabited : Inhabited Bar :=
  populate (Generic.empty_object 0 DATE_MIN).

(** [d.valueOf()] *)
Definition valueOf (d : ref) (h : Heap) : Z := dates h !!! d.

(** [new Date(v)] *)
Definition new_Date (v : Z) (h : Heap) : ref * Heap :=
  let d := fresh (dom (dates h)) in
  (d, {| dates := <[d := v]> (dates h); bars := bars h |}).

(** [d.setTime(v)], the mutator of a [Date].  The class never calls it;
    code that holds a reference to the [Date] can. *)
Definition setTime (d : ref) (v : Z) (h : Heap) : Heap :=
  {| dates := <[d := v]> (dates h); bars := bars h |}.

(** Assignments to the fields of the bar object [o]. *)
Definition assign (f : Bar -> Bar) (o : ref) (h : Heap) : Heap :=
  {| dates := dates h; bars := alter f o (bars h) |}.

Record DerivativeBarComputable := mk {
  _inProgressBar : ref;
  _kind : BarKind;
  _interval : Z;
  _name : string
}.

Definition _reset (this : DerivativeBarComputable) (h : Heap) : Heap :=
  assign (Generic.reset_fields DATE_MIN (_kind this) (_interval this) (_name this))
    (_inProgressBar this) h.

Definition _update (this : DerivativeBarComputable)
    (derivativeTicker : Generic.DerivativeTicker ref) (h : Heap) : Heap :=
  assign (Generic.update_fields derivativeTicker) (_inProgressBar this) h.

Definition _getTimeBucket (this : DerivativeBarComputable) (timestamp : ref) (h : Heap)
  : Z :=
  valueOf timestamp h / _interval this.

Definition _hasNewBar (this : DerivativeBarComputable) (timestamp : ref) (h : Heap)
  : bool * Heap :=
  let bar := bars h !!! _inProgressBar this in
  if decide (Generic.ticks bar = 0) then (false, h)
  else if decide (_kind this = "time") then
    let currentTimestampTimeBucket := _getTimeBucket this timestamp h in
    let openTimestampTimeBucket :=
      _getTimeBucket this (Generic.openTimestamp bar) h in
    if decide (currentTimestampTimeBucket > openTimestampTimeBucket) then
      let '(d, h1) := new_Date ((openTimestampTimeBucket + 1) * _interval this) h in
      (true, assign (Generic.set_timestamp d) (_inProgressBar this) h1)
    else (false, h)
  else if decide (_kind this = "volume") then
    (bool_decide (Generic.deltaOi bar >= _interval this), h)
  else if decide (_kind this = "tick") then
    (bool_decide (Generic.ticks bar >= _interval this), h)
  else (false, h).

(** [{ ...o }]: a new object with the fields of [o]; a field that holds a
    reference is copied as the reference. *)
Definition spread (o : ref) (h : Heap) : ref * Heap :=
  let l := fresh (dom (bars h)) in
  (l, {| dates := dates h; bars := <[l := bars h !!! o]> (bars h) |}).

Definition _computeBar (this : DerivativeBarComputable) (message : Message) (h : Heap)
  : ref * Heap :=
  let h1 := assign (Generic.stamp_fields message) (_inProgressBar this) h in
  let '(derivativeBar, h2) := spread (_inProgressBar this) h1 in
  (derivativeBar, _reset this h2).

Definition yield_if_new (this : DerivativeBarComputable) (message : Message) (h : Heap)
  : list ref * Heap :=
  let '(new, h1) := _hasNewBar this (Generic.msg_timestamp message) h in
  if new then
    let '(bar, h2) := _computeBar this message h1 in ([bar], h2)
  else ([], h1).

Definition compute (this : DerivativeBarComputable) (message : Message) (h : Heap)
  : list ref * Heap :=
  let '(out1, h1) := yield_if_new this message h in
  match message with
  | Generic.book_change _ => (out1, h1)
  | Generic.derivative_ticker t =>
      let h2 := _update this t h1 in
      let '(out2, h3) := yield_if_new this message h2 in
      (out1 ++ out2, h3)
  end.

(** [new DerivativeBarComputable(options)]: the object [{}] is allocated
    and reset. *)
Definition constructor (options : DerivativeBarComputableOptions) (h : Heap)
  : DerivativeBarComputable * Heap :=
  let n :=
    match opt_name options with
    | None => default_name (opt_kind options) (opt_interval options)
    | Some n => n
    end in
  let l := fresh (dom (bars h)) in
  let this := {| _inProgressBar := l;
                 _kind := opt_kind options;
                 _interval := opt_interval options;
                 _name := n |} in
  (this,
   _reset this
     {| dates := dates h;
        bars := <[l := Generic.empty_object (opt_interval options) DATE_MIN]> (bars h) |}).

(** Modelled from the spec: a message as the caller delivers it (section 3),
    its [timestamp] and its [localTimestamp] two [Date] objects made for
    it. *)
Definition deliver (message : Generic.Message Z) (h : Heap) : Message * Heap :=
  let '(timestamp, h1) := new_Date (Generic.msg_timestamp message) h in
  let '(localTimestamp, h2) := new_Date (Generic.msg_localTimestamp message) h1 in
  (match message with
   | Generic.derivative_ticker t =>
       Generic.derivative_ticker
         (Generic.mkTicker (Generic.t_symbol t) (Generic.t_exchange t)
            timestamp localTimestamp
            (Generic.t_lastPrice t) (Generic.t_openInterest t)
            (Generic.t_fundingRate t) (Generic.t_indexPrice t)
            (Generic.t_markPrice t) (Generic.t_predictedFundingRate t))
   | Generic.book_change b =>
       Generic.book_change
         (Generic.mkBookChange (Generic.b_symbol b) (Generic.b_exchange b)
            timestamp localTimestamp)
   end, h2).

(** The messages delivered to [compute] one after the other. *)
Fixpoint run (this : DerivativeBarComputable) (messages : list (Generic.Message Z))
    (h : Heap) : list ref * Heap :=
  match messages with
  | [] => ([], h)
  | message :: rest =>
      let '(m, h0) := deliver message h in
      let '(out, h1) := compute this m h0 in
      let '(outs, h2) := run this rest h1 in
      (out ++ outs, h2)
  end.

(** [later this h h']: [h'] is [h] after any number of calls of the
    methods of [this] and of [new Date] by the caller. *)
Inductive later (this : DerivativeBarComputable) : Heap -> Heap -> Prop :=
| later_refl h : later this h h
| later_new_Date v h h' : later this (snd (new_Date v h)) h' -> later this h h'
| later_reset h h' : later this (_reset this h) h' -> later this h h'
| later_update t h h' : later this (_update this t h) h' -> later this h h'
| later_hasNewBar timestamp h h' :
    later this (snd (_hasNewBar this timestamp h)) h' -> later this h h'
| later_computeBar message h h' :
    later this (snd (_computeBar this message h)) h' -> later this h h'.

(** The [Date] objects a bar refers to. *)
Definition bar_dates (bar : Bar) : gset ref :=
  {[Generic.openTimestamp bar; Generic.closeTimestamp bar; Generic.timestamp bar]}
    ∪ from_option singleton ∅ (Generic.fundingTimestamp bar)
    ∪ from_option singleton ∅ (Generic.localTimestamp bar).
End Objects.

(** What the bar object [bar] reads as in the heap [h]: every [Date] field
    by its time value. *)
Definition snapshot (h : Objects.Heap) (bar : Objects.Bar) : DerivativeBar :=
  {| type := Generic.type bar;
     symbol := Generic.symbol bar;
     exchange := Generic.exchange bar;
     name := Generic.name bar;
     interval := Generic.interval bar;
     kind := Generic.kind bar;
     openLastPrice := Generic.openLastPrice bar;
     openOi := Generic.openOi bar;
     openFundingRate := Generic.openFundingRate bar;
     openIndexPrice := Generic.openIndexPrice bar;
     openMarkPrice := Generic.openMarkPrice bar;
     openTimestamp := Objects.valueOf (Generic.openTimestamp bar) h;
     closeLastPrice := Generic.closeLastPrice bar;
     closeOi := Generic.closeOi bar;
     closeFundingRate := Generic.closeFundingRate bar;
     closeIndexPrice := Generic.closeIndexPrice bar;
     closeMarkPrice := Generic.closeMarkPrice bar;
     closeTimestamp := Objects.valueOf (Generic.closeTimestamp bar) h;
     deltaOi := Generic.deltaOi bar;
     predictedFundingRate := Generic.predictedFundingRate bar;
     ticks := Generic.ticks bar;
     fundingTimestamp :=
       (fun d => Objects.valueOf d h) <$> Generic.fundingTimestamp bar;
     timestamp := Objects.valueOf (Generic.timestamp bar) h;
     localTimestamp :=
       (fun d => Objects.valueOf d h) <$> Generic.localTimestamp bar |}.

(** The ticker and the message as the heap [h] reads them. *)
Definition ticker_snapshot (h : Objects.Heap) (t : Generic.DerivativeTicker Objects.ref)
  : DerivativeTicker.t :=
  DerivativeTicker.mk (Generic.t_symbol t) (Generic.t_exchange t)
    (Objects.valueOf (Generic.t_timestamp t) h)
    (Objects.valueOf (Generic.t_localTimestamp t) h)
    (Generic.t_lastPrice t) (Generic.t_openInterest t)
    (Generic.t_fundingRate t) (Generic.t_indexPrice t)
    (Generic.t_markPrice t) (Generic.t_predictedFundingRate t).

Definition message_snapshot (h : Objects.Heap) (message : Objects.Message) : Message :=
  match message with
  | Generic.derivative_ticker t => derivative_ticker (ticker_snapshot h t)
  | Generic.book_change b =>
      book_change
        (BookChange.mk (Generic.b_symbol b) (Generic.b_exchange b)
           (Objects.valueOf (Generic.b_timestamp b) h)
           (Objects.valueOf (Generic.b_localTimestamp b) h))
  end.

(** The bar object at [l] as the heap [h] reads it. *)
Definition read (h : Objects.Heap) (l : Objects.ref) : DerivativeBar :=
  snapshot h (Objects.bars h !!! l).

(** The object of the value model that stands for [this] in the heap [h]. *)
Definition objects_value_of (this : Objects.DerivativeBarComputable) (h : Objects.Heap)
  : DerivativeBarComputable :=
  {| _inProgressBar := read h (Objects._inProgressBar this);
     _kind := Objects._kind this;
     _interval := Objects._interval this;
     _name := Objects._name this |}.

(** [frame ip h h']: from [h] to [h'] every [Date] object has kept its time
    value, and every bar object other than [ip] its fields. *)
Definition frame (ip : Objects.ref) (h h' : Objects.Heap) : Prop :=
  Objects.dates h ⊆ Objects.dates h' /\
  forall l bar, l <> ip ->
    Objects.bars h !! l = Some bar -> Objects.bars h' !! l = Some bar.

(** The heaps the class works on: [DATE_MIN] is the date of line 3, and the
    in-progress bar is an object whose dates are objects. *)
Definition heap_ok (this : Objects.DerivativeBarComputable) (h : Objects.Heap) : Prop :=
  Objects.dates h !! Objects.DATE_MIN = Some (-1) /\
  exists bar, Objects.bars h !! Objects._inProgressBar this = Some bar /\
    Objects.bar_dates bar ⊆ dom (Objects.dates h).

(** An emitted bar: an object other than the in-progress bar, whose dates
    are objects. *)
Definition emitted_ok (this : Objects.DerivativeBarComputable) (h : Objects.Heap)
    (l : Objects.ref) : Prop :=
  l <> Objects._inProgressBar this /\
  exists bar, Objects.bars h !! l = Some bar /\
    Objects.bar_dates bar ⊆ dom (Objects.dates h).

(** The two dates of a message are objects. *)
Definition message_ok (message : Objects.Message) (h : Objects.Heap) : Prop :=
  Generic.msg_timestamp message ∈ dom (Objects.dates h) /\
  Generic.msg_localTimestamp message ∈ dom (Objects.dates h).

(** * Properties of the value model *)

(** ** Basic facts about the methods *)

Section Methods.
Variables (k : BarKind) (i : Z) (n : string).

Lemma hasNewBar_not_opened timestamp bar :
  ticks bar = 0 -> hasNewBar_fields k i timestamp bar = (false, bar).
Proof. intros H. unfold hasNewBar_fields. by rewrite decide_True. Qed.

Lemma hasNewBar_true timestamp bar bar' :
  hasNewBar_fields k i timestamp bar = (true, bar') ->
  ticks bar <> 0 /\
  ((k = "time" /\ time_bucket i timestamp > time_bucket i (openTimestamp bar) /\
    bar' = set_timestamp (new_Date ((time_bucket i (openTimestamp bar) + 1) * i)) bar) \/
   (k = "volume" /\ deltaOi bar >= i /\ bar' = bar) \/
   (k = "tick" /\ ticks bar >= i /\ bar' = bar)).
Proof.
  unfold hasNewBar_fields. intros H.
  repeat case_decide; simplify_eq; try case_bool_decide; simplify_eq;
    split; auto 6.
Qed.

Lemma hasNewBar_false timestamp bar bar' :
  hasNewBar_fields k i timestamp bar = (false, bar') ->
  bar' = bar /\
  (ticks bar = 0 \/
   (k = "time" /\ ~ time_bucket i timestamp > time_bucket i (openTimestamp bar)) \/
   (k = "volume" /\ ~ deltaOi bar >= i) \/
   (k = "tick" /\ ~ ticks bar >= i) \/
   (k <> "time" /\ k <> "volume" /\ k <> "tick")).
Proof.
  unfold hasNewBar_fields. intros H.
  repeat case_decide; simplify_eq; try case_bool_decide; simplify_eq;
    split; auto 8.
Qed.

Lemma reset_fields_ticks bar : ticks (reset_fields k i n bar) = 0.
Proof. reflexivity. Qed.

(** [_reset] reads the old object only through the two fields it leaves
    alone. *)
Lemma reset_fields_reads bar bar' :
  fundingTimestamp bar = fundingTimestamp bar' ->
  localTimestamp bar = localTimestamp bar' ->
  reset_fields k i n bar = reset_fields k i n bar'.
Proof. unfold reset_fields. by intros -> ->. Qed.
End Methods.

Lemma with_bar_same this : with_bar this (_inProgressBar this) = this.
Proof. by destruct this. Qed.

(** What one guarded yield does, read off the decision of [_hasNewBar]. *)
Lemma yield_if_new_true this message bar' :
  hasNewBar_fields (_kind this) (_interval this) (msg_timestamp message)
    (_inProgressBar this) = (true, bar') ->
  yield_if_new this message =
    ([stamp_fields message bar'],
     with_bar this (reset_fields (_kind this) (_interval this) (_name this)
                      (stamp_fields message bar'))).
Proof. intros H. unfold yield_if_new, _hasNewBar. by rewrite H. Qed.

Lemma yield_if_new_false this message bar' :
  hasNewBar_fields (_kind this) (_interval this) (msg_timestamp message)
    (_inProgressBar this) = (false, bar') ->
  yield_if_new this message = ([], this).
Proof.
  intros H. unfold yield_if_new, _hasNewBar. rewrite H. simpl.
  apply hasNewBar_false in H as [-> _]. by rewrite with_bar_same.
Qed.

(** The configuration is read-only. *)
Lemma yield_if_new_config this message :
  let this' := snd (yield_if_new this message) in
  _kind this' = _kind this /\ _interval this' = _interval this /\ _name this' = _name this.
Proof.
  destruct (hasNewBar_fields (_kind this) (_interval this) (msg_timestamp message)
              (_inProgressBar this)) as [[] bar'] eqn:E.
  - by rewrite (yield_if_new_true _ _ _ E).
  - by rewrite (yield_if_new_false _ _ _ E).
Qed.

Lemma compute_config this message :
  let this' := snd (compute this message) in
  _kind this' = _kind this /\ _interval this' = _interval this /\ _name this' = _name this.
Proof.
  unfold compute.
  pose proof (yield_if_new_config this message) as H.
  destruct (yield_if_new this message) as [out1 this1]. simpl in H.
  destruct message as [t|b]; [|exact H].
  pose proof (yield_if_new_config (_update this1 t) (derivative_ticker t)) as H2.
  destruct (yield_if_new (_update this1 t) (derivative_ticker t)) as [out2 this3].
  simpl in *. intuition congruence.
Qed.

Lemma run_app this ms1 ms2 :
  run this (ms1 ++ ms2) =
    (fst (run this ms1) ++ fst (run (snd (run this ms1)) ms2),
     snd (run (snd (run this ms1)) ms2)).
Proof.
  revert this. induction ms1 as [|m ms1 IH]; intros this; simpl.
  - by destruct (run this ms2).
  - destruct (compute this m) as [out this1]. rewrite IH.
    destruct (run this1 ms1) as [outs this2]. simpl.
    by rewrite app_assoc.
Qed.

(** Reachable states are the states after some finite input. *)
Lemma reachable_run options this :
  reachable options this <-> exists ms, this = snd (run (new_computable options) ms).
Proof.
  split.
  - induction 1 as [|this m _ [ms ->]].
    + by exists [].
    + exists (ms ++ [m]). rewrite run_app. simpl.
      by destruct (compute _ m).
  - intros [ms ->]. induction ms as [|m ms IH] using rev_ind.
    + constructor.
    + rewrite run_app. simpl.
      pose proof (reachable_compute options _ m IH) as H.
      by destruct (compute _ m).
Qed.

(** ** The invariant, and the cases of one call *)

Lemma update_fields_ticks t bar : ticks (update_fields t bar) = ticks bar + 1.
Proof. reflexivity. Qed.

Lemma update_fields_openTimestamp t bar :
  openTimestamp (update_fields t bar) =
    if decide (ticks bar = 0) then DerivativeTicker.timestamp t else openTimestamp bar.
Proof. simpl. by case_bool_decide; case_decide. Qed.

Lemma update_fields_deltaOi t bar :
  deltaOi (update_fields t bar) =
    orZero (closeOi (update_fields t bar)) - orZero (openOi (update_fields t bar)).
Proof. reflexivity. Qed.

(** After the first check has not fired, or has fired and reset the bar, a
    time accumulator does not fire on the same timestamp after [_update]. *)
Lemma time_second_check_quiet i t bar :
  fst (hasNewBar_fields "time" i (DerivativeTicker.timestamp t) bar) = false ->
  hasNewBar_fields "time" i (DerivativeTicker.timestamp t) (update_fields t bar)
    = (false, update_fields t bar).
Proof.
  intros H.
  destruct (hasNewBar_fields "time" i (DerivativeTicker.timestamp t) bar)
    as [new bar'] eqn:E.
  simpl in H; subst new. apply hasNewBar_false in E as [_ E].
  unfold hasNewBar_fields.
  rewrite update_fields_openTimestamp, update_fields_ticks.
  repeat case_decide; try done; destruct E as [E|[[_ E]|[[E _]|[[E _]|[E _]]]]];
    try done; lia.
Qed.

Lemma compute_cases this message :
  inv this ->
  exists out bar',
    compute this message = (out, with_bar this bar') /\ step_case this message out bar'.
Proof.
  intros (Hticks & Hvol & Htick & _).
  unfold compute.
  destruct (hasNewBar_fields (_kind this) (_interval this) (msg_timestamp message)
              (_inProgressBar this)) as [[] bar1] eqn:E1.
  - rewrite (yield_if_new_true _ _ _ E1).
    apply hasNewBar_true in E1 as (Hopen & [(Hk & Hb & ->)|[(Hk & Hd & ->)|(Hk & Hd & ->)]]).
    + destruct message as [t|b].
      * set (bar2 := reset_fields _ _ _ _).
        assert (E2 : hasNewBar_fields (_kind (_update (with_bar this bar2) t))
                       (_interval (_update (with_bar this bar2) t))
                       (msg_timestamp (derivative_ticker t))
                       (_inProgressBar (_update (with_bar this bar2) t))
                     = (false, update_fields t bar2)).
        { simpl. rewrite Hk. apply time_second_check_quiet.
          by rewrite hasNewBar_not_opened. }
        rewrite (yield_if_new_false _ _ _ E2). simpl.
        eexists _, _. split; [reflexivity|].
        by eapply time_close_on_tick.
      * eexists _, _. split; [reflexivity|].
        by eapply time_close_on_heartbeat.
    + destruct (Hvol Hk); [done|lia].
    + destruct (Htick Hk); [done|lia].
  - rewrite (yield_if_new_false _ _ _ E1).
    pose proof (hasNewBar_false _ _ _ _ _ E1) as [-> Hno].
    destruct message as [t|b].
    + destruct (hasNewBar_fields (_kind (_update this t)) (_interval (_update this t))
                  (msg_timestamp (derivative_ticker t))
                  (_inProgressBar (_update this t))) as [[] bar3] eqn:E2.
      * rewrite (yield_if_new_true _ _ _ E2). simpl in *.
        apply hasNewBar_true in E2 as (Hopen & [(Hk & Hb & ->)|[(Hk & Hd & ->)|(Hk & Hd & ->)]]).
        -- exfalso. rewrite Hk in E1.
           pose proof (time_second_check_quiet (_interval this) t (_inProgressBar this)) as Q.
           rewrite E1 in Q. specialize (Q eq_refl).
           unfold hasNewBar_fields in Q. rewrite decide_False in Q by done.
           rewrite decide_True in Q by done. by rewrite decide_True in Q by done.
        -- eexists _, _. split; [reflexivity|].
           eapply threshold_close; eauto.
        -- eexists _, _. split; [reflexivity|].
           eapply threshold_close; eauto.
      * rewrite (yield_if_new_false _ _ _ E2). simpl in *.
        pose proof (hasNewBar_false _ _ _ _ _ E2) as [-> _].
        eexists _, _. split; [reflexivity|].
        by eapply tick_folded.
    + eexists _, _. split; [by rewrite with_bar_same|].
      by eapply heartbeat_idle.
Qed.

Lemma reset_fields_ok k i n bar : bar_ok k i (reset_fields k i n bar).
Proof. unfold bar_ok. simpl. auto with lia. Qed.

Lemma step_case_ok this message out bar' :
  inv this -> step_case this message out bar' ->
  bar_ok (_kind this) (_interval this) bar'.
Proof.
  intros Hinv Hstep. pose proof Hinv as (Hticks & Hvol & Htick & Hdelta).
  destruct Hstep as [b Hm E1|b Hm Hk Hopen Hb|t Hm Hk Hopen Hb|t Hm E1 E2|t Hm E1 Hth].
  - exact Hinv.
  - apply reset_fields_ok.
  - unfold bar_ok. rewrite update_fields_ticks, Hk. simpl.
    repeat split; [lia|done..].
  - apply hasNewBar_false in E2 as [_ E2]. rewrite update_fields_ticks in E2.
    unfold bar_ok. rewrite update_fields_ticks.
    split; [lia|]. split; [|split; [|apply update_fields_deltaOi]].
    + intros Hk. right.
      destruct E2 as [E|[[E ?]|[[? E]|[[E ?]|(? & ? & ?)]]]]; try congruence; lia.
    + intros Hk. right.
      destruct E2 as [E|[[E ?]|[[E ?]|[[? E]|(? & ? & ?)]]]]; try congruence; lia.
  - apply reset_fields_ok.
Qed.

Lemma compute_inv this message : inv this -> inv (snd (compute this message)).
Proof.
  intros Hinv. destruct (compute_cases this message Hinv) as (out & bar' & -> & Hstep).
  apply (step_case_ok _ _ _ _ Hinv Hstep).
Qed.

Lemma new_computable_inv options : inv (new_computable options).
Proof. apply reset_fields_ok. Qed.

Lemma new_computable_config options :
  _kind (new_computable options) = opt_kind options /\
  _interval (new_computable options) = opt_interval options.
Proof. done. Qed.

Lemma reachable_inv options this :
  reachable options this ->
  inv this /\ _kind this = opt_kind options /\ _interval this = opt_interval options.
Proof.
  induction 1 as [|this m _ (Hinv & Hk & Hi)].
  - split; [apply new_computable_inv|apply new_computable_config].
  - destruct (compute_config this m) as (Hk' & Hi' & _).
    split; [by apply compute_inv|]. split; congruence.
Qed.

Lemma run_inv this ms : inv this -> inv (snd (run this ms)).
Proof.
  revert this. induction ms as [|m ms IH]; intros this Hinv; simpl; [done|].
  pose proof (compute_inv this m Hinv) as H1.
  destruct (compute this m) as [out this1].
  specialize (IH this1 H1). by destruct (run this1 ms).
Qed.

Lemma run_config this ms :
  _kind (snd (run this ms)) = _kind this /\
  _interval (snd (run this ms)) = _interval this.
Proof.
  revert this. induction ms as [|m ms IH]; intros this; simpl; [done|].
  destruct (compute_config this m) as (Hk & Hi & _).
  destruct (compute this m) as [out this1].
  destruct (IH this1) as [Hk1 Hi1]. destruct (run this1 ms).
  simpl in *. split; congruence.
Qed.

(** Every bar a run yields is yielded by one of its calls, from the state
    the run had reached by then. *)
Lemma run_in this ms bar :
  In bar (fst (run this ms)) ->
  exists ms1 message ms2,
    ms = ms1 ++ message :: ms2 /\
    In bar (fst (compute (snd (run this ms1)) message)).
Proof.
  revert this. induction ms as [|m ms IH]; intros this; simpl; [done|].
  destruct (compute this m) as [out this1] eqn:E.
  destruct (run this1 ms) as [outs this2] eqn:E'. simpl.
  rewrite in_app_iff. intros [H|H].
  - exists [], m, ms. simpl. rewrite E. by split.
  - destruct (IH this1) as (ms1 & m' & ms2 & -> & Hin); [by rewrite E'|].
    exists (m :: ms1), m', ms2. simpl. rewrite E.
    destruct (run this1 ms1). by split.
Qed.

(** ** No bar before the first tick *)

(** A bar is only ever yielded right after [_hasNewBar] has answered [true],
    which it never does on a bar with no tick; this holds from any state. *)
Lemma yield_if_new_opened this message bar :
  In bar (fst (yield_if_new this message)) -> ticks bar <> 0.
Proof.
  destruct (hasNewBar_fields (_kind this) (_interval this) (msg_timestamp message)
              (_inProgressBar this)) as [[] bar'] eqn:E.
  - rewrite (yield_if_new_true _ _ _ E). simpl. intros [<-|[]].
    apply hasNewBar_true in E as (Hopen & [(_ & _ & ->)|[(_ & _ & ->)|(_ & _ & ->)]]);
      exact Hopen.
  - by rewrite (yield_if_new_false _ _ _ E).
Qed.

Lemma compute_opened this message bar :
  In bar (fst (compute this message)) -> ticks bar <> 0.
Proof.
  unfold compute.
  pose proof (yield_if_new_opened this message bar) as H1.
  destruct (yield_if_new this message) as [out1 this1].
  destruct message as [t|b]; [|exact H1].
  pose proof (yield_if_new_opened (_update this1 t) (derivative_ticker t) bar) as H2.
  destruct (yield_if_new (_update this1 t) (derivative_ticker t)) as [out2 this3].
  simpl in *. rewrite in_app_iff. tauto.
Qed.

Lemma compute_heartbeat_not_opened this b :
  ticks (_inProgressBar this) = 0 -> compute this (book_change b) = ([], this).
Proof.
  intros H. unfold compute.
  by rewrite (yield_if_new_false this (book_change b) (_inProgressBar this))
    by (by apply hasNewBar_not_opened).
Qed.

(** C2. For every kind and every interval (so for every positive one), an
    accumulator whose in-progress bar has [ticks = 0] emits nothing:
    [_hasNewBar] answers [false] on every timestamp and leaves the object as
    it is, every bar that any call yields has [ticks <> 0], and an input made
    of heartbeats only yields no bar, whatever the timestamps, and leaves the
    accumulator unchanged. *)
Theorem no_bar_without_tick (this : DerivativeBarComputable) (ms : list Message) :
  ticks (_inProgressBar this) = 0 ->
  Forall is_heartbeat ms ->
  (forall timestamp, _hasNewBar this timestamp = (false, this)) /\
  (forall message bar, In bar (fst (compute this message)) -> ticks bar <> 0) /\
  run this ms = ([], this).
Proof.
  intros Hticks Hms. split; [|split].
  - intros ts. unfold _hasNewBar.
    rewrite hasNewBar_not_opened by done. simpl. by rewrite with_bar_same.
  - apply compute_opened.
  - induction Hms as [|m ms Hm _ IH]; [done|].
    destruct m as [t|b]; [done|]. simpl.
    rewrite compute_heartbeat_not_opened by done. by rewrite IH.
Qed.

Lemma no_bar_without_tick_witness :
  let this := new_computable (mkOptions "time" 60000 None) in
  let ms := [heartbeat_at 10000; heartbeat_at 65000; heartbeat_at 86400000] in
  ticks (_inProgressBar this) = 0 /\ Forall is_heartbeat ms /\
  run this ms = ([], this).
Proof.
  intros this ms.
  assert (H1 : ticks (_inProgressBar this) = 0) by reflexivity.
  assert (H2 : Forall is_heartbeat ms) by (repeat constructor).
  split; [exact H1|]. split; [exact H2|].
  exact (proj2 (proj2 (no_bar_without_tick this ms H1 H2))).
Defined.

(** ** Time bars *)

Lemma closed_time_bar_timestamp i message bar :
  timestamp (closed_time_bar i message bar) = (openTimestamp bar / i + 1) * i.
Proof. reflexivity. Qed.

Lemma closed_time_bar_openTimestamp i message bar :
  openTimestamp (closed_time_bar i message bar) = openTimestamp bar.
Proof. reflexivity. Qed.

(** The boundary that closes a bucket lies after the opening timestamp and
    not after a timestamp of a later bucket. *)
Lemma bucket_boundary i opened closing :
  0 < i -> time_bucket i closing > time_bucket i opened ->
  opened < (opened / i + 1) * i <= closing.
Proof.
  unfold time_bucket. intros Hi Hb.
  pose proof (Z.mul_div_le closing i Hi).
  pose proof (Z.mul_succ_div_gt opened i Hi).
  nia.
Qed.

(** The bars of a time accumulator come from the first check only. *)
Lemma time_step_case this message out bar' :
  _kind this = "time" -> step_case this message out bar' ->
  out = [] \/
  (out = [closed_time_bar (_interval this) message (_inProgressBar this)] /\
   ticks (_inProgressBar this) <> 0 /\
   time_bucket (_interval this) (msg_timestamp message)
     > time_bucket (_interval this) (openTimestamp (_inProgressBar this))).
Proof.
  intros Hk [b Hm E1|b Hm _ Hopen Hb|t Hm _ Hopen Hb|t Hm E1 E2|t Hm E1 Hth]; auto.
  destruct Hth as [[Hk' _]|[Hk' _]]; congruence.
Qed.

(** While open, a bar keeps the timestamp of the tick that opened it. *)
Lemma open_bar_from_tick options ms :
  let this := snd (run (new_computable options) ms) in
  ticks (_inProgressBar this) <> 0 ->
  exists t, In (derivative_ticker t) ms /\
    openTimestamp (_inProgressBar this) = DerivativeTicker.timestamp t.
Proof.
  induction ms as [|m ms IH] using rev_ind; [done|].
  rewrite run_app. simpl.
  set (this := snd (run (new_computable options) ms)) in *.
  assert (Hinv : inv this) by apply run_inv, new_computable_inv.
  destruct (compute_cases this m Hinv) as (out & bar' & -> & Hstep). simpl.
  assert (Hold : ticks (_inProgressBar this) <> 0 ->
    exists t, In (derivative_ticker t) (ms ++ [m]) /\
      openTimestamp (_inProgressBar this) = DerivativeTicker.timestamp t).
  { intros H. destruct (IH H) as (t & Hin & Ht). exists t.
    rewrite in_app_iff. auto. }
  destruct Hstep as [b Hm E1|b Hm _ Hopen Hb|t Hm _ Hopen Hb|t Hm E1 E2|t Hm E1 Hth];
    try done; subst m.
  - intros _. exists t. rewrite in_app_iff. simpl. auto.
  - intros _. rewrite update_fields_openTimestamp. case_decide as H0.
    + exists t. rewrite in_app_iff. simpl. auto.
    + by apply Hold.
Qed.

(** The integer model.  A time accumulator with a positive interval stamps
    every bar it emits with [(openBucket + 1) * interval], where [openBucket] is the
    floor of the bar's [openTimestamp] over the interval: the closing boundary
    of the bucket in which the bar was opened.  The bar's [openTimestamp] is
    that of the in-progress bar before the call, which is the exchange
    timestamp of a tick fed earlier; the closing message only has to lie in a
    later bucket, however much later, and its own timestamp is at or after
    the boundary. *)
Lemma time_bar_timestamp_is_bucket_boundary
    (options : DerivativeBarComputableOptions) (ms : list Message)
    (message : Message) (bar : DerivativeBar) :
  opt_kind options = "time" ->
  0 < opt_interval options ->
  let this := snd (run (new_computable options) ms) in
  In bar (fst (compute this message)) ->
  let openBucket := openTimestamp bar / opt_interval options in
  timestamp bar = (openBucket + 1) * opt_interval options /\
  openTimestamp bar = openTimestamp (_inProgressBar this) /\
  (exists t, In (derivative_ticker t) ms /\
     openTimestamp bar = DerivativeTicker.timestamp t) /\
  openBucket < msg_timestamp message / opt_interval options /\
  openTimestamp bar < timestamp bar <= msg_timestamp message.
Proof.
  intros Hk Hi this Hin openBucket.
  assert (Hreach : reachable options this) by (apply reachable_run; eauto).
  destruct (reachable_inv _ _ Hreach) as (Hinv & Hk' & Hi').
  destruct (compute_cases this message Hinv) as (out & bar' & E & Hstep).
  rewrite E in Hin. simpl in Hin.
  assert (Hkt : _kind this = "time") by congruence.
  destruct (time_step_case _ _ _ _ Hkt Hstep) as [->|(-> & Hopen & Hb)]; [done|].
  destruct Hin as [<-|[]]. subst openBucket.
  rewrite closed_time_bar_timestamp, closed_time_bar_openTimestamp, Hi' in *.
  pose proof (bucket_boundary _ _ _ Hi Hb) as Hbound.
  unfold time_bucket in Hb.
  repeat split; try lia.
  by apply open_bar_from_tick.
Qed.

(** Scenario B, with the heartbeat arriving 1440 buckets late: the bar opened
    at 10000 is still stamped 60000. *)
Lemma time_bar_timestamp_is_bucket_boundary_example :
  let options := mkOptions "time" 60000 None in
  let ms := [tick_at 10000 None; heartbeat_at 59999] in
  let message := heartbeat_at 86400000 in
  let this := snd (run (new_computable options) ms) in
  let bar := closed_time_bar 60000 message (_inProgressBar this) in
  In bar (fst (compute this message)) /\
  timestamp bar = 60000 /\ openTimestamp bar = 10000 /\
  timestamp bar <= msg_timestamp message.
Proof.
  intros options ms message this bar.
  assert (Hin : In bar (fst (compute this message))) by (left; reflexivity).
  destruct (time_bar_timestamp_is_bucket_boundary options ms message bar
              eq_refl eq_refl Hin) as (H1 & H2 & _ & _ & H3).
  split; [exact Hin|]. split; [exact H1|]. split; [exact H2|]. apply H3.
Defined.

(** ** Tick bars *)

(** The three ways a call goes for a tick accumulator. *)
Lemma tick_step_case this message out bar' :
  _kind this = "tick" -> 0 < _interval this -> inv this ->
  step_case this message out bar' ->
  (is_heartbeat message /\ out = [] /\ bar' = _inProgressBar this) \/
  (exists t, message = derivative_ticker t /\
     ticks (_inProgressBar this) + 1 < _interval this /\
     out = [] /\ bar' = update_fields t (_inProgressBar this)) \/
  (exists t, message = derivative_ticker t /\
     ticks (_inProgressBar this) + 1 = _interval this /\
     out = [stamp_fields message (update_fields t (_inProgressBar this))] /\
     bar' = reset_fields (_kind this) (_interval this) (_name this)
              (stamp_fields message (update_fields t (_inProgressBar this)))).
Proof.
  intros Hk Hi (Hticks & _ & Htick & _).
  specialize (Htick Hk).
  intros [b Hm E1|b Hm Hk' Hopen Hb|t Hm Hk' Hopen Hb|t Hm E1 E2|t Hm E1 Hth];
    try congruence.
  - left. by subst.
  - right; left. exists t. repeat split; try done.
    apply hasNewBar_false in E2 as [_ E2]. rewrite update_fields_ticks in E2.
    destruct E2 as [E|[[E ?]|[[E ?]|[[? E]|(? & ? & ?)]]]]; try congruence; lia.
  - right; right. exists t. repeat split; try done.
    rewrite update_fields_ticks in Hth.
    destruct Hth as [[E _]|[_ E]]; [congruence|lia].
Qed.

Lemma tick_run_count this ms :
  _kind this = "tick" -> 0 < _interval this -> inv this ->
  Forall (fun bar => ticks bar = _interval this) (fst (run this ms)) /\
  Z.of_nat (length (fst (run this ms)))
    = (ticks (_inProgressBar this) + n_ticks ms) / _interval this /\
  ticks (_inProgressBar (snd (run this ms)))
    = (ticks (_inProgressBar this) + n_ticks ms) mod _interval this.
Proof.
  revert this. induction ms as [|m ms IH]; intros this Hk Hi Hinv.
  - pose proof Hinv as (Hticks & _ & Htick & _). specialize (Htick Hk).
    simpl. rewrite Z.add_0_r.
    rewrite Z.div_small, Z.mod_small by lia. by repeat split.
  - simpl.
    destruct (compute_cases this m Hinv) as (out & bar' & E & Hstep).
    pose proof (step_case_ok _ _ _ _ Hinv Hstep) as Hok.
    rewrite E.
    specialize (IH (with_bar this bar') Hk Hi Hok).
    destruct (run (with_bar this bar') ms) as [outs this2]. simpl in IH |- *.
    destruct IH as (IH1 & IH2 & IH3).
    destruct (tick_step_case _ _ _ _ Hk Hi Hinv Hstep)
      as [(Hm & -> & ->)|[(t & -> & Hlt & -> & ->)|(t & -> & Heq & -> & ->)]].
    + destruct m as [t|b]; [done|]. simpl. by repeat split.
    + simpl in *. rewrite Z.add_assoc. by repeat split.
    + simpl in *. rewrite Z.add_assoc, Heq.
      replace (_interval this + n_ticks ms) with (n_ticks ms + 1 * _interval this) by lia.
      rewrite Z.div_add, Z.mod_add by lia.
      rewrite Z.add_0_l in IH2, IH3.
      repeat split; [constructor; [simpl; lia|done]|lia|done].
Qed.

(** C3. A tick accumulator with a positive integer interval, run from its
    construction over any input: every bar it emits has [ticks] equal to the
    interval; after [n] ticks it has emitted [n / interval] bars and holds
    [n mod interval] ticks; and a bar is yielded by the very call that folds
    in the tick taking the count to the interval, as the only bar of that
    call.  (Interval 3 and five ticks: one bar, of 3 ticks, and 2 ticks left.) *)
Theorem tick_bar_has_exactly_interval_ticks
    (options : DerivativeBarComputableOptions) (ms : list Message) :
  opt_kind options = "tick" ->
  0 < opt_interval options ->
  let this0 := new_computable options in
  Forall (fun bar => ticks bar = opt_interval options) (fst (run this0 ms)) /\
  Z.of_nat (length (fst (run this0 ms))) = n_ticks ms / opt_interval options /\
  ticks (_inProgressBar (snd (run this0 ms))) = n_ticks ms mod opt_interval options /\
  forall ms1 message ms2 bar,
    ms = ms1 ++ message :: ms2 ->
    let this := snd (run this0 ms1) in
    In bar (fst (compute this message)) ->
    exists t, message = derivative_ticker t /\
      ticks (_inProgressBar this) + 1 = opt_interval options /\
      bar = stamp_fields message (update_fields t (_inProgressBar this)) /\
      fst (compute this message) = [bar].
Proof.
  intros Hk Hi this0.
  pose proof (tick_run_count this0 ms Hk Hi (new_computable_inv options))
    as (H1 & H2 & H3).
  split; [exact H1|]. split; [exact H2|]. split; [exact H3|].
  intros ms1 message ms2 bar _ this Hin.
  assert (Hinv : inv this) by apply run_inv, new_computable_inv.
  destruct (run_config this0 ms1) as [Hk1 Hi1]. fold this in Hk1, Hi1.
  assert (Hkt : _kind this = "tick") by (by rewrite Hk1).
  assert (Hit : 0 < _interval this) by (by rewrite Hi1).
  destruct (compute_cases this message Hinv) as (out & bar' & E & Hstep).
  rewrite E in Hin |- *. simpl in Hin |- *.
  destruct (tick_step_case _ _ _ _ Hkt Hit Hinv Hstep)
    as [(Hm & -> & ->)|[(t & -> & Hlt & -> & ->)|(t & -> & Heq & -> & ->)]];
    try done.
  destruct Hin as [<-|[]]. exists t.
  change (opt_interval options) with (_interval this0). by rewrite <- Hi1.
Qed.

(** Scenario A: interval 3, five ticks. *)
Lemma tick_bar_witness :
  let options := mkOptions "tick" 3 None in
  let ms := [tick_at 1 None; tick_at 2 None; tick_at 3 None; tick_at 4 None;
             tick_at 5 None] in
  Forall (fun bar => ticks bar = 3) (fst (run (new_computable options) ms)) /\
  length (fst (run (new_computable options) ms)) = 1%nat /\
  ticks (_inProgressBar (snd (run (new_computable options) ms))) = 2.
Proof.
  intros options ms.
  destruct (tick_bar_has_exactly_interval_ticks options ms eq_refl eq_refl)
    as (H1 & H2 & H3 & _).
  split; [exact H1|]. split; [|exact H3].
  apply Nat2Z.inj. exact H2.
Defined.

(** ** Volume bars *)

Lemma update_fields_openOi t bar :
  openOi (update_fields t bar) =
    if decide (ticks bar = 0) then DerivativeTicker.openInterest t else openOi bar.
Proof. simpl. by case_bool_decide; case_decide. Qed.

Lemma update_fields_closeOi t bar :
  closeOi (update_fields t bar) = DerivativeTicker.openInterest t.
Proof. reflexivity. Qed.

(** The three ways a call goes for a volume accumulator. *)
Lemma volume_step_case this message out bar' :
  _kind this = "volume" -> inv this ->
  step_case this message out bar' ->
  (is_heartbeat message /\ out = [] /\ bar' = _inProgressBar this) \/
  (exists t, message = derivative_ticker t /\
     deltaOi (update_fields t (_inProgressBar this)) < _interval this /\
     out = [] /\ bar' = update_fields t (_inProgressBar this)) \/
  (exists t, message = derivative_ticker t /\
     deltaOi (update_fields t (_inProgressBar this)) >= _interval this /\
     out = [stamp_fields message (update_fields t (_inProgressBar this))] /\
     bar' = reset_fields (_kind this) (_interval this) (_name this)
              (stamp_fields message (update_fields t (_inProgressBar this)))).
Proof.
  intros Hk (Hticks & _ & _ & _).
  intros [b Hm E1|b Hm Hk' Hopen Hb|t Hm Hk' Hopen Hb|t Hm E1 E2|t Hm E1 Hth];
    try congruence.
  - left. by subst.
  - right; left. exists t. repeat split; try done.
    apply hasNewBar_false in E2 as [_ E2]. rewrite update_fields_ticks in E2.
    destruct E2 as [E|[[E ?]|[[? E]|[[E ?]|(? & ? & ?)]]]]; try congruence; lia.
  - right; right. exists t. repeat split; try done.
    destruct Hth as [[_ E]|[E _]]; [done|congruence].
Qed.

Lemma volume_run_deltaOi this ms bar :
  _kind this = "volume" -> inv this ->
  In bar (fst (run this ms)) ->
  deltaOi bar >= _interval this /\
  deltaOi bar = orZero (closeOi bar) - orZero (openOi bar).
Proof.
  intros Hk Hinv Hin.
  destruct (run_in _ _ _ Hin) as (ms1 & m & ms2 & _ & Hin').
  pose proof (run_inv this ms1 Hinv) as Hinv1.
  destruct (run_config this ms1) as [Hk1 Hi1].
  set (this1 := snd (run this ms1)) in *.
  destruct (compute_cases this1 m Hinv1) as (out & bar' & E & Hstep).
  rewrite E in Hin'. simpl in Hin'.
  assert (Hkv : _kind this1 = "volume") by congruence.
  destruct (volume_step_case _ _ _ _ Hkv Hinv1 Hstep)
    as [(Hm & -> & ->)|[(t & -> & Hlt & -> & ->)|(t & -> & Hge & -> & ->)]];
    try done.
  destruct Hin' as [<-|[]]. rewrite <- Hi1. by split.
Qed.

(** Once a bar is open, ticks whose open interest is not above the opening
    one leave [deltaOi] at or below 0, under any positive threshold. *)
Lemma volume_decreasing_quiet this ms :
  _kind this = "volume" -> 0 < _interval this -> inv this ->
  (ticks (_inProgressBar this) = 0 ->
     StronglySorted (fun a b => b <= a) (open_interests ms)) ->
  (ticks (_inProgressBar this) <> 0 ->
     Forall (fun x => x <= orZero (openOi (_inProgressBar this))) (open_interests ms)) ->
  fst (run this ms) = [].
Proof.
  revert this. induction ms as [|m ms IH]; intros this Hk Hi Hinv Hclosed Hopen; [done|].
  simpl.
  destruct (compute_cases this m Hinv) as (out & bar' & E & Hstep).
  pose proof (step_case_ok _ _ _ _ Hinv Hstep) as Hok.
  pose proof Hinv as (Hticks & _ & _ & _).
  rewrite E.
  specialize (IH (with_bar this bar') Hk Hi Hok).
  destruct (run (with_bar this bar') ms) as [outs this2]. simpl in IH |- *.
  destruct (volume_step_case _ _ _ _ Hk Hinv Hstep)
    as [(Hm & -> & ->)|[(t & -> & Hlt & -> & ->)|(t & -> & Hge & -> & ->)]].
  - destruct m as [t|b]; [done|]. simpl in *. by rewrite IH.
  - simpl in Hclosed, Hopen. simpl app. rewrite IH; [done| |].
    + rewrite update_fields_ticks. lia.
    + intros _. rewrite update_fields_openOi. case_decide as H0.
      * specialize (Hclosed H0). by inversion Hclosed.
      * specialize (Hopen H0). by inversion Hopen.
  - exfalso. simpl in Hclosed, Hopen.
    rewrite update_fields_deltaOi, update_fields_openOi, update_fields_closeOi in Hge.
    case_decide as H0; [lia|].
    specialize (Hopen H0). inversion Hopen; subst. lia.
Qed.

(** C4. A volume accumulator with a positive interval, in any state it can
    reach: every bar emitted from there on has [deltaOi >= interval], with
    [deltaOi] the difference of the bar's [closeOi] and [openOi], a missing
    one counted 0; and from an empty in-progress bar, an input whose ticks
    carry decreasing open interest emits no bar at all. *)
Theorem volume_bar_deltaOi_reaches_interval
    (options : DerivativeBarComputableOptions) (this : DerivativeBarComputable)
    (ms : list Message) :
  opt_kind options = "volume" ->
  0 < opt_interval options ->
  reachable options this ->
  (forall bar, In bar (fst (run this ms)) ->
     deltaOi bar >= opt_interval options /\
     deltaOi bar = orZero (closeOi bar) - orZero (openOi bar)) /\
  (ticks (_inProgressBar this) = 0 ->
   decreasing (open_interests ms) ->
   fst (run this ms) = []).
Proof.
  intros Hk Hi Hreach.
  destruct (reachable_inv _ _ Hreach) as (Hinv & Hk' & Hi').
  assert (Hkv : _kind this = "volume") by congruence.
  split.
  - intros bar Hin. rewrite <- Hi'. by apply (volume_run_deltaOi this ms).
  - intros Hticks Hdec. apply volume_decreasing_quiet; try done.
    + by rewrite Hi'.
    + intros _. apply Sorted_StronglySorted; [|done].
      intros x y z ? ?. lia.
Qed.

(** Scenario C (5000 then 6200 closes a bar of delta 1200), and a falling
    open interest that closes nothing. *)
Lemma volume_bar_witness :
  let options := mkOptions "volume" 1000 None in
  let this := new_computable options in
  let rising := [tick_at 1 (Some 5000); heartbeat_at 2; tick_at 3 (Some 6200)] in
  let falling := [tick_at 1 (Some 5000); tick_at 2 (Some 4100); tick_at 3 None] in
  (exists bar, fst (run this rising) = [bar] /\ deltaOi bar = 1200 /\
     deltaOi bar >= 1000) /\
  decreasing (open_interests falling) /\
  fst (run this falling) = [].
Proof.
  intros options this rising falling.
  pose proof (volume_bar_deltaOi_reaches_interval options this rising
                eq_refl eq_refl (reachable_new options)) as [H1 _].
  pose proof (volume_bar_deltaOi_reaches_interval options this falling
                eq_refl eq_refl (reachable_new options)) as [_ H2].
  assert (Hdec : decreasing (open_interests falling)).
  { repeat constructor; simpl; lia. }
  split; [|split; [exact Hdec|exact (H2 eq_refl Hdec)]].
  eexists. split; [reflexivity|]. split; [reflexivity|].
  apply H1. left. reflexivity.
Defined.

(** ** How many bars one call yields *)

Lemma yield_if_new_length this message :
  (length (fst (yield_if_new this message)) <= 1)%nat.
Proof.
  destruct (hasNewBar_fields (_kind this) (_interval this) (msg_timestamp message)
              (_inProgressBar this)) as [[] bar'] eqn:E.
  - by rewrite (yield_if_new_true _ _ _ E).
  - rewrite (yield_if_new_false _ _ _ E). simpl. lia.
Qed.

(** Two guarded yields: never more than two bars, from any state. *)
Lemma compute_at_most_two this message :
  (length (fst (compute this message)) <= 2)%nat.
Proof.
  unfold compute.
  pose proof (yield_if_new_length this message) as H1.
  destruct (yield_if_new this message) as [out1 this1].
  destruct message as [t|b]; [|simpl in *; lia].
  pose proof (yield_if_new_length (_update this1 t) (derivative_ticker t)) as H2.
  destruct (yield_if_new (_update this1 t) (derivative_ticker t)) as [out2 this3].
  simpl in *. rewrite length_app. lia.
Qed.

Lemma step_case_length this message out bar' :
  step_case this message out bar' -> (length out <= 1)%nat.
Proof. destruct 1; simpl; lia. Qed.

Lemma compute_at_most_one this message :
  inv this -> (length (fst (compute this message)) <= 1)%nat.
Proof.
  intros Hinv. destruct (compute_cases this message Hinv) as (out & bar' & -> & Hstep).
  by eapply step_case_length.
Qed.

(** The claim C5 asks for a reachable state of a volume or tick accumulator
    and a message on which one call yields two bars.  There is none: between
    calls an open volume or tick bar is under its threshold, so the check
    before [_update] cannot fire. *)
Lemma no_reachable_state_yields_two_bars :
  ~ exists options this message,
      (opt_kind options = "volume" \/ opt_kind options = "tick") /\
      reachable options this /\
      length (fst (compute this message)) = 2%nat.
Proof.
  intros (options & this & message & _ & Hreach & Hlen).
  destruct (reachable_inv _ _ Hreach) as (Hinv & _).
  pose proof (compute_at_most_one this message Hinv). lia.
Qed.

(** Which bar a call yields: a time accumulator yields the bar as it was
    before the message, closed at its boundary; a volume or tick accumulator
    yields the bar with the tick of the message folded in. *)
Lemma emitted_bar_shape this message bar :
  inv this ->
  In bar (fst (compute this message)) ->
  (_kind this = "time" /\
   bar = closed_time_bar (_interval this) message (_inProgressBar this)) \/
  ((_kind this = "volume" \/ _kind this = "tick") /\
   exists t, message = derivative_ticker t /\
     bar = stamp_fields message (update_fields t (_inProgressBar this))).
Proof.
  intros Hinv Hin.
  destruct (compute_cases this message Hinv) as (out & bar' & E & Hstep).
  rewrite E in Hin. simpl in Hin.
  destruct Hstep as [b Hm E1|b Hm Hk' Hopen Hb|t Hm Hk' Hopen Hb|t Hm E1 E2|t Hm E1 Hth];
    try done; destruct Hin as [<-|[]]; eauto.
  right. split; [tauto|eauto].
Qed.

(** C5, amended.  A call of [compute] has two guarded yields, so it yields at
    most two bars from any state whatever; from every state that an
    accumulator with a positive interval can reach it yields at most one.  A
    bar of a time accumulator comes from the check before the update (it is
    the bar as it was before the message, and the message, if a tick, opens
    the next one); a bar of a volume or tick accumulator comes from the check
    after the update (the message is a tick and is the last one folded into
    the bar). *)
Theorem consume_yields_at_most_one_bar
    (options : DerivativeBarComputableOptions) (this : DerivativeBarComputable)
    (message : Message) :
  0 < opt_interval options ->
  reachable options this ->
  (forall any, (length (fst (compute any message)) <= 2)%nat) /\
  (length (fst (compute this message)) <= 1)%nat /\
  forall bar, In bar (fst (compute this message)) ->
    (opt_kind options = "time" /\
     bar = closed_time_bar (opt_interval options) message (_inProgressBar this)) \/
    ((opt_kind options = "volume" \/ opt_kind options = "tick") /\
     exists t, message = derivative_ticker t /\
       bar = stamp_fields message (update_fields t (_inProgressBar this))).
Proof.
  intros _ Hreach.
  destruct (reachable_inv _ _ Hreach) as (Hinv & Hk & Hi).
  split; [intros any; apply compute_at_most_two|].
  split; [by apply compute_at_most_one|].
  intros bar Hin. rewrite <- Hk, <- Hi. by apply emitted_bar_shape.
Qed.

(** Interval 1: every tick closes a bar, one per call. *)
Lemma consume_yields_at_most_one_bar_witness :
  let options := mkOptions "tick" 1 None in
  let this := snd (compute (new_computable options) (tick_at 1 None)) in
  let message := tick_at 2 None in
  reachable options this /\ (length (fst (compute this message)) <= 1)%nat.
Proof.
  intros options this message.
  assert (Hreach : reachable options this)
    by apply reachable_compute, reachable_new.
  split; [exact Hreach|].
  exact (proj1 (proj2 (consume_yields_at_most_one_bar options this message
                         eq_refl Hreach))).
Defined.

(** Where the bound of two comes from: an in-progress bar already at its
    threshold, which no input produces, is closed before the update, and with
    interval 1 the tick then closes a second bar. *)
Example two_bars_from_an_unreachable_state :
  let this := _update (_update (new_computable (mkOptions "tick" 1 None))
                         (DerivativeTicker.mk "XBTUSD" "bitmex" 1 1 None None None None None None))
                (DerivativeTicker.mk "XBTUSD" "bitmex" 2 2 None None None None None None) in
  ticks (_inProgressBar this) = 2 /\
  map ticks (fst (compute this (tick_at 3 None))) = [2; 1] /\
  ~ reachable (mkOptions "tick" 1 None) this.
Proof.
  intros this. split; [reflexivity|]. split; [reflexivity|].
  intros Hreach. destruct (reachable_inv _ _ Hreach) as ((_ & _ & Htick & _) & _).
  destruct (Htick eq_refl) as [H|H]; simpl in H; lia.
Qed.

(** ** Heartbeats *)

(** C9. On a heartbeat, from any state: if the bucket test does not fire the
    call yields nothing and the accumulator is exactly as before; if it fires
    the call yields one bar, whose accumulated fields (ticks, open and close
    snapshots, [deltaOi], predicted funding rate) are those the in-progress
    bar had before the heartbeat, and leaves the in-progress bar reset, with
    no tick.  [_update] is not run in either case. *)
Theorem heartbeat_only_closes (this : DerivativeBarComputable) (b : BookChange.t) :
  let message := book_change b in
  let new := fst (_hasNewBar this (msg_timestamp message)) in
  (new = false -> compute this message = ([], this)) /\
  (new = true ->
   exists bar,
     compute this message = ([bar], _reset (with_bar this bar)) /\
     same_accumulated bar (_inProgressBar this) /\
     ticks (_inProgressBar (snd (compute this message))) = 0 /\
     _inProgressBar (snd (compute this message))
       = reset_fields (_kind this) (_interval this) (_name this) bar).
Proof.
  intros message new.
  assert (Hnew : new = fst (hasNewBar_fields (_kind this) (_interval this)
                              (msg_timestamp message) (_inProgressBar this)))
    by reflexivity.
  destruct (hasNewBar_fields (_kind this) (_interval this) (msg_timestamp message)
              (_inProgressBar this)) as [[] bar'] eqn:E;
    simpl in Hnew; rewrite Hnew; (split; [intros H|intros H]); try done.
  - unfold compute. rewrite (yield_if_new_true _ _ _ E). simpl.
    eexists. split; [reflexivity|].
    apply hasNewBar_true in E as (_ & [(_ & _ & ->)|[(_ & _ & ->)|(_ & _ & ->)]]);
      by repeat split.
  - unfold compute. by rewrite (yield_if_new_false _ _ _ E).
Qed.

(** A heartbeat inside the bucket leaves the open bar alone; one in a later
    bucket closes it. *)
Lemma heartbeat_only_closes_witness :
  let this := snd (compute (new_computable (mkOptions "time" 60000 None))
                     (tick_at 10000 (Some 5000))) in
  compute this (heartbeat_at 59999) = ([], this) /\
  ticks (_inProgressBar (snd (compute this (heartbeat_at 65000)))) = 0.
Proof.
  intros this. split.
  - exact (proj1 (heartbeat_only_closes this
                    (BookChange.mk "XBTUSD" "bitmex" 59999 60006)) eq_refl).
  - destruct (proj2 (heartbeat_only_closes this
                       (BookChange.mk "XBTUSD" "bitmex" 65000 65007)) eq_refl)
      as (bar & _ & _ & H & _).
    exact H.
Defined.

(** ** The timestamp of volume and tick bars *)

(** C10. From any reachable state, a bar emitted by a volume or tick
    accumulator is emitted on a [DerivativeTicker] message and carries that
    message's exchange timestamp both as [timestamp] and as [closeTimestamp];
    and whenever an emitted bar's [timestamp] differs from the timestamp of
    the message that closed it, the accumulator is of kind time. *)
Theorem threshold_bar_timestamp_is_closing_tick
    (options : DerivativeBarComputableOptions) (this : DerivativeBarComputable)
    (message : Message) (bar : DerivativeBar) :
  reachable options this ->
  In bar (fst (compute this message)) ->
  (opt_kind options = "volume" \/ opt_kind options = "tick" ->
   exists t, message = derivative_ticker t /\
     timestamp bar = DerivativeTicker.timestamp t /\
     closeTimestamp bar = timestamp bar) /\
  (timestamp bar <> msg_timestamp message -> opt_kind options = "time").
Proof.
  intros Hreach Hin.
  destruct (reachable_inv _ _ Hreach) as (Hinv & Hk & Hi).
  rewrite <- Hk.
  destruct (emitted_bar_shape this message bar Hinv Hin)
    as [(Hkt & ->)|(Hkv & t & -> & ->)].
  - split; [|done]. intros [Hk'|Hk']; congruence.
  - split; [by exists t|]. by simpl.
Qed.

Lemma threshold_bar_timestamp_witness :
  let options := mkOptions "volume" 1000 None in
  let this := snd (compute (new_computable options) (tick_at 1 (Some 5000))) in
  let message := tick_at 3 (Some 6200) in
  let bar := stamp_fields message
               (update_fields
                  (DerivativeTicker.mk "XBTUSD" "bitmex" 3 10 (Some 100) (Some 6200)
                     None None None None)
                  (_inProgressBar this)) in
  reachable options this /\ In bar (fst (compute this message)) /\
  timestamp bar = 3 /\ closeTimestamp bar = timestamp bar.
Proof.
  intros options this message bar.
  assert (Hreach : reachable options this)
    by apply reachable_compute, reachable_new.
  assert (Hin : In bar (fst (compute this message))) by (left; reflexivity).
  split; [exact Hreach|]. split; [exact Hin|].
  destruct (proj1 (threshold_bar_timestamp_is_closing_tick options this message bar
                     Hreach Hin) (or_introl eq_refl)) as (t & Ht & H1 & H2).
  split; [reflexivity|exact H2].
Defined.

(** ** Construction *)

Lemma hasNewBar_unrecognized k i timestamp bar :
  ~ recognized k -> hasNewBar_fields k i timestamp bar = (false, bar).
Proof.
  unfold recognized, hasNewBar_fields. intros H.
  repeat case_decide; try done; tauto.
Qed.

Lemma run_unrecognized this ms :
  ~ recognized (_kind this) -> fst (run this ms) = [].
Proof.
  revert this. induction ms as [|m ms IH]; intros this Hk; [done|].
  simpl. unfold compute.
  rewrite (yield_if_new_false this m (_inProgressBar this))
    by (by apply hasNewBar_unrecognized).
  destruct m as [t|b].
  - rewrite (yield_if_new_false (_update this t) (derivative_ticker t)
               (_inProgressBar (_update this t)))
      by (by apply hasNewBar_unrecognized).
    specialize (IH (_update this t) Hk).
    destruct (run (_update this t) ms). by simpl in *.
  - specialize (IH this Hk). destruct (run this ms). by simpl in *.
Qed.

(** The claim C6 has the constructor fail on a non-positive interval and on
    an unrecognized kind.  It does neither. *)
Lemma constructor_accepts_invalid_options :
  ~ forall options,
      opt_interval options <= 0 \/ ~ recognized (opt_kind options) ->
      exists error, constructor options = Throws error.
Proof.
  intros H.
  destruct (H (mkOptions "time" (-60000) None)) as [error Herr].
  - left. simpl. lia.
  - discriminate Herr.
Qed.

(** C6, amended.  The constructor validates nothing: for every interval,
    positive or not, and every kind string, recognized or not, it returns an
    accumulator that holds the interval and the kind as given and an empty
    in-progress bar.  Nothing is rejected later either ([compute] is total);
    an accumulator of unrecognized kind never yields a bar. *)
Theorem constructor_never_rejects (options : DerivativeBarComputableOptions) :
  exists this,
    constructor options = Returns this /\
    _kind this = opt_kind options /\
    _interval this = opt_interval options /\
    ticks (_inProgressBar this) = 0 /\
    (~ recognized (opt_kind options) -> forall ms, fst (run this ms) = []).
Proof.
  eexists. split; [reflexivity|]. repeat split.
  intros Hk ms. by apply run_unrecognized.
Qed.

Lemma constructor_never_rejects_witness :
  let options := mkOptions "range" 0 None in
  ~ recognized (opt_kind options) /\ opt_interval options <= 0 /\
  exists this, constructor options = Returns this /\
    fst (run this [tick_at 1 (Some 5); heartbeat_at 70000; tick_at 80000 (Some 9)]) = [].
Proof.
  intros options.
  assert (Hk : ~ recognized (opt_kind options)).
  { intros [H|[H|H]]; discriminate H. }
  split; [exact Hk|]. split; [simpl; lia|].
  destruct (constructor_never_rejects options) as (this & Hc & _ & _ & _ & Hrun).
  exists this. split; [exact Hc|]. exact (Hrun Hk _).
Defined.

(** ** The order of the emitted bars *)

(** One call, with [P] bounding what was emitted before: a bar it yields is
    stamped between [P] and the timestamp of the message, and the bar left
    open was opened at or after it. *)
Lemma step_case_timestamps this message out bar' P :
  0 < _interval this ->
  step_case this message out bar' ->
  opened_after P (_inProgressBar this) ->
  P <= msg_timestamp message ->
  (out = [] /\ opened_after P bar') \/
  (exists bar, out = [bar] /\ P <= timestamp bar <= msg_timestamp message /\
     localTimestamp bar = Some (msg_localTimestamp message) /\
     opened_after (timestamp bar) bar').
Proof.
  intros Hi Hstep Hopened HP. unfold opened_after in *.
  destruct Hstep as [b Hm E1|b Hm Hk Hopen Hb|t Hm Hk Hopen Hb|t Hm E1 E2|t Hm E1 Hth].
  - by left.
  - right. eexists. split; [reflexivity|].
    rewrite closed_time_bar_timestamp.
    pose proof (bucket_boundary _ _ _ Hi Hb). specialize (Hopened Hopen).
    repeat split; [lia|lia|done].
  - right. eexists. split; [reflexivity|].
    rewrite closed_time_bar_timestamp.
    pose proof (bucket_boundary _ _ _ Hi Hb) as Hbound. specialize (Hopened Hopen).
    repeat split; [lia|lia|].
    intros _. rewrite update_fields_openTimestamp, decide_True by done.
    subst message. simpl in Hbound. lia.
  - left. split; [done|]. intros _.
    rewrite update_fields_openTimestamp. subst message. simpl in HP.
    case_decide; [lia|auto].
  - right. eexists. split; [reflexivity|]. subst message. simpl in *.
    repeat split; [lia|lia|done].
Qed.

Lemma run_timestamps_sorted this ms P :
  inv this -> 0 < _interval this ->
  opened_after P (_inProgressBar this) ->
  Forall (fun ts => P <= ts) (map msg_timestamp ms) ->
  StronglySorted Z.le (map msg_timestamp ms) ->
  Forall (fun ts => P <= ts) (map timestamp (fst (run this ms))) /\
  StronglySorted Z.le (map timestamp (fst (run this ms))) /\
  sublist (map localTimestamp (fst (run this ms)))
    (map (fun m => Some (msg_localTimestamp m)) ms).
Proof.
  revert this P. induction ms as [|m ms IH]; intros this P Hinv Hi Hopened HP Hsorted.
  - simpl. repeat split; constructor.
  - simpl in HP, Hsorted |- *.
    apply Forall_cons in HP as [HPm HP].
    apply StronglySorted_inv in Hsorted as [Hsorted Hm].
    destruct (compute_cases this m Hinv) as (out & bar' & E & Hstep).
    pose proof (step_case_ok _ _ _ _ Hinv Hstep) as Hok.
    rewrite E.
    destruct (step_case_timestamps _ _ _ _ P Hi Hstep Hopened HPm)
      as [(-> & Hopened')|(bar & -> & Hbar & Hlocal & Hopened')].
    + destruct (IH (with_bar this bar') P Hok Hi Hopened' HP Hsorted)
        as (IH1 & IH2 & IH3).
      destruct (run (with_bar this bar') ms) as [outs this2]. simpl in *.
      repeat split; try done. by apply sublist_cons.
    + assert (HP' : Forall (fun ts => timestamp bar <= ts) (map msg_timestamp ms)).
      { eapply Forall_impl; [exact Hm|]. simpl. intros ts Hts. lia. }
      destruct (IH (with_bar this bar') (timestamp bar) Hok Hi Hopened' HP' Hsorted)
        as (IH1 & IH2 & IH3).
      destruct (run (with_bar this bar') ms) as [outs this2]. simpl in *.
      repeat split.
      * constructor; [lia|]. eapply Forall_impl; [exact IH1|]. simpl. intros; lia.
      * by constructor.
      * rewrite Hlocal. by apply sublist_skip.
Qed.

(** C7. For an accumulator of any kind with a positive interval, fed from
    its construction with messages in non-decreasing timestamp order, the
    bars yielded over the successive calls have non-decreasing [timestamp]s;
    and they come in the arrival order of the messages that closed them, each
    message closing at most one bar (the bars' [localTimestamp]s are a
    subsequence of the messages' ones). *)
Theorem bars_in_timestamp_order
    (options : DerivativeBarComputableOptions) (ms : list Message) :
  0 < opt_interval options ->
  Sorted Z.le (map msg_timestamp ms) ->
  let bars := fst (run (new_computable options) ms) in
  Sorted Z.le (map timestamp bars) /\
  sublist (map localTimestamp bars) (map (fun m => Some (msg_localTimestamp m)) ms).
Proof.
  intros Hi Hsorted bars.
  apply Sorted_StronglySorted in Hsorted; [|intros x y z; lia].
  subst bars. destruct ms as [|m ms].
  - simpl. split; constructor.
  - assert (Hopened : opened_after (msg_timestamp m)
                        (_inProgressBar (new_computable options))) by (by intros H).
    assert (Hlow : Forall (fun ts => msg_timestamp m <= ts)
                     (map msg_timestamp (m :: ms))).
    { simpl. constructor; [lia|].
      by apply StronglySorted_inv in Hsorted as [_ Hm]. }
    destruct (run_timestamps_sorted (new_computable options) (m :: ms) (msg_timestamp m)
                (new_computable_inv options) Hi Hopened Hlow Hsorted)
      as (_ & H2 & H3).
    split; [by apply StronglySorted_Sorted|done].
Qed.

Lemma bars_in_timestamp_order_witness :
  let options := mkOptions "time" 60000 None in
  let ms := [tick_at 10000 None; heartbeat_at 65000; tick_at 70000 None;
             tick_at 130000 None] in
  Sorted Z.le (map msg_timestamp ms) /\
  map timestamp (fst (run (new_computable options) ms)) = [60000; 120000] /\
  Sorted Z.le (map timestamp (fst (run (new_computable options) ms))).
Proof.
  intros options ms.
  assert (Hsorted : Sorted Z.le (map msg_timestamp ms)).
  { repeat constructor; simpl; lia. }
  split; [exact Hsorted|]. split; [reflexivity|].
  exact (proj1 (bars_in_timestamp_order options ms eq_refl Hsorted)).
Defined.

(** * Properties of the store model *)

(** ** Every method writes to the in-progress bar only *)

Section StoreFacts.
Variable this : Store.DerivativeBarComputable.
Abbreviation ref := (Store._inProgressBar this).

(** Every method writes to the in-progress bar only. *)
Lemma reset_frame (h : gmap positive DerivativeBar) l :
  l <> ref -> Store._reset this h !! l = h !! l.
Proof. intros Hl. unfold Store._reset. by rewrite lookup_alter_ne. Qed.

Lemma update_frame t (h : gmap positive DerivativeBar) l :
  l <> ref -> Store._update this t h !! l = h !! l.
Proof. intros Hl. unfold Store._update. by rewrite lookup_alter_ne. Qed.

Lemma hasNewBar_frame timestamp (h : gmap positive DerivativeBar) l :
  l <> ref -> snd (Store._hasNewBar this timestamp h) !! l = h !! l.
Proof. intros Hl. unfold Store._hasNewBar. simpl. by rewrite lookup_alter_ne. Qed.

Lemma reset_dom (h : gmap positive DerivativeBar) : dom (Store._reset this h) = dom h.
Proof. unfold Store._reset. apply dom_alter_L. Qed.

Lemma update_dom t (h : gmap positive DerivativeBar) :
  dom (Store._update this t h) = dom h.
Proof. unfold Store._update. apply dom_alter_L. Qed.

Lemma hasNewBar_dom timestamp (h : gmap positive DerivativeBar) :
  dom (snd (Store._hasNewBar this timestamp h)) = dom h.
Proof. unfold Store._hasNewBar. simpl. apply dom_alter_L. Qed.

(** The bar [_computeBar] returns is a new object. *)
Lemma computeBar_fresh message (h : gmap positive DerivativeBar) :
  fst (Store._computeBar this message h) ∉ dom h.
Proof.
  unfold Store._computeBar, Store.spread. simpl.
  rewrite <- (dom_alter_L (stamp_fields message) h ref). apply is_fresh.
Qed.

Lemma computeBar_dom message (h : gmap positive DerivativeBar) :
  dom (snd (Store._computeBar this message h))
    = {[fst (Store._computeBar this message h)]} ∪ dom h.
Proof.
  unfold Store._computeBar, Store.spread. simpl.
  by rewrite reset_dom, dom_insert_L, !dom_alter_L.
Qed.

Lemma computeBar_frame message (h : gmap positive DerivativeBar) l :
  l <> ref -> l ∈ dom h ->
  snd (Store._computeBar this message h) !! l = h !! l.
Proof.
  intros Hl Hdom.
  pose proof (computeBar_fresh message h) as Hfresh.
  unfold Store._computeBar, Store.spread in *. simpl in *.
  rewrite reset_frame by done.
  rewrite lookup_insert_ne by (intros E; apply Hfresh; by rewrite E).
  by rewrite lookup_alter_ne.
Qed.

(** What [_computeBar] returns and leaves, for an in-progress bar [bar0]. *)
Lemma computeBar_spec message (h : gmap positive DerivativeBar) bar0 :
  h !! ref = Some bar0 ->
  let l := fst (Store._computeBar this message h) in
  let h1 := snd (Store._computeBar this message h) in
  l <> ref /\
  h1 !! l = Some (stamp_fields message bar0) /\
  h1 !! ref = Some (reset_fields (Store._kind this) (Store._interval this)
                      (Store._name this) (stamp_fields message bar0)).
Proof.
  intros Hbar l h1.
  pose proof (computeBar_fresh message h) as Hfresh. fold l in Hfresh.
  assert (Hl : l <> ref).
  { intros E. apply Hfresh. rewrite E. apply elem_of_dom. by rewrite Hbar. }
  split; [exact Hl|].
  subst l h1. unfold Store._computeBar, Store.spread in *. cbn [fst snd] in *.
  unfold Store._reset.
  rewrite lookup_alter_ne by done.
  rewrite lookup_alter_eq, lookup_insert_eq, lookup_insert_ne by done.
  rewrite lookup_total_alter_eq, lookup_alter_eq.
  by rewrite Hbar.
Qed.

(** No later call of a method changes an object other than the
    in-progress bar. *)
Lemma later_frame (h h' : gmap positive DerivativeBar) l :
  Store.later this h h' -> l <> ref -> l ∈ dom h -> h' !! l = h !! l.
Proof.
  intros Hlater Hl. induction Hlater as
    [h|h h' _ IH|t h h' _ IH|ts h h' _ IH|m h h' _ IH]; intros Hdom.
  - done.
  - rewrite IH by (by rewrite reset_dom). by apply reset_frame.
  - rewrite IH by (by rewrite update_dom). by apply update_frame.
  - rewrite IH by (by rewrite hasNewBar_dom). by apply hasNewBar_frame.
  - rewrite IH by (rewrite computeBar_dom; set_solver). by apply computeBar_frame.
Qed.

Lemma later_trans (h1 h2 h3 : gmap positive DerivativeBar) :
  Store.later this h1 h2 -> Store.later this h2 h3 -> Store.later this h1 h3.
Proof.
  intros H12 H23. induction H12; [done|..].
  - apply Store.later_reset; auto.
  - eapply Store.later_update; auto.
  - eapply Store.later_hasNewBar; auto.
  - eapply Store.later_computeBar; auto.
Qed.

Lemma yield_if_new_later message (h : gmap positive DerivativeBar) :
  Store.later this h (snd (Store.yield_if_new this message h)).
Proof.
  unfold Store.yield_if_new.
  destruct (Store._hasNewBar this (msg_timestamp message) h) as [new h1] eqn:E.
  apply (Store.later_hasNewBar this (msg_timestamp message)). rewrite E. cbn [snd].
  destruct new.
  - destruct (Store._computeBar this message h1) as [bar h2] eqn:E2. cbn [snd].
    apply (Store.later_computeBar this message). rewrite E2. apply Store.later_refl.
  - apply Store.later_refl.
Qed.

Lemma compute_later message (h : gmap positive DerivativeBar) :
  Store.later this h (snd (Store.compute this message h)).
Proof.
  unfold Store.compute.
  pose proof (yield_if_new_later message h) as H1.
  destruct (Store.yield_if_new this message h) as [out1 h1].
  destruct message as [t|b]; [|exact H1].
  pose proof (yield_if_new_later (derivative_ticker t) (Store._update this t h1)) as H2.
  destruct (Store.yield_if_new this (derivative_ticker t) (Store._update this t h1))
    as [out2 h3].
  simpl in *. eapply later_trans; [exact H1|].
  by eapply Store.later_update.
Qed.

Lemma run_later ms (h : gmap positive DerivativeBar) :
  Store.later this h (snd (Store.run this ms h)).
Proof.
  revert h. induction ms as [|m ms IH]; intros h; simpl; [apply Store.later_refl|].
  pose proof (compute_later m h) as H1.
  destruct (Store.compute this m h) as [out h1].
  specialize (IH h1). destruct (Store.run this ms h1) as [outs h2].
  simpl in *. by eapply later_trans.
Qed.
End StoreFacts.

(** ** The store model against the value model *)

Lemma Forall2_impl_in {A B} (P : A -> Prop) (R R' : A -> B -> Prop) l k :
  Forall P l -> Forall2 R l k ->
  (forall x y, P x -> R x y -> R' x y) ->
  Forall2 R' l k.
Proof.
  intros HP HR Himpl. revert HP.
  induction HR as [|x y l k Hxy _ IH]; intros HP; [constructor|].
  apply Forall_cons in HP as [Hx HP]. constructor; auto.
Qed.

Section Refinement.
Variable this : Store.DerivativeBarComputable.
Abbreviation ref' := (Store._inProgressBar this).

Lemma value_of_lookup (h : gmap positive DerivativeBar) bar :
  h !! ref' = Some bar ->
  value_of this h = mkComputable bar (Store._kind this) (Store._interval this)
                      (Store._name this).
Proof. intros H. unfold value_of. by rewrite (lookup_total_correct _ _ _ H). Qed.

Lemma store_hasNewBar_spec timestamp (h : gmap positive DerivativeBar) bar :
  h !! ref' = Some bar ->
  let r := hasNewBar_fields (Store._kind this) (Store._interval this) timestamp bar in
  fst (Store._hasNewBar this timestamp h) = fst r /\
  snd (Store._hasNewBar this timestamp h) !! ref' = Some (snd r).
Proof.
  intros H r. unfold Store._hasNewBar. cbn [fst snd].
  rewrite (lookup_total_correct _ _ _ H), lookup_alter_eq, H. by split.
Qed.

(** One guarded yield of the store model does what the value model does:
    the same in-progress bar is left, and the references yielded are new
    objects holding the bars that the value model yields. *)
Lemma store_yield_if_new_refines message (h : gmap positive DerivativeBar) bar :
  h !! ref' = Some bar ->
  let res := Store.yield_if_new this message h in
  let res' := yield_if_new (value_of this h) message in
  snd res !! ref' = Some (_inProgressBar (snd res')) /\
  Forall2 (fun l b => snd res !! l = Some b) (fst res) (fst res') /\
  Forall (fun l => (l ∉ dom h) /\ l <> ref') (fst res) /\
  dom h ⊆ dom (snd res).
Proof.
  intros H res res'. subst res res'.
  rewrite (value_of_lookup _ _ H).
  destruct (store_hasNewBar_spec (msg_timestamp message) h bar H) as [Hnew Hbar'].
  pose proof (hasNewBar_dom this (msg_timestamp message) h) as Hdom.
  unfold Store.yield_if_new.
  destruct (Store._hasNewBar this (msg_timestamp message) h) as [new h1].
  cbn [fst snd] in Hnew, Hbar', Hdom.
  destruct (hasNewBar_fields (Store._kind this) (Store._interval this)
              (msg_timestamp message) bar) as [new' bar'] eqn:E.
  cbn [fst snd] in Hnew, Hbar'. subst new'.
  destruct new.
  - rewrite (yield_if_new_true _ _ bar') by exact E.
    destruct (computeBar_spec this message h1 bar' Hbar') as (Hl & Hcopy & Hreset).
    pose proof (computeBar_fresh this message h1) as Hfresh.
    pose proof (computeBar_dom this message h1) as Hdom'.
    destruct (Store._computeBar this message h1) as [l h2].
    cbn [fst snd] in *. rewrite Hdom in Hfresh, Hdom'.
    split; [exact Hreset|]. split; [by repeat constructor|].
    split; [by repeat constructor|].
    rewrite Hdom'. apply union_subseteq_r.
  - rewrite (yield_if_new_false _ _ bar') by exact E.
    apply hasNewBar_false in E as [-> _].
    cbn [fst snd]. split; [exact Hbar'|]. split; [constructor|].
    split; [constructor|]. by rewrite Hdom.
Qed.

Lemma store_update_spec t (h : gmap positive DerivativeBar) bar :
  h !! ref' = Some bar ->
  Store._update this t h !! ref' = Some (update_fields t bar).
Proof. intros H. unfold Store._update. by rewrite lookup_alter_eq, H. Qed.

Lemma store_compute_refines message (h : gmap positive DerivativeBar) bar :
  h !! ref' = Some bar ->
  let res := Store.compute this message h in
  let res' := compute (value_of this h) message in
  snd res !! ref' = Some (_inProgressBar (snd res')) /\
  Forall2 (fun l b => snd res !! l = Some b) (fst res) (fst res') /\
  Forall (fun l => (l ∉ dom h) /\ l <> ref') (fst res) /\
  dom h ⊆ dom (snd res).
Proof.
  intros H res res'. subst res res'.
  unfold Store.compute, compute.
  destruct (store_yield_if_new_refines message h bar H) as (H1 & H2 & H3 & H4).
  destruct (Store.yield_if_new this message h) as [out1 h1].
  destruct (yield_if_new (value_of this h) message) as [bars1 v1] eqn:Ev.
  cbn [fst snd] in H1, H2, H3, H4.
  destruct message as [t|b]; [|done].
  pose proof (store_update_spec t h1 _ H1) as Hu.
  destruct (store_yield_if_new_refines (derivative_ticker t) (Store._update this t h1)
              _ Hu) as (G1 & G2 & G3 & G4).
  pose proof (yield_if_new_later this (derivative_ticker t) (Store._update this t h1))
    as Hlater.
  assert (Hv : value_of this (Store._update this t h1) = _update v1 t).
  { rewrite (value_of_lookup _ _ Hu). unfold _update, with_bar.
    destruct (yield_if_new_config (value_of this h) (derivative_ticker t))
      as (Hk & Hi & Hn).
    rewrite Ev in Hk, Hi, Hn. cbn [snd] in Hk, Hi, Hn.
    rewrite Hk, Hi, Hn. by rewrite (value_of_lookup _ _ H). }
  rewrite Hv in G1, G2.
  destruct (Store.yield_if_new this (derivative_ticker t) (Store._update this t h1))
    as [out2 h3].
  destruct (yield_if_new (_update v1 t) (derivative_ticker t)) as [bars2 v3].
  cbn [fst snd] in *. rewrite update_dom in G3, G4.
  split; [exact G1|]. split; [|split].
  - apply Forall2_app; [|exact G2].
    eapply Forall2_impl_in; [exact H3|exact H2|].
    cbn beta. intros l b [Hl1 Hl2] Hlb.
    rewrite (later_frame this _ _ l Hlater); [|exact Hl2|].
    + rewrite update_frame by exact Hl2. exact Hlb.
    + rewrite update_dom. apply elem_of_dom. by rewrite Hlb.
  - apply Forall_app. split; [exact H3|].
    eapply Forall_impl; [exact G3|]. cbn beta. intros l [Hl1 Hl2].
    split; [set_solver|exact Hl2].
  - set_solver.
Qed.
End Refinement.

Lemma store_constructor_refines options (h : gmap positive DerivativeBar) :
  let this := fst (Store.constructor options h) in
  let h' := snd (Store.constructor options h) in
  (Store._inProgressBar this ∉ dom h) /\
  h' !! Store._inProgressBar this = Some (_inProgressBar (new_computable options)) /\
  value_of this h' = new_computable options /\
  (forall l, l ∈ dom h -> h' !! l = h !! l).
Proof.
  intros this h'.
  assert (Hr : Store._inProgressBar this = fresh (dom h)) by reflexivity.
  assert (Hh : h' = Store._reset this (<[fresh (dom h) := empty_object]> h))
    by reflexivity.
  assert (Hv : mkComputable
                 (reset_fields (Store._kind this) (Store._interval this)
                    (Store._name this) empty_object)
                 (Store._kind this) (Store._interval this) (Store._name this)
               = new_computable options) by reflexivity.
  clearbody this h'. subst h'.
  assert (Hl : fresh (dom h) ∉ dom h) by apply is_fresh.
  assert (Hlook : Store._reset this (<[fresh (dom h) := empty_object]> h)
                    !! Store._inProgressBar this
                  = Some (_inProgressBar (new_computable options))).
  { unfold Store._reset. rewrite Hr, lookup_alter_eq, lookup_insert_eq.
    by rewrite <- Hv. }
  split; [by rewrite Hr|]. split; [exact Hlook|]. split.
  - rewrite (value_of_lookup _ _ _ Hlook). by rewrite <- Hv.
  - intros l' Hl'. unfold Store._reset. rewrite Hr.
    assert (fresh (dom h) <> l') by (intros E; by rewrite E in Hl).
    by rewrite lookup_alter_ne, lookup_insert_ne.
Qed.

Lemma store_run_refines this ms (h : gmap positive DerivativeBar) bar :
  h !! Store._inProgressBar this = Some bar ->
  let res := Store.run this ms h in
  let res' := run (value_of this h) ms in
  snd res !! Store._inProgressBar this = Some (_inProgressBar (snd res')) /\
  Forall2 (fun l b => snd res !! l = Some b) (fst res) (fst res') /\
  Forall (fun l => (l ∉ dom h) /\ l <> Store._inProgressBar this) (fst res) /\
  dom h ⊆ dom (snd res).
Proof.
  revert h bar. induction ms as [|m ms IH]; intros h bar H res res'; subst res res'.
  - simpl. rewrite (lookup_total_correct _ _ _ H).
    split; [done|]. by repeat split; try constructor.
  - simpl.
    destruct (store_compute_refines this m h bar H) as (H1 & H2 & H3 & H4).
    destruct (compute_config (value_of this h) m) as (Hk & Hi & Hn).
    destruct (Store.compute this m h) as [out h1].
    destruct (compute (value_of this h) m) as [bars v1].
    cbn [fst snd] in H1, H2, H3, H4, Hk, Hi, Hn.
    assert (Hv : value_of this h1 = v1).
    { rewrite (value_of_lookup _ _ _ H1). destruct v1. simpl in *. congruence. }
    destruct (IH h1 _ H1) as (G1 & G2 & G3 & G4).
    pose proof (run_later this ms h1) as Hlater.
    rewrite Hv in G1, G2.
    destruct (Store.run this ms h1) as [outs h2].
    destruct (run v1 ms) as [bars' v2].
    cbn [fst snd] in *.
    split; [exact G1|]. split; [|split].
    + apply Forall2_app; [|exact G2].
      eapply Forall2_impl_in; [exact H3|exact H2|].
      cbn beta. intros l b [Hl1 Hl2] Hlb.
      rewrite (later_frame this _ _ l Hlater); [exact Hlb|exact Hl2|].
      apply elem_of_dom. by rewrite Hlb.
    + apply Forall_app. split; [exact H3|].
      eapply Forall_impl; [exact G3|]. cbn beta. intros l [Hl1 Hl2].
      split; [|exact Hl2]. intros Hin. by apply Hl1, H4.
    + by etrans.
Qed.

(** ** An emitted bar is an object of its own *)

(** The store model.  [_computeBar], on an in-progress bar [bar0] and a
    closing message:
    the reference it returns is a new object, distinct from the in-progress
    bar; that object holds [bar0] with [localTimestamp], [symbol] and
    [exchange] taken from the message and every other field as in [bar0];
    the in-progress bar is left reset ([ticks = 0], [deltaOi = 0],
    [openTimestamp] and [closeTimestamp] at [DATE_MIN]); and the emitted
    object reads the same after the reset and after any later calls of the
    methods, so after any later input. *)
Lemma store_emitted_object_is_separate
    (this : Store.DerivativeBarComputable) (message : Message)
    (h h' : gmap positive DerivativeBar) (bar0 : DerivativeBar) (ms : list Message) :
  h !! Store._inProgressBar this = Some bar0 ->
  let l := fst (Store._computeBar this message h) in
  let h1 := snd (Store._computeBar this message h) in
  Store.later this h1 h' ->
  (l ∉ dom h) /\ l <> Store._inProgressBar this /\
  (exists bar, h1 !! l = Some bar /\
     bar = stamp_fields message bar0 /\
     localTimestamp bar = Some (msg_localTimestamp message) /\
     symbol bar = msg_symbol message /\
     exchange bar = msg_exchange message /\
     same_accumulated bar bar0 /\ timestamp bar = timestamp bar0) /\
  (exists reset, h1 !! Store._inProgressBar this = Some reset /\
     ticks reset = 0 /\ deltaOi reset = 0 /\
     openTimestamp reset = DATE_MIN /\ closeTimestamp reset = DATE_MIN) /\
  h' !! l = h1 !! l /\
  snd (Store.run this ms h1) !! l = h1 !! l.
Proof.
  intros Hbar l h1 Hlater.
  destruct (computeBar_spec this message h bar0 Hbar) as (Hl & Hcopy & Hreset).
  fold l h1 in Hl, Hcopy, Hreset.
  assert (Hdom : l ∈ dom h1) by (apply elem_of_dom; by rewrite Hcopy).
  split; [apply computeBar_fresh|]. split; [exact Hl|]. split; [|split; [|split]].
  - exists (stamp_fields message bar0). by repeat split.
  - eexists. split; [exact Hreset|]. by repeat split.
  - by apply (later_frame this).
  - apply (later_frame this); [apply run_later|exact Hl|exact Hdom].
Qed.

(** A tick accumulator of interval 2 with two ticks folded in: the bar is
    emitted, and three more ticks (one more bar) leave the emitted object as
    it was. *)
Lemma store_emitted_object_is_separate_example :
  let this := fst (Store.constructor (mkOptions "tick" 2 None) ∅) in
  let h0 := snd (Store.constructor (mkOptions "tick" 2 None) ∅) in
  let t1 := DerivativeTicker.mk "XBTUSD" "bitmex" 1 8 (Some 100) (Some 5000)
              None None None None in
  let t2 := DerivativeTicker.mk "XBTUSD" "bitmex" 2 9 (Some 101) (Some 5100)
              None None None None in
  let h := Store._update this t2 (Store._update this t1 h0) in
  let message := derivative_ticker t2 in
  let ms := [tick_at 3 None; tick_at 4 None; tick_at 5 None] in
  let l := fst (Store._computeBar this message h) in
  let h1 := snd (Store._computeBar this message h) in
  let h' := snd (Store.run this ms h1) in
  h !! Store._inProgressBar this = Some (h !!! Store._inProgressBar this) /\
  Store.later this h1 h' /\
  l <> Store._inProgressBar this /\
  ticks <$> h1 !! l = Some 2 /\
  ticks <$> h1 !! Store._inProgressBar this = Some 0 /\
  h' !! l = h1 !! l.
Proof.
  intros this h0 t1 t2 h message ms l h1 h'.
  assert (Hbar : h !! Store._inProgressBar this = Some (h !!! Store._inProgressBar this))
    by (vm_compute; reflexivity).
  assert (Hlater : Store.later this h1 h') by apply run_later.
  split; [exact Hbar|]. split; [exact Hlater|].
  destruct (store_emitted_object_is_separate this message h h' _ ms Hbar Hlater)
    as (_ & Hl & (bar & Hcopy & -> & _) & (reset & Hreset & Hticks & _) & Hframe & _).
  split; [exact Hl|]. fold l h1 in Hcopy, Hreset.
  split; [by rewrite Hcopy|]. split; [|exact Hframe].
  rewrite Hreset. simpl. by rewrite Hticks.
Defined.

(** * Further properties *)

(** ** What a bar holds of the ticks folded into it *)

Lemma fold_ticks_snoc ts t bar :
  fold_ticks (ts ++ [t]) bar = update_fields t (fold_ticks ts bar).
Proof. unfold fold_ticks. by rewrite fold_left_app. Qed.

Lemma fold_ticks_ticks ts bar :
  ticks (fold_ticks ts bar) = ticks bar + Z.of_nat (length ts).
Proof.
  induction ts as [|t ts IH] using rev_ind; [simpl; lia|].
  rewrite fold_ticks_snoc, update_fields_ticks, IH, length_app. simpl. lia.
Qed.

(** X1. Folding a non-empty list of ticks into a bar that has none: the count is
    the length of the list, the open snapshot and [openTimestamp] are those of
    the first tick, the close snapshot, [closeTimestamp], [timestamp] and
    predicted funding rate are those of the last one, and [deltaOi] is the
    last open interest less the first, a missing one counted 0. *)
Theorem update_keeps_first_and_last
    (base : DerivativeBar) (first : DerivativeTicker.t)
    (rest : list DerivativeTicker.t) :
  ticks base = 0 ->
  let bar := fold_ticks (first :: rest) base in
  let final := List.last rest first in
  ticks bar = Z.of_nat (length (first :: rest)) /\
  (openLastPrice bar, openOi bar, openFundingRate bar, openIndexPrice bar,
   openMarkPrice bar, openTimestamp bar)
  = (DerivativeTicker.lastPrice first, DerivativeTicker.openInterest first,
     DerivativeTicker.fundingRate first, DerivativeTicker.indexPrice first,
     DerivativeTicker.markPrice first, DerivativeTicker.timestamp first) /\
  (closeLastPrice bar, closeOi bar, closeFundingRate bar, closeIndexPrice bar,
   closeMarkPrice bar, closeTimestamp bar)
  = (DerivativeTicker.lastPrice final, DerivativeTicker.openInterest final,
     DerivativeTicker.fundingRate final, DerivativeTicker.indexPrice final,
     DerivativeTicker.markPrice final, DerivativeTicker.timestamp final) /\
  predictedFundingRate bar = DerivativeTicker.predictedFundingRate final /\
  timestamp bar = DerivativeTicker.timestamp final /\
  deltaOi bar = orZero (DerivativeTicker.openInterest final)
                - orZero (DerivativeTicker.openInterest first).
Proof.
  intros Hbase. induction rest as [|t rest IH] using rev_ind.
  - cbn. rewrite bool_decide_eq_true_2 by done. rewrite Hbase.
    by repeat split.
  - cbn zeta in IH |- *.
    change (first :: rest ++ [t]) with ((first :: rest) ++ [t]).
    rewrite fold_ticks_snoc, last_last.
    pose proof (fold_ticks_ticks (first :: rest) base) as Hn.
    destruct IH as (_ & Hopen & _ & _ & _ & _).
    set (bar := fold_ticks (first :: rest) base) in *.
    assert (Hne : ticks bar <> 0) by (rewrite Hn, Hbase; simpl; lia).
    clearbody bar.
    injection Hopen as H1 H2 H3 H4 H5 H6.
    rewrite update_fields_ticks, Hn, Hbase, !length_app.
    cbn. rewrite bool_decide_eq_false_2 by done.
    rewrite H1, H2, H3, H4, H5, H6.
    repeat split; lia.
Qed.

Lemma update_keeps_first_and_last_witness :
  let first := DerivativeTicker.mk "XBTUSD" "bitmex" 10 11 (Some 100) (Some 5000)
                 (Some 1) None None None in
  let second := DerivativeTicker.mk "XBTUSD" "bitmex" 20 21 (Some 101) None
                  (Some 2) None None (Some 3) in
  let final := DerivativeTicker.mk "XBTUSD" "bitmex" 30 31 None (Some 4200)
                 None None None (Some 4) in
  let base := _inProgressBar (new_computable (mkOptions "time" 60000 None)) in
  let bar := fold_ticks [first; second; final] base in
  ticks base = 0 /\ ticks bar = 3 /\ openTimestamp bar = 10 /\
  closeTimestamp bar = 30 /\ deltaOi bar = -800.
Proof.
  intros first second final base bar.
  assert (Hbase : ticks base = 0) by reflexivity.
  destruct (update_keeps_first_and_last base first [second; final] Hbase)
    as (H1 & H2 & H3 & _ & _ & H4).
  split; [exact Hbase|]. split; [exact H1|].
  split; [exact (f_equal snd H2)|].
  split; [exact (f_equal snd H3)|exact H4].
Defined.

(** ** The bars partition the ticks *)

Lemma same_accumulated_update t bar bar' :
  same_accumulated bar bar' ->
  same_accumulated (update_fields t bar) (update_fields t bar').
Proof.
  intros (H1 & H2 & H3 & H4 & H5).
  injection H4 as A1 A2 A3 A4 A5 A6.
  unfold same_accumulated. simpl.
  rewrite H1, A1, A2, A3, A4, A5, A6. by repeat split.
Qed.

Lemma same_accumulated_reset k i n bar k' i' n' bar' :
  same_accumulated (reset_fields k i n bar) (reset_fields k' i' n' bar').
Proof. by repeat split. Qed.

Lemma same_accumulated_ticks bar ts base :
  ticks base = 0 -> same_accumulated bar (fold_ticks ts base) ->
  ticks bar = Z.of_nat (length ts).
Proof. intros Hb (H & _). rewrite H, fold_ticks_ticks. lia. Qed.

(** One call: the ticks pending in the in-progress bar, with the tick of the
    message if it is one, are split between the bars yielded and the bar
    left. *)
Lemma step_case_partition this message out bar' base pend :
  ticks base = 0 ->
  (forall k i n x, same_accumulated (reset_fields k i n x) base) ->
  step_case this message out bar' ->
  same_accumulated (_inProgressBar this) (fold_ticks pend base) ->
  exists blocks pend',
    Forall2 (fun bar block => block <> [] /\ same_accumulated bar (fold_ticks block base))
      out blocks /\
    same_accumulated bar' (fold_ticks pend' base) /\
    concat blocks ++ pend' = pend ++ tickers [message].
Proof.
  intros Hbase Hreset Hstep Hpend.
  pose proof (same_accumulated_ticks _ _ _ Hbase Hpend) as Hn.
  assert (Hne : ticks (_inProgressBar this) <> 0 -> pend <> []).
  { intros H ->. simpl in Hn. lia. }
  destruct Hstep as [b Hm E1|b Hm Hk Hopen Hb|t Hm Hk Hopen Hb|t Hm E1 E2|t Hm E1 Hth];
    subst message; simpl tickers.
  - exists [], pend. rewrite app_nil_r.
    split; [constructor|]. split; [exact Hpend|done].
  - exists [pend], []. simpl. rewrite !app_nil_r.
    split; [|split; [apply Hreset|done]].
    constructor; [|constructor]. split; [auto|exact Hpend].
  - exists [pend], [t]. simpl. rewrite app_nil_r.
    split; [|split; [|done]].
    + constructor; [|constructor]. split; [auto|exact Hpend].
    + apply same_accumulated_update, Hreset.
  - exists [], (pend ++ [t]). simpl.
    split; [constructor|]. split; [|done].
    rewrite fold_ticks_snoc. by apply same_accumulated_update.
  - exists [pend ++ [t]], []. simpl. rewrite !app_nil_r.
    split; [|split; [apply Hreset|done]].
    constructor; [|constructor]. split; [by destruct pend|].
    rewrite fold_ticks_snoc.
    by apply (same_accumulated_update t) in Hpend.
Qed.

Lemma run_partition this ms base pend :
  ticks base = 0 ->
  (forall k i n x, same_accumulated (reset_fields k i n x) base) ->
  inv this ->
  same_accumulated (_inProgressBar this) (fold_ticks pend base) ->
  exists blocks pend',
    Forall2 (fun bar block => block <> [] /\ same_accumulated bar (fold_ticks block base))
      (fst (run this ms)) blocks /\
    same_accumulated (_inProgressBar (snd (run this ms))) (fold_ticks pend' base) /\
    concat blocks ++ pend' = pend ++ tickers ms.
Proof.
  intros Hbase Hreset. revert this pend.
  induction ms as [|m ms IH]; intros this pend Hinv Hpend.
  - exists [], pend. simpl. rewrite app_nil_r.
    split; [constructor|]. split; [exact Hpend|done].
  - simpl.
    destruct (compute_cases this m Hinv) as (out & bar' & E & Hstep).
    pose proof (step_case_ok _ _ _ _ Hinv Hstep) as Hok.
    destruct (step_case_partition _ _ _ _ base pend Hbase Hreset Hstep Hpend)
      as (blocks1 & pend1 & F1 & P1 & C1).
    rewrite E.
    destruct (IH (with_bar this bar') pend1 Hok P1) as (blocks2 & pend2 & F2 & P2 & C2).
    destruct (run (with_bar this bar') ms) as [outs this2]. simpl in F2, P2 |- *.
    exists (blocks1 ++ blocks2), pend2.
    split; [by apply Forall2_app|]. split; [exact P2|].
    rewrite concat_app, <- app_assoc, C2, app_assoc, C1, <- app_assoc.
    f_equal. by destruct m.
Qed.

(** X2. Over any input, for any kind and interval, the ticks are split in order
    into consecutive non-empty blocks, one per emitted bar, and a rest: each
    emitted bar holds what [_update] accumulates over its block from a bar
    just reset, and the in-progress bar what it accumulates over the rest.
    No tick is left out, folded into two bars, or folded out of order. *)
Theorem bars_partition_the_ticks
    (options : DerivativeBarComputableOptions) (ms : list Message) :
  let base := _inProgressBar (new_computable options) in
  let bars := fst (run (new_computable options) ms) in
  let left := _inProgressBar (snd (run (new_computable options) ms)) in
  exists blocks pending,
    concat blocks ++ pending = tickers ms /\
    Forall2 (fun bar block => block <> [] /\ same_accumulated bar (fold_ticks block base))
      bars blocks /\
    same_accumulated left (fold_ticks pending base).
Proof.
  intros base bars left.
  destruct (run_partition (new_computable options) ms base [])
    as (blocks & pending & F & P & C).
  - reflexivity.
  - intros k i n x. apply same_accumulated_reset.
  - apply new_computable_inv.
  - by repeat split.
  - exists blocks, pending. split; [exact C|]. split; [exact F|exact P].
Qed.

(** ** Time bars cover disjoint buckets *)

Lemma closes_its_bucket_closed i message bar :
  0 < i ->
  openTimestamp bar <= closeTimestamp bar ->
  closeTimestamp bar / i = openTimestamp bar / i ->
  closes_its_bucket i (closed_time_bar i message bar).
Proof.
  intros Hi Hle Hb. unfold closes_its_bucket, in_window.
  rewrite closed_time_bar_timestamp. simpl.
  pose proof (Z.mul_div_le (openTimestamp bar) i Hi).
  pose proof (Z.mul_succ_div_gt (openTimestamp bar) i Hi).
  pose proof (Z.mul_div_le (closeTimestamp bar) i Hi).
  pose proof (Z.mul_succ_div_gt (closeTimestamp bar) i Hi).
  rewrite Hb in *.
  split; [apply Z.mod_mul; lia|]. repeat split; nia.
Qed.

Lemma time_step_case_windows this message out bar' P T :
  _kind this = "time" -> 0 < _interval this ->
  step_case this message out bar' ->
  opened_after P (_inProgressBar this) ->
  open_in_one_bucket (_interval this) T (_inProgressBar this) ->
  P <= T -> T <= msg_timestamp message ->
  open_in_one_bucket (_interval this) (msg_timestamp message) bar' /\
  ((out = [] /\ opened_after P bar') \/
   (exists bar, out = [bar] /\ closes_its_bucket (_interval this) bar /\
      P < timestamp bar <= msg_timestamp message /\
      opened_after (timestamp bar) bar')).
Proof.
  intros Hk Hi Hstep Hopened Hbucket HPT HT.
  unfold opened_after, open_in_one_bucket in *.
  destruct Hstep as [b Hm E1|b Hm _ Hopen Hb|t Hm _ Hopen Hb|t Hm E1 E2|t Hm E1 Hth].
  - split; [|by left]. intros H. specialize (Hbucket H). lia.
  - split; [done|]. right. eexists. split; [reflexivity|].
    destruct (Hbucket Hopen) as [Hle Heq]. specialize (Hopened Hopen).
    pose proof (bucket_boundary _ _ _ Hi Hb) as Hbound.
    split; [apply closes_its_bucket_closed; [done|lia|done]|].
    rewrite closed_time_bar_timestamp. split; [lia|done].
  - subst message. simpl msg_timestamp in *.
    destruct (Hbucket Hopen) as [Hle Heq]. specialize (Hopened Hopen).
    pose proof (bucket_boundary _ _ _ Hi Hb) as Hbound.
    split.
    + intros _. rewrite update_fields_openTimestamp, decide_True by done.
      simpl. split; [lia|done].
    + right. eexists. split; [reflexivity|].
      split; [apply closes_its_bucket_closed; [done|lia|done]|].
      rewrite closed_time_bar_timestamp. split; [lia|].
      intros _. rewrite update_fields_openTimestamp, decide_True by done. lia.
  - subst message. simpl msg_timestamp in *. split.
    + intros _. rewrite update_fields_openTimestamp.
      change (closeTimestamp (update_fields t (_inProgressBar this)))
        with (DerivativeTicker.timestamp t).
      case_decide as H0; [split; [lia|done]|].
      destruct (Hbucket H0) as [Hle Heq].
      apply hasNewBar_false in E1 as [_ E1]. unfold time_bucket in E1.
      pose proof (Z.div_le_mono (openTimestamp (_inProgressBar this))
                    (DerivativeTicker.timestamp t) (_interval this) Hi).
      destruct E1 as [E|[[_ E]|[[E _]|[[E _]|(E & _)]]]]; try congruence.
      split; lia.
    + left. split; [done|]. intros _.
      rewrite update_fields_openTimestamp. case_decide; [lia|auto].
  - destruct Hth as [[E _]|[E _]]; congruence.
Qed.

Lemma time_run_windows this ms P T :
  _kind this = "time" -> 0 < _interval this -> inv this ->
  opened_after P (_inProgressBar this) ->
  open_in_one_bucket (_interval this) T (_inProgressBar this) ->
  P <= T ->
  Forall (fun ts => T <= ts) (map msg_timestamp ms) ->
  StronglySorted Z.le (map msg_timestamp ms) ->
  Forall (closes_its_bucket (_interval this)) (fst (run this ms)) /\
  Forall (fun ts => P < ts) (map timestamp (fst (run this ms))) /\
  StronglySorted Z.lt (map timestamp (fst (run this ms))).
Proof.
  revert this P T.
  induction ms as [|m ms IH]; intros this P T Hk Hi Hinv Hopened Hbucket HPT HT Hsorted.
  - simpl. repeat split; constructor.
  - simpl in HT, Hsorted |- *.
    apply Forall_cons in HT as [HTm HT].
    apply StronglySorted_inv in Hsorted as [Hsorted Hm].
    destruct (compute_cases this m Hinv) as (out & bar' & E & Hstep).
    pose proof (step_case_ok _ _ _ _ Hinv Hstep) as Hok.
    rewrite E.
    destruct (time_step_case_windows _ _ _ _ P T Hk Hi Hstep Hopened Hbucket HPT HTm)
      as [Hbucket' [(-> & Hopened')|(bar & -> & Hbar & Hts & Hopened')]].
    + destruct (IH (with_bar this bar') P (msg_timestamp m) Hk Hi Hok Hopened' Hbucket')
        as (IH1 & IH2 & IH3); [lia|exact Hm|exact Hsorted|].
      by destruct (run (with_bar this bar') ms) as [outs this2].
    + destruct (IH (with_bar this bar') (timestamp bar) (msg_timestamp m)
                  Hk Hi Hok Hopened' Hbucket')
        as (IH1 & IH2 & IH3); [lia|exact Hm|exact Hsorted|].
      destruct (run (with_bar this bar') ms) as [outs this2]. simpl in *.
      split; [by constructor|]. split.
      * constructor; [lia|]. eapply Forall_impl; [exact IH2|]. simpl. intros; lia.
      * by constructor.
Qed.

(** A time accumulator of the integer model with a positive interval, fed
    messages in non-decreasing timestamp order: each emitted bar is stamped
    with a multiple of the interval, and all the ticks folded into it, from
    [openTimestamp] to [closeTimestamp], lie in the interval's worth of
    milliseconds just before that stamp; the stamps strictly increase. *)
Lemma time_run_covers_disjoint_buckets
    (options : DerivativeBarComputableOptions) (ms : list Message) :
  opt_kind options = "time" ->
  0 < opt_interval options ->
  Sorted Z.le (map msg_timestamp ms) ->
  let bars := fst (run (new_computable options) ms) in
  Forall (closes_its_bucket (opt_interval options)) bars /\
  StronglySorted Z.lt (map timestamp bars).
Proof.
  intros Hk Hi Hsorted bars. subst bars.
  apply Sorted_StronglySorted in Hsorted; [|intros x y z; lia].
  destruct ms as [|m ms]; [simpl; split; constructor|].
  assert (Hopened : opened_after (msg_timestamp m)
                      (_inProgressBar (new_computable options))) by (by intros H).
  assert (Hbucket : open_in_one_bucket (opt_interval options) (msg_timestamp m)
                      (_inProgressBar (new_computable options))) by (by intros H).
  assert (Hlow : Forall (fun ts => msg_timestamp m <= ts)
                   (map msg_timestamp (m :: ms))).
  { simpl. constructor; [lia|].
    by apply StronglySorted_inv in Hsorted as [_ Hm]. }
  destruct (time_run_windows (new_computable options) (m :: ms)
              (msg_timestamp m) (msg_timestamp m) Hk Hi
              (new_computable_inv options) Hopened Hbucket (Z.le_refl _)
              Hlow Hsorted) as (H1 & _ & H3).
  by split.
Qed.

(** ** A threshold that is not positive *)

Lemma nonpositive_step_case this message out bar' :
  _kind this = "volume" \/ _kind this = "tick" ->
  _interval this <= 0 ->
  ticks (_inProgressBar this) = 0 ->
  step_case this message out bar' ->
  ticks bar' = 0 /\
  Forall (fun bar => ticks bar = 1) out /\
  Z.of_nat (length out) = n_ticks [message].
Proof.
  intros Hk Hi H0 Hstep.
  destruct Hstep as [b Hm E1|b Hm _ Hopen Hb|t Hm _ Hopen Hb|t Hm E1 E2|t Hm E1 Hth];
    try done; subst message.
  - by repeat split.
  - exfalso. apply hasNewBar_false in E2 as [_ E2].
    rewrite update_fields_ticks, update_fields_deltaOi, update_fields_openOi,
      update_fields_closeOi, decide_True in E2 by done.
    destruct E2 as [E|[[E _]|[[_ E]|[[_ E]|(_ & E1' & E2')]]]];
      [lia| |lia|lia|];
      destruct Hk; congruence.
  - split; [done|]. split; [|done].
    constructor; [|constructor]. simpl. lia.
Qed.

Lemma nonpositive_run this ms :
  _kind this = "volume" \/ _kind this = "tick" ->
  _interval this <= 0 -> inv this ->
  ticks (_inProgressBar this) = 0 ->
  ticks (_inProgressBar (snd (run this ms))) = 0 /\
  Forall (fun bar => ticks bar = 1) (fst (run this ms)) /\
  Z.of_nat (length (fst (run this ms))) = n_ticks ms.
Proof.
  revert this. induction ms as [|m ms IH]; intros this Hk Hi Hinv H0.
  - by repeat split.
  - simpl.
    destruct (compute_cases this m Hinv) as (out & bar' & E & Hstep).
    pose proof (step_case_ok _ _ _ _ Hinv Hstep) as Hok.
    destruct (nonpositive_step_case _ _ _ _ Hk Hi H0 Hstep) as (H1 & H2 & H3).
    rewrite E.
    destruct (IH (with_bar this bar') Hk Hi Hok H1) as (G1 & G2 & G3).
    destruct (run (with_bar this bar') ms) as [outs this2]. simpl in G1, G2, G3 |- *.
    split; [exact G1|]. split; [by apply Forall_app|].
    rewrite length_app, Nat2Z.inj_add, H3, G3. simpl. destruct m; lia.
Qed.

(** X4. With an interval that is zero or negative, a volume or tick accumulator
    closes a bar on every tick: over any input it emits as many bars as there
    are ticks, each of one tick, and holds no tick between calls. *)
Theorem nonpositive_interval_closes_every_tick
    (options : DerivativeBarComputableOptions) (ms : list Message) :
  opt_kind options = "volume" \/ opt_kind options = "tick" ->
  opt_interval options <= 0 ->
  let bars := fst (run (new_computable options) ms) in
  Z.of_nat (length bars) = n_ticks ms /\
  Forall (fun bar => ticks bar = 1) bars /\
  ticks (_inProgressBar (snd (run (new_computable options) ms))) = 0.
Proof.
  intros Hk Hi bars.
  destruct (nonpositive_run (new_computable options) ms Hk Hi
              (new_computable_inv options) eq_refl) as (H1 & H2 & H3).
  by repeat split.
Qed.

Lemma nonpositive_interval_witness :
  let options := mkOptions "volume" 0 None in
  let ms := [tick_at 1 (Some 5000); heartbeat_at 2; tick_at 3 (Some 4000);
             tick_at 4 None] in
  opt_interval options <= 0 /\
  length (fst (run (new_computable options) ms)) = 3%nat.
Proof.
  intros options ms.
  assert (Hi : opt_interval options <= 0) by (simpl; lia).
  split; [exact Hi|].
  apply Nat2Z.inj.
  exact (proj1 (nonpositive_interval_closes_every_tick options ms
                  (or_introl eq_refl) Hi)).
Defined.

(** ** Heartbeats and the threshold kinds *)

Lemma threshold_heartbeat_idle this b :
  _kind this = "volume" \/ _kind this = "tick" -> inv this ->
  compute this (book_change b) = ([], this).
Proof.
  intros Hk Hinv.
  destruct (compute_cases this (book_change b) Hinv) as (out & bar' & -> & Hstep).
  destruct Hstep as [b' Hm E1|b' Hm Hk' Hopen Hb|t Hm _ Hopen Hb|t Hm E1 E2|t Hm E1 Hth];
    try done.
  - by rewrite with_bar_same.
  - destruct Hk; congruence.
Qed.

(** X5. A volume or tick accumulator does nothing on a [book_change] message, in
    any state it can reach: leaving the heartbeats out of an input changes
    neither the bars emitted nor the state reached. *)
Theorem heartbeats_do_not_matter_to_threshold_bars
    (options : DerivativeBarComputableOptions) (this : DerivativeBarComputable)
    (ms : list Message) :
  opt_kind options = "volume" \/ opt_kind options = "tick" ->
  reachable options this ->
  run this ms = run this (without_heartbeats ms).
Proof.
  intros Hk Hreach.
  destruct (reachable_inv _ _ Hreach) as (Hinv & Hk' & _).
  rewrite <- Hk' in Hk. clear Hreach Hk'.
  revert this Hinv Hk. induction ms as [|m ms IH]; intros this Hinv Hk; [done|].
  destruct m as [t|b].
  - simpl.
    pose proof (compute_inv this (derivative_ticker t) Hinv) as Hinv1.
    destruct (compute_config this (derivative_ticker t)) as (Hk1 & _).
    destruct (compute this (derivative_ticker t)) as [out this1].
    simpl in Hinv1, Hk1. rewrite <- Hk1 in Hk. by rewrite (IH this1 Hinv1 Hk).
  - simpl. rewrite (threshold_heartbeat_idle this b Hk Hinv).
    rewrite <- (IH this Hinv Hk). by destruct (run this ms).
Qed.

Lemma heartbeats_do_not_matter_witness :
  let options := mkOptions "tick" 2 None in
  let this := snd (compute (new_computable options) (tick_at 1 None)) in
  let ms := [heartbeat_at 2; tick_at 3 None; heartbeat_at 900000; tick_at 900001 None] in
  reachable options this /\
  run this ms = run this [tick_at 3 None; tick_at 900001 None].
Proof.
  intros options this ms.
  assert (Hreach : reachable options this)
    by apply reachable_compute, reachable_new.
  split; [exact Hreach|].
  exact (heartbeats_do_not_matter_to_threshold_bars options this ms
           (or_intror eq_refl) Hreach).
Defined.

(** ** What identifies an emitted bar *)

Lemma step_case_configured this message out bar' :
  configured this -> step_case this message out bar' ->
  configured (with_bar this bar').
Proof.
  intros Hc Hstep. unfold configured in *.
  by destruct Hstep.
Qed.

Lemma run_configured this ms :
  inv this -> configured this -> configured (snd (run this ms)).
Proof.
  revert this. induction ms as [|m ms IH]; intros this Hinv Hc; [done|].
  simpl.
  destruct (compute_cases this m Hinv) as (out & bar' & E & Hstep).
  pose proof (step_case_ok _ _ _ _ Hinv Hstep) as Hok.
  pose proof (step_case_configured _ _ _ _ Hc Hstep) as Hc'.
  rewrite E. specialize (IH (with_bar this bar') Hok Hc').
  by destruct (run (with_bar this bar') ms).
Qed.

Lemma run_name this ms : _name (snd (run this ms)) = _name this.
Proof.
  revert this. induction ms as [|m ms IH]; intros this; simpl; [done|].
  destruct (compute_config this m) as (_ & _ & Hn).
  destruct (compute this m) as [out this1].
  specialize (IH this1). destruct (run this1 ms). simpl in *. congruence.
Qed.

(** X6. Every bar an accumulator emits is tagged [derivative_bar] and carries the
    kind and the interval of the options and the accumulator's name: the name
    given in the options or, without one and for one of the three kinds and
    an interval whose magnitude is below 2^53 (where a template literal prints
    the number as its decimal digits), [derivative_bar_] followed by the
    interval in decimal and the suffix of the kind ([ms], [vol], [ticks]).
    The bar is yielded by the call of [compute] on one message of the input,
    and its symbol, exchange and local timestamp are those of that message,
    the one that closed it. *)
Theorem emitted_bar_identity
    (options : DerivativeBarComputableOptions) (ms : list Message)
    (bar : DerivativeBar) :
  In bar (fst (run (new_computable options) ms)) ->
  type bar = "derivative_bar" /\
  kind bar = opt_kind options /\
  interval bar = opt_interval options /\
  (forall n, opt_name options = Some n -> name bar = n) /\
  (opt_name options = None -> Z.abs (opt_interval options) < 2 ^ 53 ->
   let digits := string_of_number (opt_interval options) in
   (opt_kind options = "time" -> name bar = "derivative_bar_" +:+ digits +:+ "ms") /\
   (opt_kind options = "volume" -> name bar = "derivative_bar_" +:+ digits +:+ "vol") /\
   (opt_kind options = "tick" -> name bar = "derivative_bar_" +:+ digits +:+ "ticks")) /\
  exists ms1 message ms2,
    ms = ms1 ++ message :: ms2 /\
    In bar (fst (compute (snd (run (new_computable options) ms1)) message)) /\
    symbol bar = msg_symbol message /\
    exchange bar = msg_exchange message /\
    localTimestamp bar = Some (msg_localTimestamp message).
Proof.
  intros Hin.
  destruct (run_in _ _ _ Hin) as (ms1 & message & ms2 & -> & Hin').
  set (this := snd (run (new_computable options) ms1)) in *.
  assert (Hinv : inv this) by apply run_inv, new_computable_inv.
  assert (Hc : configured this).
  { apply run_configured; [apply new_computable_inv|]. unfold configured.
    by destruct options as [k i [n|]]. }
  destruct (run_config (new_computable options) ms1) as [Hk Hi].
  pose proof (run_name (new_computable options) ms1) as Hn.
  fold this in Hk, Hi, Hn.
  destruct Hc as (C1 & C2 & C3 & C4).
  assert (Hfields : type bar = type (_inProgressBar this) /\
                    name bar = name (_inProgressBar this) /\
                    interval bar = interval (_inProgressBar this) /\
                    kind bar = kind (_inProgressBar this) /\
                    symbol bar = msg_symbol message /\
                    exchange bar = msg_exchange message /\
                    localTimestamp bar = Some (msg_localTimestamp message)).
  { destruct (emitted_bar_shape this message bar Hinv Hin')
      as [(_ & ->)|(_ & t & -> & ->)]; by repeat split. }
  destruct Hfields as (F1 & F2 & F3 & F4 & F5 & F6 & F7).
  assert (Hname : name bar = _name (new_computable options)) by congruence.
  split; [by rewrite F1, C1|]. split; [by rewrite F4, C4, Hk|].
  split; [by rewrite F3, C3, Hi|].
  split; [|split].
  - intros n E. rewrite Hname. unfold new_computable. cbn. by rewrite E.
  - intros E _ digits. rewrite Hname. unfold new_computable. cbn. rewrite E.
    unfold default_name.
    split; [|split]; by intros ->.
  - exists ms1, message, ms2. by repeat split.
Qed.

Lemma emitted_bar_identity_witness :
  let options := mkOptions "time" 60000 None in
  let ms := [tick_at 10000 None; heartbeat_at 65000] in
  exists bar,
    In bar (fst (run (new_computable options) ms)) /\
    name bar = "derivative_bar_60000ms" /\ kind bar = "time" /\
    In bar (fst (compute (snd (run (new_computable options) [tick_at 10000 None]))
                   (heartbeat_at 65000))).
Proof.
  intros options ms.
  eexists. assert (Hin : In _ (fst (run (new_computable options) ms)))
    by (left; reflexivity).
  split; [exact Hin|].
  destruct (emitted_bar_identity options ms _ Hin) as (_ & Hk & _ & _ & Hn & _).
  destruct (Hn eq_refl eq_refl) as (Hms & _).
  split; [exact (Hms eq_refl)|]. split; [exact Hk|].
  left. reflexivity.
Defined.

(** ** Accumulators built by the factory are isolated *)

Lemma value_of_same_lookup this (h h' : gmap positive DerivativeBar) :
  h' !! Store._inProgressBar this = h !! Store._inProgressBar this ->
  value_of this h' = value_of this h.
Proof. intros H. unfold value_of. by rewrite !lookup_total_alt, H. Qed.

Lemma store_run_value this ms (h : gmap positive DerivativeBar) bar :
  h !! Store._inProgressBar this = Some bar ->
  value_of this (snd (Store.run this ms h)) = snd (run (value_of this h) ms).
Proof.
  intros H.
  destruct (store_run_refines this ms h bar H) as (H1 & _).
  rewrite (value_of_lookup _ _ _ H1).
  destruct (run_config (value_of this h) ms) as [Hk Hi].
  pose proof (run_name (value_of this h) ms) as Hn.
  destruct (snd (run (value_of this h) ms)). simpl in *. congruence.
Qed.

(** X7. Two accumulators obtained from one factory hold distinct in-progress
    bars.  Feeding the first any input leaves the second as the constructor
    made it, and the first emits exactly the bars a lone accumulator emits;
    the second, fed afterwards, does so too. *)
Theorem factory_instances_are_isolated
    (options : DerivativeBarComputableOptions) (h : gmap positive DerivativeBar)
    (ms ms' : list Message) :
  let a := fst (computeDerivativeBars options h) in
  let h1 := snd (computeDerivativeBars options h) in
  let b := fst (computeDerivativeBars options h1) in
  let h2 := snd (computeDerivativeBars options h1) in
  let h3 := snd (Store.run a ms h2) in
  let h4 := snd (Store.run b ms' h3) in
  Store._inProgressBar a <> Store._inProgressBar b /\
  value_of b h3 = new_computable options /\
  Forall2 (fun l bar => h3 !! l = Some bar)
    (fst (Store.run a ms h2)) (fst (run (new_computable options) ms)) /\
  value_of a h3 = snd (run (new_computable options) ms) /\
  Forall2 (fun l bar => h4 !! l = Some bar)
    (fst (Store.run b ms' h3)) (fst (run (new_computable options) ms')) /\
  value_of a h4 = value_of a h3.
Proof.
  intros a h1 b h2 h3 h4.
  destruct (store_constructor_refines options h) as (A1 & A2 & A3 & A4).
  destruct (store_constructor_refines options h1) as (B1 & B2 & B3 & B4).
  fold (computeDerivativeBars options h) in A1, A2, A3, A4.
  fold (computeDerivativeBars options h1) in B1, B2, B3, B4.
  fold a h1 in A1, A2, A3, A4. fold b h2 in B1, B2, B3, B4.
  assert (Ha1 : Store._inProgressBar a ∈ dom h1)
    by (apply elem_of_dom; by rewrite A2).
  assert (Hab : Store._inProgressBar a <> Store._inProgressBar b)
    by (intros E; apply B1; by rewrite <- E).
  assert (Ha2 : h2 !! Store._inProgressBar a
                = Some (_inProgressBar (new_computable options)))
    by (by rewrite (B4 _ Ha1)).
  assert (Hva : value_of a h2 = new_computable options).
  { rewrite <- A3. apply value_of_same_lookup. by apply B4. }
  assert (Hb3 : h3 !! Store._inProgressBar b = h2 !! Store._inProgressBar b).
  { apply (later_frame a); [apply run_later|by apply not_eq_sym|].
    apply elem_of_dom. by rewrite B2. }
  assert (Hvb : value_of b h3 = new_computable options).
  { rewrite <- B3. by apply value_of_same_lookup. }
  destruct (store_run_refines a ms h2 _ Ha2) as (R1 & R2 & _ & R4).
  rewrite Hva in R1, R2. fold h3 in R1, R2, R4.
  assert (Hb3' : h3 !! Store._inProgressBar b
                 = Some (_inProgressBar (new_computable options)))
    by (by rewrite Hb3).
  destruct (store_run_refines b ms' h3 _ Hb3') as (_ & S2 & _ & _).
  rewrite Hvb in S2. fold h4 in S2.
  split; [exact Hab|]. split; [exact Hvb|]. split; [exact R2|].
  split; [|split; [exact S2|]].
  - rewrite <- Hva. by apply (store_run_value a ms h2 _ Ha2).
  - apply value_of_same_lookup.
    apply (later_frame b); [apply run_later|exact Hab|].
    apply elem_of_dom. by rewrite R1.
Qed.

(** ** The blocks of tick bars and of volume bars *)

(** X8. Tick bars chunk the ticks: with a positive interval, the blocks of ticks
    of the emitted bars, in order, are the consecutive runs of [interval]
    ticks of the input, and fewer than [interval] ticks are pending. *)
Theorem tick_bars_chunk_the_ticks
    (options : DerivativeBarComputableOptions) (ms : list Message) :
  opt_kind options = "tick" ->
  0 < opt_interval options ->
  let base := _inProgressBar (new_computable options) in
  let bars := fst (run (new_computable options) ms) in
  exists blocks pending,
    concat blocks ++ pending = tickers ms /\
    Forall2 (fun bar block => same_accumulated bar (fold_ticks block base)) bars blocks /\
    Forall (fun block => Z.of_nat (length block) = opt_interval options) blocks /\
    0 <= Z.of_nat (length pending) < opt_interval options.
Proof.
  intros Hk Hi base bars.
  destruct (run_partition (new_computable options) ms base [])
    as (blocks & pending & F & P & C).
  - reflexivity.
  - intros k i n x. apply same_accumulated_reset.
  - apply new_computable_inv.
  - by repeat split.
  - destruct (tick_run_count (new_computable options) ms Hk Hi
                (new_computable_inv options)) as (T1 & _ & T3).
    exists blocks, pending. split; [exact C|].
    fold bars in F, T1. split; [|split].
    + eapply Forall2_impl; [exact F|]. by intros bar block [_ H].
    + clear C P T3. induction F as [|bar block bars' blocks' [_ Hb] _ IH];
        [constructor|].
      apply Forall_cons in T1 as [Hbar T1]. constructor; [|by apply IH].
      rewrite <- (same_accumulated_ticks bar block base eq_refl Hb). exact Hbar.
    + rewrite <- (same_accumulated_ticks _ pending base eq_refl P), T3.
      simpl. apply Z.mod_pos_bound. exact Hi.
Qed.

Lemma tick_bars_chunk_the_ticks_witness :
  let options := mkOptions "tick" 2 None in
  let ms := [tick_at 1 None; heartbeat_at 2; tick_at 3 None; tick_at 4 None] in
  exists blocks pending,
    concat blocks ++ pending = tickers ms /\
    Forall (fun block => Z.of_nat (length block) = 2) blocks /\
    0 <= Z.of_nat (length pending) < 2.
Proof.
  intros options ms.
  destruct (tick_bars_chunk_the_ticks options ms eq_refl eq_refl)
    as (blocks & pending & H1 & _ & H3 & H4).
  by exists blocks, pending.
Defined.

Lemma prefix_snoc_inv {A} (p l : list A) x :
  p `prefix_of` l ++ [x] -> p `prefix_of` l \/ p = l ++ [x].
Proof.
  intros [k Hk]. destruct k as [|y k _] using rev_ind.
  - right. by rewrite app_nil_r in Hk.
  - left. rewrite app_assoc in Hk. apply app_inj_tail in Hk as [-> _].
    by exists k.
Qed.

Lemma volume_run_first this ms base pend :
  ticks base = 0 ->
  (forall k i n x, same_accumulated (reset_fields k i n x) base) ->
  _kind this = "volume" -> inv this ->
  same_accumulated (_inProgressBar this) (fold_ticks pend base) ->
  under_threshold (_interval this) base pend ->
  exists blocks pend',
    concat blocks ++ pend' = pend ++ tickers ms /\
    Forall2 (fun bar block => same_accumulated bar (fold_ticks block base))
      (fst (run this ms)) blocks /\
    Forall (reaches_first (_interval this) base) blocks /\
    under_threshold (_interval this) base pend'.
Proof.
  intros Hbase Hreset. revert this pend.
  induction ms as [|m ms IH]; intros this pend Hk Hinv Hpend Hunder.
  - exists [], pend. simpl. rewrite app_nil_r. by repeat split; try constructor.
  - simpl.
    destruct (compute_cases this m Hinv) as (out & bar' & E & Hstep).
    pose proof (step_case_ok _ _ _ _ Hinv Hstep) as Hok.
    rewrite E.
    destruct (volume_step_case _ _ _ _ Hk Hinv Hstep)
      as [(Hm & -> & ->)|[(t & -> & Hlt & -> & ->)|(t & -> & Hge & -> & ->)]].
    + destruct m as [t|b]; [done|].
      destruct (IH (with_bar this (_inProgressBar this)) pend Hk Hok Hpend Hunder)
        as (blocks & pend' & C & F & R & U).
      destruct (run (with_bar this (_inProgressBar this)) ms) as [outs this2].
      by exists blocks, pend'.
    + pose proof (same_accumulated_update t _ _ Hpend) as Hpend'.
      rewrite <- fold_ticks_snoc in Hpend'.
      assert (Hunder' : under_threshold (_interval this) base (pend ++ [t])).
      { intros p Hp Hpre. apply prefix_snoc_inv in Hpre as [Hpre| ->]; [by apply Hunder|].
        destruct Hpend' as (_ & <- & _). exact Hlt. }
      destruct (IH (with_bar this (update_fields t (_inProgressBar this)))
                  (pend ++ [t]) Hk Hok Hpend' Hunder')
        as (blocks & pend' & C & F & R & U).
      destruct (run (with_bar this (update_fields t (_inProgressBar this))) ms)
        as [outs this2].
      exists blocks, pend'. simpl in *. rewrite <- app_assoc in C. by repeat split.
    + pose proof (same_accumulated_update t _ _ Hpend) as Hpend'.
      rewrite <- fold_ticks_snoc in Hpend'.
      set (bar' := reset_fields _ _ _ _) in *.
      assert (Hreset' : same_accumulated bar' (fold_ticks [] base)) by apply Hreset.
      assert (Hunder' : under_threshold (_interval this) base []).
      { intros p Hp Hpre. by apply prefix_nil_inv in Hpre. }
      destruct (IH (with_bar this bar') [] Hk Hok Hreset' Hunder')
        as (blocks & pend' & C & F & R & U).
      destruct (run (with_bar this bar') ms) as [outs this2].
      exists ((pend ++ [t]) :: blocks), pend'. simpl in *.
      split; [by rewrite <- !app_assoc, C|]. split; [|split; [|exact U]].
      * constructor; [exact Hpend'|exact F].
      * constructor; [|exact R]. split.
        -- destruct Hpend' as (_ & <- & _). exact Hge.
        -- intros p Hp Hpre Hne.
           apply prefix_snoc_inv in Hpre as [Hpre|?]; [by apply Hunder|done].
Qed.

(** X9. Volume bars close as soon as the threshold is reached: over any input
    the ticks split, in order, into the blocks of the emitted bars and a
    rest; the open-interest delta accumulated over a block first reaches the
    interval at the block's last tick, and over the rest it has not reached
    it. *)
Theorem volume_bars_close_at_first_reach
    (options : DerivativeBarComputableOptions) (ms : list Message) :
  opt_kind options = "volume" ->
  let base := _inProgressBar (new_computable options) in
  let bars := fst (run (new_computable options) ms) in
  exists blocks pending,
    concat blocks ++ pending = tickers ms /\
    Forall2 (fun bar block => same_accumulated bar (fold_ticks block base)) bars blocks /\
    Forall (reaches_first (opt_interval options) base) blocks /\
    under_threshold (opt_interval options) base pending.
Proof.
  intros Hk base bars.
  destruct (volume_run_first (new_computable options) ms base [])
    as (blocks & pending & C & F & R & U).
  - reflexivity.
  - intros k i n x. apply same_accumulated_reset.
  - exact Hk.
  - apply new_computable_inv.
  - by repeat split.
  - intros p Hp Hpre. by apply prefix_nil_inv in Hpre.
  - by exists blocks, pending.
Qed.

Lemma volume_bars_close_at_first_reach_witness :
  let options := mkOptions "volume" 1000 None in
  let ms := [tick_at 1 (Some 5000); tick_at 2 (Some 5900); tick_at 3 (Some 6200);
             tick_at 4 (Some 6300)] in
  map deltaOi (fst (run (new_computable options) ms)) = [1200] /\
  exists blocks pending,
    concat blocks ++ pending = tickers ms /\
    Forall (reaches_first 1000 (_inProgressBar (new_computable options))) blocks.
Proof.
  intros options ms. split; [reflexivity|].
  destruct (volume_bars_close_at_first_reach options ms eq_refl)
    as (blocks & pending & C & _ & R & _).
  by exists blocks, pending.
Defined.

(** * Fractional intervals *)


(** With a whole number of milliseconds the bucket is that of the integer
    model. *)
Lemma fractional_time_bucket_Z n timestamp :
  Fractional.time_bucket (inject_Z n) timestamp = time_bucket n timestamp.
Proof. unfold Fractional.time_bucket, time_bucket. by rewrite Zdiv_Qdiv. Qed.

Lemma fractional_new_Date_comp v v' :
  (v == v')%Q -> Fractional.new_Date v = Fractional.new_Date v'.
Proof.
  intros H. unfold Fractional.new_Date.
  assert (Hb : Qle_bool 0 v = Qle_bool 0 v') by (by rewrite H).
  by rewrite Hb, (Qfloor_comp _ _ H), (Qceiling_comp _ _ H).
Qed.

Lemma fractional_new_Date_Z z : Fractional.new_Date (inject_Z z) = new_Date z.
Proof.
  unfold Fractional.new_Date, new_Date.
  rewrite Qfloor_Z, Qceiling_Z. by destruct (Qle_bool 0 (inject_Z z)).
Qed.






Lemma fractional_boundary_Z n openBucket :
  ((inject_Z openBucket + 1) * inject_Z n == inject_Z ((openBucket + 1) * n))%Q.
Proof.
  rewrite inject_Z_mult, inject_Z_plus. reflexivity.
Qed.




Example fractional_interval_stamp :
  let options := Fractional.mkOptions "time" (3 # 2) None in
  let bars := fst (Fractional.run (Fractional.new_computable (fun _ => "1.5") options)
                     [Fractional.tick_at 1; Fractional.heartbeat_at 2]) in
  map Generic.timestamp bars = [1] /\ map Generic.openTimestamp bars = [1].
Proof. by split. Qed.

(** ** Whole intervals: the fractional model is the integer model *)

Lemma embed_hasNewBar k i timestamp bar :
  Fractional.hasNewBar_fields k (inject_Z i) timestamp (embed_bar bar) =
    (fst (hasNewBar_fields k i timestamp bar),
     embed_bar (snd (hasNewBar_fields k i timestamp bar))).
Proof.
  unfold Fractional.hasNewBar_fields, hasNewBar_fields.
  rewrite !fractional_time_bucket_Z.
  change (Generic.ticks (embed_bar bar)) with (ticks bar).
  change (Generic.openTimestamp (embed_bar bar)) with (openTimestamp bar).
  change (Generic.deltaOi (embed_bar bar)) with (deltaOi bar).
  assert (Hle : forall d, Qle_bool (inject_Z i) (inject_Z d) = bool_decide (d >= i)).
  { intros d. apply eq_true_iff_eq.
    rewrite Qle_bool_iff, bool_decide_eq_true, <- Zle_Qle. lia. }
  rewrite <- !Hle.
  repeat case_decide; try done; cbn [fst snd].
  rewrite (fractional_new_Date_comp _ _ (fractional_boundary_Z i _)).
  by rewrite fractional_new_Date_Z.
Qed.

Lemma embed_yield_if_new this message :
  Fractional.yield_if_new (embed_computable this) (embed_message message) =
    (map embed_bar (fst (yield_if_new this message)),
     embed_computable (snd (yield_if_new this message))).
Proof.
  unfold Fractional.yield_if_new, yield_if_new, Fractional._hasNewBar, _hasNewBar.
  change (Fractional._kind (embed_computable this)) with (_kind this).
  change (Fractional._interval (embed_computable this)) with (inject_Z (_interval this)).
  change (Fractional._inProgressBar (embed_computable this))
    with (embed_bar (_inProgressBar this)).
  replace (Generic.msg_timestamp (embed_message message)) with (msg_timestamp message)
    by (by destruct message).
  rewrite embed_hasNewBar.
  destruct (hasNewBar_fields (_kind this) (_interval this) (msg_timestamp message)
              (_inProgressBar this)) as [[] bar']; [|done].
  by destruct message.
Qed.

(** A call in the fractional model on a whole interval does what the integer
    model does. *)
Lemma embed_compute this message :
  Fractional.compute (embed_computable this) (embed_message message) =
    (map embed_bar (fst (compute this message)),
     embed_computable (snd (compute this message))).
Proof.
  unfold Fractional.compute, compute.
  rewrite embed_yield_if_new.
  destruct (yield_if_new this message) as [out1 this1]. cbn [fst snd].
  destruct message as [t|b]; [|done]. cbn [embed_message].
  change (Fractional._update (embed_computable this1) (embed_ticker t))
    with (embed_computable (_update this1 t)).
  change (Generic.derivative_ticker (embed_ticker t))
    with (embed_message (derivative_ticker t)).
  rewrite embed_yield_if_new.
  destruct (yield_if_new (_update this1 t) (derivative_ticker t)) as [out2 this3].
  cbn [fst snd]. by rewrite map_app.
Qed.

Lemma embed_run this ms :
  Fractional.run (embed_computable this) (map embed_message ms) =
    (map embed_bar (fst (run this ms)), embed_computable (snd (run this ms))).
Proof.
  revert this. induction ms as [|m ms IH]; intros this; [done|].
  simpl. rewrite embed_compute.
  destruct (compute this m) as [out this1]. cbn [fst snd].
  rewrite IH. destruct (run this1 ms) as [outs this2]. cbn [fst snd].
  by rewrite map_app.
Qed.

(** The constructors agree as soon as the number is printed the same. *)
Lemma embed_new_computable number_to_string options :
  number_to_string (inject_Z (opt_interval options))
    = string_of_number (opt_interval options) ->
  Fractional.new_computable number_to_string
    (Fractional.mkOptions (opt_kind options) (inject_Z (opt_interval options))
       (opt_name options))
  = embed_computable (new_computable options).
Proof.
  intros H. unfold Fractional.new_computable, new_computable, default_name.
  cbn. rewrite H. by destruct (opt_name options).
Qed.

(** * Dates as objects *)

(** ** What the methods write *)

Lemma frame_refl ip h : frame ip h h.
Proof. by split. Qed.

Lemma frame_trans ip h1 h2 h3 : frame ip h1 h2 -> frame ip h2 h3 -> frame ip h1 h3.
Proof.
  intros [Hd1 Hb1] [Hd2 Hb2]. split; [by etrans|].
  intros l bar Hl Hbar. by apply Hb2, Hb1.
Qed.

Lemma objects_new_Date_frame ip v h : frame ip h (snd (Objects.new_Date v h)).
Proof.
  split; [|done]. unfold Objects.new_Date. cbn.
  apply insert_subseteq, not_elem_of_dom, is_fresh.
Qed.

Lemma objects_new_Date_value v h :
  Objects.dates (snd (Objects.new_Date v h)) !! fst (Objects.new_Date v h) = Some v.
Proof. unfold Objects.new_Date. cbn. apply lookup_insert_eq. Qed.

Lemma objects_assign_frame f ip h : frame ip h (Objects.assign f ip h).
Proof.
  split; [done|]. intros l bar Hl Hbar. unfold Objects.assign. cbn.
  by rewrite lookup_alter_ne.
Qed.

Lemma objects_assign_lookup f ip h bar :
  Objects.bars h !! ip = Some bar ->
  Objects.bars (Objects.assign f ip h) !! ip = Some (f bar).
Proof. intros Hbar. unfold Objects.assign. cbn. by rewrite lookup_alter_eq, Hbar. Qed.

Section ObjectsFacts.
Variable this : Objects.DerivativeBarComputable.
Abbreviation ip := (Objects._inProgressBar this).

Lemma objects_reset_frame h : frame ip h (Objects._reset this h).
Proof. apply objects_assign_frame. Qed.

Lemma objects_update_frame t h : frame ip h (Objects._update this t h).
Proof. apply objects_assign_frame. Qed.

Lemma objects_hasNewBar_frame timestamp h :
  frame ip h (snd (Objects._hasNewBar this timestamp h)).
Proof.
  unfold Objects._hasNewBar.
  repeat case_decide; try apply frame_refl.
  destruct (Objects.new_Date _ h) as [d h1] eqn:E. cbn [snd].
  eapply frame_trans; [|apply objects_assign_frame].
  replace h1 with (snd (Objects.new_Date
    ((Objects._getTimeBucket this
        (Generic.openTimestamp (Objects.bars h !!! ip)) h + 1) * Objects._interval this) h))
    by (by rewrite E).
  apply objects_new_Date_frame.
Qed.

(** The bar [_computeBar] returns is a new object. *)
Lemma objects_computeBar_fresh message h :
  fst (Objects._computeBar this message h) ∉ dom (Objects.bars h).
Proof.
  unfold Objects._computeBar, Objects.spread, Objects.assign. cbn.
  rewrite <- (dom_alter_L (Generic.stamp_fields message) (Objects.bars h) ip).
  apply is_fresh.
Qed.

Lemma objects_computeBar_frame message h :
  frame ip h (snd (Objects._computeBar this message h)).
Proof.
  pose proof (objects_computeBar_fresh message h) as Hfresh.
  split; [done|]. intros l bar Hl Hbar.
  unfold Objects._computeBar, Objects.spread, Objects._reset, Objects.assign in *.
  cbn in *.
  rewrite lookup_alter_ne by done.
  rewrite lookup_insert_ne.
  - by rewrite lookup_alter_ne.
  - intros E. apply Hfresh. rewrite E. apply elem_of_dom. by rewrite Hbar.
Qed.

(** What [_computeBar] returns and leaves, for an in-progress bar [bar]:
    the stamped fields in a new object, the in-progress bar reset, and the
    dates as they were. *)
Lemma objects_computeBar_spec message h bar :
  Objects.bars h !! ip = Some bar ->
  let l := fst (Objects._computeBar this message h) in
  let h1 := snd (Objects._computeBar this message h) in
  l <> ip /\
  Objects.bars h1 !! l = Some (Generic.stamp_fields message bar) /\
  Objects.bars h1 !! ip =
    Some (Generic.reset_fields Objects.DATE_MIN (Objects._kind this)
            (Objects._interval this) (Objects._name this)
            (Generic.stamp_fields message bar)) /\
  Objects.dates h1 = Objects.dates h.
Proof.
  intros Hbar l h1.
  pose proof (objects_computeBar_fresh message h) as Hfresh. fold l in Hfresh.
  assert (Hl : l <> ip).
  { intros E. apply Hfresh. rewrite E. apply elem_of_dom. by rewrite Hbar. }
  split; [exact Hl|].
  subst l h1.
  unfold Objects._computeBar, Objects.spread, Objects._reset, Objects.assign in *.
  cbn in *.
  rewrite lookup_alter_ne by done.
  rewrite lookup_alter_eq, lookup_insert_eq, lookup_insert_ne by done.
  rewrite lookup_total_alter_eq, lookup_alter_eq.
  by rewrite Hbar.
Qed.

(** No later call changes a [Date] or a bar other than the in-progress
    bar. *)
Lemma objects_later_frame h h' : Objects.later this h h' -> frame ip h h'.
Proof.
  induction 1 as [h|v h h' _ IH|h h' _ IH|t h h' _ IH|ts h h' _ IH|m h h' _ IH].
  - apply frame_refl.
  - eapply frame_trans; [apply objects_new_Date_frame|exact IH].
  - eapply frame_trans; [apply objects_reset_frame|exact IH].
  - eapply frame_trans; [apply objects_update_frame|exact IH].
  - eapply frame_trans; [apply objects_hasNewBar_frame|exact IH].
  - eapply frame_trans; [apply objects_computeBar_frame|exact IH].
Qed.

Lemma objects_later_trans h1 h2 h3 :
  Objects.later this h1 h2 -> Objects.later this h2 h3 -> Objects.later this h1 h3.
Proof.
  intros H12 H23. induction H12; [done|..].
  - eapply Objects.later_new_Date; auto.
  - apply Objects.later_reset; auto.
  - eapply Objects.later_update; auto.
  - eapply Objects.later_hasNewBar; auto.
  - eapply Objects.later_computeBar; auto.
Qed.

Lemma objects_yield_if_new_later message h :
  Objects.later this h (snd (Objects.yield_if_new this message h)).
Proof.
  unfold Objects.yield_if_new.
  destruct (Objects._hasNewBar this (Generic.msg_timestamp message) h) as [new h1] eqn:E.
  apply (Objects.later_hasNewBar this (Generic.msg_timestamp message)).
  rewrite E. cbn [snd].
  destruct new.
  - destruct (Objects._computeBar this message h1) as [bar h2] eqn:E2. cbn [snd].
    apply (Objects.later_computeBar this message). rewrite E2. apply Objects.later_refl.
  - apply Objects.later_refl.
Qed.

Lemma objects_compute_later message h :
  Objects.later this h (snd (Objects.compute this message h)).
Proof.
  unfold Objects.compute.
  pose proof (objects_yield_if_new_later message h) as H1.
  destruct (Objects.yield_if_new this message h) as [out1 h1].
  destruct message as [t|b]; [|exact H1].
  pose proof (objects_yield_if_new_later (Generic.derivative_ticker t)
                (Objects._update this t h1)) as H2.
  destruct (Objects.yield_if_new this (Generic.derivative_ticker t)
              (Objects._update this t h1)) as [out2 h3].
  simpl in *. eapply objects_later_trans; [exact H1|].
  by eapply Objects.later_update.
Qed.

Lemma objects_deliver_later message h :
  Objects.later this h (snd (Objects.deliver message h)).
Proof.
  unfold Objects.deliver.
  destruct (Objects.new_Date (Generic.msg_timestamp message) h) as [d1 h1] eqn:E1.
  destruct (Objects.new_Date (Generic.msg_localTimestamp message) h1) as [d2 h2] eqn:E2.
  cbn [snd].
  apply (Objects.later_new_Date this (Generic.msg_timestamp message)).
  rewrite E1. cbn [snd].
  apply (Objects.later_new_Date this (Generic.msg_localTimestamp message)).
  rewrite E2. apply Objects.later_refl.
Qed.

Lemma objects_run_later ms h :
  Objects.later this h (snd (Objects.run this ms h)).
Proof.
  revert h. induction ms as [|m ms IH]; intros h; cbn [Objects.run];
    [apply Objects.later_refl|].
  pose proof (objects_deliver_later m h) as H0.
  destruct (Objects.deliver m h) as [m' h0].
  pose proof (objects_compute_later m' h0) as H1.
  destruct (Objects.compute this m' h0) as [out h1].
  specialize (IH h1). destruct (Objects.run this ms h1) as [outs h2].
  cbn [snd] in *. eapply objects_later_trans; [exact H0|].
  by eapply objects_later_trans.
Qed.
End ObjectsFacts.

(** ** What a bar reads as *)

Lemma valueOf_frame ip h h' d :
  frame ip h h' -> d ∈ dom (Objects.dates h) ->
  Objects.valueOf d h' = Objects.valueOf d h.
Proof.
  intros [Hd _] [v Hv]%elem_of_dom. unfold Objects.valueOf.
  rewrite !lookup_total_alt, Hv.
  by rewrite (lookup_weaken _ _ _ _ Hv Hd).
Qed.

(** A bar whose dates are objects of [h] reads the same in every heap that
    has kept the dates of [h]. *)
Lemma snapshot_frame ip h h' bar :
  frame ip h h' -> Objects.bar_dates bar ⊆ dom (Objects.dates h) ->
  snapshot h' bar = snapshot h bar.
Proof.
  intros Hframe Hdates. unfold snapshot.
  assert (Hv : forall d, d ∈ Objects.bar_dates bar ->
            Objects.valueOf d h' = Objects.valueOf d h).
  { intros d Hd. apply (valueOf_frame ip); [done|]. by apply Hdates. }
  unfold Objects.bar_dates in Hv.
  rewrite (Hv (Generic.openTimestamp bar)) by set_solver.
  rewrite (Hv (Generic.closeTimestamp bar)) by set_solver.
  rewrite (Hv (Generic.timestamp bar)) by set_solver.
  f_equal.
  - destruct (Generic.fundingTimestamp bar) as [d|]; [|done]. cbn in *.
    rewrite Hv; [done|set_solver].
  - destruct (Generic.localTimestamp bar) as [d|]; [|done]. cbn in *.
    rewrite Hv; [done|set_solver].
Qed.

Lemma valueOf_lookup h d v :
  Objects.dates h !! d = Some v -> Objects.valueOf d h = v.
Proof. intros H. unfold Objects.valueOf. by rewrite lookup_total_alt, H. Qed.

Lemma message_snapshot_frame ip h h' message :
  frame ip h h' -> message_ok message h ->
  message_snapshot h' message = message_snapshot h message.
Proof.
  intros Hframe [Hts Hlts].
  destruct message as [t|b]; cbn in *; unfold ticker_snapshot;
    by rewrite !(valueOf_frame ip h h') by done.
Qed.

Lemma message_ok_frame ip h h' message :
  frame ip h h' -> message_ok message h -> message_ok message h'.
Proof.
  intros [Hd _] [Hts Hlts].
  split; eapply elem_of_weaken; eauto; by apply subseteq_dom.
Qed.

(** ** The dates a bar refers to, method by method *)

Lemma bar_dates_reset k i n (bar : Objects.Bar) :
  Objects.bar_dates (Generic.reset_fields Objects.DATE_MIN k i n bar)
    ⊆ {[Objects.DATE_MIN]} ∪ Objects.bar_dates bar.
Proof.
  unfold Objects.bar_dates. cbn. intros x.
  rewrite !elem_of_union, !elem_of_singleton. tauto.
Qed.

Lemma bar_dates_update t (bar : Objects.Bar) :
  Objects.bar_dates (Generic.update_fields t bar)
    ⊆ {[Generic.t_timestamp t]} ∪ Objects.bar_dates bar.
Proof.
  unfold Objects.bar_dates. cbn. intros x.
  rewrite !elem_of_union, !elem_of_singleton. case_bool_decide; tauto.
Qed.

Lemma bar_dates_stamp message (bar : Objects.Bar) :
  Objects.bar_dates (Generic.stamp_fields message bar)
    ⊆ {[Generic.msg_localTimestamp message]} ∪ Objects.bar_dates bar.
Proof.
  unfold Objects.bar_dates. cbn. intros x.
  rewrite !elem_of_union, !elem_of_singleton. tauto.
Qed.

Lemma bar_dates_set_timestamp d (bar : Objects.Bar) :
  Objects.bar_dates (Generic.set_timestamp d bar) ⊆ {[d]} ∪ Objects.bar_dates bar.
Proof.
  unfold Objects.bar_dates. cbn. intros x.
  rewrite !elem_of_union, !elem_of_singleton. tauto.
Qed.

(** ** The heaps the class works on *)

Lemma heap_ok_new_Date this v h :
  heap_ok this h -> heap_ok this (snd (Objects.new_Date v h)).
Proof.
  intros [Hmin (bar & Hbar & Hdates)].
  pose proof (objects_new_Date_frame (Objects._inProgressBar this) v h) as [Hd _].
  split; [by apply (lookup_weaken _ _ _ _ Hmin)|].
  exists bar. split; [done|].
  etrans; [exact Hdates|]. by apply subseteq_dom.
Qed.

Lemma heap_ok_assign this f (X : gset Objects.ref) h :
  heap_ok this h ->
  (forall bar, Objects.bar_dates (f bar) ⊆ X ∪ Objects.bar_dates bar) ->
  X ⊆ dom (Objects.dates h) ->
  heap_ok this (Objects.assign f (Objects._inProgressBar this) h).
Proof.
  intros [Hmin (bar & Hbar & Hdates)] Hf HX.
  split; [done|]. exists (f bar).
  split; [by apply objects_assign_lookup|].
  cbn. etrans; [apply Hf|]. by apply union_least.
Qed.

Lemma heap_ok_DATE_MIN this h :
  heap_ok this h -> {[Objects.DATE_MIN]} ⊆ dom (Objects.dates h).
Proof.
  intros [Hmin _]. apply singleton_subseteq_l, elem_of_dom. by rewrite Hmin.
Qed.

Lemma heap_ok_reset this h : heap_ok this h -> heap_ok this (Objects._reset this h).
Proof.
  intros Hok. eapply heap_ok_assign; [done|apply bar_dates_reset|].
  by eapply heap_ok_DATE_MIN.
Qed.

Lemma heap_ok_update this t h :
  heap_ok this h -> Generic.t_timestamp t ∈ dom (Objects.dates h) ->
  heap_ok this (Objects._update this t h).
Proof.
  intros Hok Ht. eapply heap_ok_assign; [done|apply bar_dates_update|].
  by apply singleton_subseteq_l.
Qed.

Lemma heap_ok_read this h :
  heap_ok this h ->
  Objects.bars h !! Objects._inProgressBar this
    = Some (Objects.bars h !!! Objects._inProgressBar this) /\
  Objects.bar_dates (Objects.bars h !!! Objects._inProgressBar this)
    ⊆ dom (Objects.dates h).
Proof.
  intros [_ (bar & Hbar & Hdates)].
  by rewrite lookup_total_alt, Hbar.
Qed.

Lemma emitted_ok_frame this h h' l :
  frame (Objects._inProgressBar this) h h' ->
  emitted_ok this h l -> emitted_ok this h' l /\ read h' l = read h l.
Proof.
  intros Hframe [Hl (bar & Hbar & Hdates)].
  pose proof Hframe as [Hd Hb].
  pose proof (Hb l bar Hl Hbar) as Hbar'.
  split.
  - split; [done|]. exists bar. split; [done|].
    etrans; [exact Hdates|]. by apply subseteq_dom.
  - unfold read. rewrite !lookup_total_alt, Hbar, Hbar'. cbn.
    by apply (snapshot_frame (Objects._inProgressBar this)).
Qed.

(** ** The model with date objects against the value model *)

Lemma snapshot_reset h k i n bar :
  Objects.valueOf Objects.DATE_MIN h = -1 ->
  snapshot h (Generic.reset_fields Objects.DATE_MIN k i n bar)
    = reset_fields k i n (snapshot h bar).
Proof.
  intros H. unfold snapshot, reset_fields. cbn -[Objects.valueOf]. by rewrite H.
Qed.

Lemma snapshot_update h t bar :
  snapshot h (Generic.update_fields t bar)
    = update_fields (ticker_snapshot h t) (snapshot h bar).
Proof. unfold snapshot, update_fields. cbn. by case_bool_decide. Qed.

Lemma snapshot_stamp h message bar :
  snapshot h (Generic.stamp_fields message bar)
    = stamp_fields (message_snapshot h message) (snapshot h bar).
Proof. unfold snapshot, stamp_fields. by destruct message. Qed.

Lemma snapshot_set_timestamp h d bar :
  snapshot h (Generic.set_timestamp d bar)
    = set_timestamp (Objects.valueOf d h) (snapshot h bar).
Proof. done. Qed.

Lemma snapshot_dates h h' bar :
  Objects.dates h' = Objects.dates h -> snapshot h' bar = snapshot h bar.
Proof. intros E. unfold snapshot, Objects.valueOf. by rewrite E. Qed.

Lemma message_snapshot_dates h h' message :
  Objects.dates h' = Objects.dates h ->
  message_snapshot h' message = message_snapshot h message.
Proof.
  intros E. destruct message; cbn; unfold ticker_snapshot, Objects.valueOf;
    by rewrite E.
Qed.

Lemma message_snapshot_timestamp h message :
  msg_timestamp (message_snapshot h message)
    = Objects.valueOf (Generic.msg_timestamp message) h.
Proof. by destruct message. Qed.

Section ObjectsRefinement.
Variable this : Objects.DerivativeBarComputable.
Abbreviation ip' := (Objects._inProgressBar this).

Lemma read_assign f h bar :
  Objects.bars h !! ip' = Some bar ->
  read (Objects.assign f ip' h) ip' = snapshot h (f bar).
Proof.
  intros Hbar. unfold read.
  rewrite lookup_total_alt, (objects_assign_lookup f ip' h bar Hbar). cbn.
  by apply snapshot_dates.
Qed.

Lemma objects_reset_refines h :
  heap_ok this h ->
  objects_value_of this (Objects._reset this h) = _reset (objects_value_of this h).
Proof.
  intros Hok. destruct (heap_ok_read this h Hok) as [Hbar _].
  destruct Hok as [Hmin _].
  unfold objects_value_of, _reset, with_bar, Objects._reset. cbn.
  rewrite (read_assign _ h _ Hbar).
  rewrite snapshot_reset by (by apply valueOf_lookup).
  done.
Qed.

Lemma objects_update_refines t h :
  heap_ok this h ->
  objects_value_of this (Objects._update this t h)
    = _update (objects_value_of this h) (ticker_snapshot h t).
Proof.
  intros Hok. destruct (heap_ok_read this h Hok) as [Hbar _].
  unfold objects_value_of, _update, with_bar, Objects._update. cbn.
  by rewrite (read_assign _ h _ Hbar), snapshot_update.
Qed.

Lemma objects_hasNewBar_refines timestamp h :
  heap_ok this h ->
  let r := Objects._hasNewBar this timestamp h in
  heap_ok this (snd r) /\
  _hasNewBar (objects_value_of this h) (Objects.valueOf timestamp h)
    = (fst r, objects_value_of this (snd r)).
Proof.
  intros Hok. destruct (heap_ok_read this h Hok) as [Hbar Hdates].
  unfold Objects._hasNewBar, _hasNewBar, hasNewBar_fields, objects_value_of, with_bar.
  cbn [_inProgressBar _kind _interval _name].
  change (ticks (read h ip')) with (Generic.ticks (Objects.bars h !!! ip')).
  change (deltaOi (read h ip')) with (Generic.deltaOi (Objects.bars h !!! ip')).
  change (time_bucket (Objects._interval this) (Objects.valueOf timestamp h))
    with (Objects._getTimeBucket this timestamp h).
  change (time_bucket (Objects._interval this) (openTimestamp (read h ip')))
    with (Objects._getTimeBucket this
            (Generic.openTimestamp (Objects.bars h !!! ip')) h).
  set (bar := Objects.bars h !!! ip') in *.
  destruct (decide (Generic.ticks bar = 0)); [done|].
  destruct (decide (Objects._kind this = "time")).
  - destruct (decide (Objects._getTimeBucket this timestamp h
                      > Objects._getTimeBucket this (Generic.openTimestamp bar) h));
      [|done].
    set (v := (Objects._getTimeBucket this (Generic.openTimestamp bar) h + 1)
              * Objects._interval this).
    pose proof (heap_ok_new_Date this v h Hok) as Hok1.
    pose proof (objects_new_Date_frame ip' v h) as Hframe.
    pose proof (objects_new_Date_value v h) as Hv.
    destruct (Objects.new_Date v h) as [d h1] eqn:E. cbn [fst snd] in *.
    assert (Hbar1 : Objects.bars h1 !! ip' = Some bar).
    { unfold Objects.new_Date in E. injection E as _ <-. done. }
    split.
    + eapply heap_ok_assign; [done|apply bar_dates_set_timestamp|].
      apply singleton_subseteq_l, elem_of_dom. by rewrite Hv.
    + f_equal. f_equal.
      rewrite (read_assign _ h1 _ Hbar1), snapshot_set_timestamp.
      rewrite (valueOf_lookup _ _ _ Hv).
      by rewrite (snapshot_frame ip' h h1).
  - destruct (decide (Objects._kind this = "volume")); [done|].
    by destruct (decide (Objects._kind this = "tick")).
Qed.

Lemma objects_computeBar_refines message h :
  heap_ok this h -> message_ok message h ->
  let r := Objects._computeBar this message h in
  heap_ok this (snd r) /\ emitted_ok this (snd r) (fst r) /\
  _computeBar (objects_value_of this h) (message_snapshot h message)
    = (read (snd r) (fst r), objects_value_of this (snd r)).
Proof.
  intros Hok [_ Hlts]. destruct (heap_ok_read this h Hok) as [Hbar Hdates].
  destruct (objects_computeBar_spec this message h _ Hbar)
    as (Hl & Hcopy & Hreset & Hd).
  cbn zeta.
  set (bar := Objects.bars h !!! ip') in *.
  set (l := fst (Objects._computeBar this message h)) in *.
  set (h1 := snd (Objects._computeBar this message h)) in *.
  assert (Hstamp : Objects.bar_dates (Generic.stamp_fields message bar)
                     ⊆ dom (Objects.dates h)).
  { etrans; [apply bar_dates_stamp|].
    apply union_least; [by apply singleton_subseteq_l|done]. }
  destruct Hok as [Hmin _].
  assert (Hmin' : {[Objects.DATE_MIN]} ⊆ dom (Objects.dates h)).
  { apply singleton_subseteq_l, elem_of_dom. by rewrite Hmin. }
  split; [|split].
  - split; [by rewrite Hd|]. eexists. split; [exact Hreset|].
    rewrite Hd. etrans; [apply bar_dates_reset|]. by apply union_least.
  - split; [done|]. eexists. split; [exact Hcopy|]. by rewrite Hd.
  - unfold _computeBar, _reset, with_bar, objects_value_of, read.
    cbn [_inProgressBar _kind _interval _name].
    rewrite !lookup_total_alt, Hcopy, Hreset, Hbar. cbn [default from_option]. unfold id.
    rewrite !(snapshot_dates h h1) by done.
    rewrite snapshot_reset by (by apply valueOf_lookup).
    by rewrite snapshot_stamp.
Qed.

Lemma objects_yield_if_new_refines message h :
  heap_ok this h -> message_ok message h ->
  let r := Objects.yield_if_new this message h in
  heap_ok this (snd r) /\ Forall (emitted_ok this (snd r)) (fst r) /\
  yield_if_new (objects_value_of this h) (message_snapshot h message)
    = (map (read (snd r)) (fst r), objects_value_of this (snd r)).
Proof.
  intros Hok Hm. unfold Objects.yield_if_new, yield_if_new.
  rewrite message_snapshot_timestamp.
  destruct (objects_hasNewBar_refines (Generic.msg_timestamp message) h Hok)
    as [Hok1 ->].
  pose proof (objects_hasNewBar_frame this (Generic.msg_timestamp message) h) as Hframe.
  destruct (Objects._hasNewBar this (Generic.msg_timestamp message) h) as [new h1].
  cbn [fst snd] in *.
  destruct new; [|split; [done|]; split; [constructor|done]].
  pose proof (message_ok_frame ip' h h1 message Hframe Hm) as Hm1.
  rewrite <- (message_snapshot_frame ip' h h1 message Hframe Hm).
  destruct (objects_computeBar_refines message h1 Hok1 Hm1) as (Hok2 & Hout & ->).
  destruct (Objects._computeBar this message h1) as [l h2]. cbn [fst snd] in *.
  split; [done|]. split; [|done]. by apply Forall_singleton.
Qed.

Lemma objects_compute_refines message h :
  heap_ok this h -> message_ok message h ->
  let r := Objects.compute this message h in
  heap_ok this (snd r) /\ Forall (emitted_ok this (snd r)) (fst r) /\
  compute (objects_value_of this h) (message_snapshot h message)
    = (map (read (snd r)) (fst r), objects_value_of this (snd r)).
Proof.
  intros Hok Hm. unfold Objects.compute, compute.
  destruct (objects_yield_if_new_refines message h Hok Hm) as (Hok1 & Hout1 & ->).
  pose proof (objects_later_frame this _ _ (objects_yield_if_new_later this message h))
    as Hframe1.
  destruct (Objects.yield_if_new this message h) as [out1 h1]. cbn [fst snd] in *.
  destruct message as [t|b]; [|done]. cbn [message_snapshot].
  pose proof (message_ok_frame ip' h h1 _ Hframe1 Hm) as Hm1.
  assert (Hok2 : heap_ok this (Objects._update this t h1)).
  { apply heap_ok_update; [done|]. by destruct Hm1. }
  assert (Hm2 : message_ok (Generic.derivative_ticker t) (Objects._update this t h1))
    by done.
  pose proof (message_snapshot_frame ip' h h1 _ Hframe1 Hm) as Esnap.
  cbn [message_snapshot] in Esnap.
  assert (Et : ticker_snapshot h1 t = ticker_snapshot h t) by congruence.
  rewrite <- Et, <- objects_update_refines by done.
  change (derivative_ticker (ticker_snapshot h1 t))
    with (message_snapshot (Objects._update this t h1) (Generic.derivative_ticker t)).
  destruct (objects_yield_if_new_refines (Generic.derivative_ticker t)
              (Objects._update this t h1) Hok2 Hm2) as (Hok3 & Hout2 & ->).
  pose proof (objects_later_frame this _ _
                (objects_yield_if_new_later this (Generic.derivative_ticker t)
                   (Objects._update this t h1))) as Hframe3.
  destruct (Objects.yield_if_new this (Generic.derivative_ticker t)
              (Objects._update this t h1)) as [out2 h3]. cbn [fst snd] in *.
  assert (Hframe13 : frame ip' h1 h3).
  { eapply frame_trans; [apply objects_update_frame|exact Hframe3]. }
  split; [done|]. split.
  - apply Forall_app. split; [|done].
    eapply Forall_impl; [exact Hout1|].
    intros l Hl. by apply (emitted_ok_frame this h1 h3).
  - f_equal. rewrite map_app. f_equal.
    apply Forall_fmap_ext_1. eapply Forall_impl; [exact Hout1|].
    intros l Hl. symmetry. by apply (emitted_ok_frame this h1 h3).
Qed.

Lemma objects_deliver_bars message h :
  Objects.bars (snd (Objects.deliver message h)) = Objects.bars h.
Proof. by destruct message. Qed.

Lemma objects_deliver_spec message h :
  heap_ok this h ->
  let r := Objects.deliver (embed_message message) h in
  heap_ok this (snd r) /\ message_ok (fst r) (snd r) /\
  message_snapshot (snd r) (fst r) = message.
Proof.
  intros Hok. unfold Objects.deliver.
  set (ts := Generic.msg_timestamp (embed_message message)).
  set (lts := Generic.msg_localTimestamp (embed_message message)).
  pose proof (heap_ok_new_Date this ts h Hok) as Hok1.
  pose proof (objects_new_Date_value ts h) as Hv1.
  destruct (Objects.new_Date ts h) as [d1 h1]. cbn [fst snd] in *.
  pose proof (heap_ok_new_Date this lts h1 Hok1) as Hok2.
  pose proof (objects_new_Date_value lts h1) as Hv2.
  pose proof (objects_new_Date_frame ip' lts h1) as [Hd _].
  destruct (Objects.new_Date lts h1) as [d2 h2]. cbn [fst snd] in *.
  pose proof (lookup_weaken _ _ _ _ Hv1 Hd) as Hv1'.
  split; [done|]. split.
  - split; apply elem_of_dom; destruct message; cbn; by eexists.
  - destruct message as [[]|[]]; cbn -[Objects.valueOf]; unfold ticker_snapshot;
      cbn -[Objects.valueOf];
      by rewrite (valueOf_lookup _ _ _ Hv1'), (valueOf_lookup _ _ _ Hv2).
Qed.

(** A run of the model with date objects emits, bar by bar, what the run
    of the value model emits. *)
Lemma objects_run_refines ms h :
  heap_ok this h ->
  let r := Objects.run this (map embed_message ms) h in
  heap_ok this (snd r) /\ Forall (emitted_ok this (snd r)) (fst r) /\
  run (objects_value_of this h) ms
    = (map (read (snd r)) (fst r), objects_value_of this (snd r)).
Proof.
  revert h. induction ms as [|m ms IH]; intros h Hok.
  { split; [done|]. split; [constructor|done]. }
  cbn [map Objects.run run].
  destruct (objects_deliver_spec m h Hok) as (Hok0 & Hm0 & Em).
  pose proof (objects_deliver_bars (embed_message m) h) as Hbars.
  pose proof (objects_later_frame this _ _
                (objects_deliver_later this (embed_message m) h)) as Hframe0.
  destruct (Objects.deliver (embed_message m) h) as [m' h0]. cbn [fst snd] in *.
  assert (Ev : objects_value_of this h0 = objects_value_of this h).
  { destruct (heap_ok_read this h Hok) as [Hbar Hdates].
    unfold objects_value_of, read. rewrite Hbars. f_equal.
    by apply (snapshot_frame ip' h h0). }
  destruct (objects_compute_refines m' h0 Hok0 Hm0) as (Hok1 & Hout1 & Ec).
  rewrite Em, Ev in Ec. rewrite Ec.
  destruct (Objects.compute this m' h0) as [out h1]. cbn [fst snd] in *.
  destruct (IH h1 Hok1) as (Hok2 & Houts & ->).
  pose proof (objects_later_frame this _ _
                (objects_run_later this (map embed_message ms) h1)) as Hframe.
  destruct (Objects.run this (map embed_message ms) h1) as [outs h2].
  cbn [fst snd] in *.
  split; [done|]. split.
  - apply Forall_app. split; [|done].
    eapply Forall_impl; [exact Hout1|].
    intros l Hl. by apply (emitted_ok_frame this h1 h2).
  - f_equal. rewrite map_app. f_equal.
    apply Forall_fmap_ext_1. eapply Forall_impl; [exact Hout1|].
    intros l Hl. symmetry. by apply (emitted_ok_frame this h1 h2).
Qed.
End ObjectsRefinement.

Lemma bar_dates_empty i d :
  Objects.bar_dates (Generic.empty_object i d) ⊆ {[d]}.
Proof.
  unfold Objects.bar_dates. cbn. intros x.
  rewrite !elem_of_union, !elem_of_singleton, elem_of_empty. tauto.
Qed.

Lemma objects_constructor_refines options h :
  Objects.dates h !! Objects.DATE_MIN = Some (-1) ->
  let this := fst (Objects.constructor options h) in
  let h0 := snd (Objects.constructor options h) in
  heap_ok this h0 /\ objects_value_of this h0 = new_computable options.
Proof.
  intros Hmin. unfold Objects.constructor. cbn zeta. cbn [fst snd].
  set (n := match opt_name options with
            | Some n => n
            | None => default_name (opt_kind options) (opt_interval options)
            end).
  set (l := fresh (dom (Objects.bars h))).
  set (this := Objects.mk l (opt_kind options) (opt_interval options) n).
  set (h' := Objects.mkHeap (Objects.dates h)
               (<[l := Generic.empty_object (opt_interval options) Objects.DATE_MIN]>
                  (Objects.bars h))).
  assert (Hok : heap_ok this h').
  { split; [done|]. eexists. split; [apply lookup_insert_eq|].
    etrans; [apply bar_dates_empty|].
    apply singleton_subseteq_l, elem_of_dom. by exists (-1). }
  split; [by apply heap_ok_reset|].
  rewrite objects_reset_refines by done.
  unfold objects_value_of, new_computable, _reset, with_bar, read. cbn.
  by rewrite lookup_total_insert_eq.
Qed.

(** From the heap of the loaded module: the bars the model with date
    objects emits read, in the final heap, as the bars of the value
    model. *)
Lemma objects_refines options ms :
  let this := fst (Objects.constructor options Objects.module_heap) in
  let h0 := snd (Objects.constructor options Objects.module_heap) in
  let r := Objects.run this (map embed_message ms) h0 in
  map (read (snd r)) (fst r) = fst (run (new_computable options) ms).
Proof.
  intros this h0 r.
  destruct (objects_constructor_refines options Objects.module_heap) as [Hok Ev];
    [done|].
  destruct (objects_run_refines this ms h0 Hok) as (_ & _ & E).
  fold this h0 in Ev. rewrite Ev in E. by rewrite E.
Qed.

(** ** An emitted bar is a shallow copy *)

(** C8, amended.  [_computeBar], on a heap the class works on and a closing
    message whose dates are objects: the reference it returns is a new
    object, distinct from the in-progress bar; that object holds the fields
    of the in-progress bar with [localTimestamp], [symbol] and [exchange]
    taken from the message, a date field holding the reference it held in
    the in-progress bar; the in-progress bar is left reset ([ticks = 0],
    [deltaOi = 0], [openTimestamp] and [closeTimestamp] the object
    [DATE_MIN], whose time value is -1), except that its [localTimestamp]
    still refers to the date of the message, the one the emitted bar refers
    to; the emission makes and changes no [Date]; and after the reset, after
    any later calls of the methods and after any later input, the emitted
    object holds the same fields and reads the same. *)
Theorem emitted_bar_is_a_shallow_copy
    (this : Objects.DerivativeBarComputable) (message : Objects.Message)
    (h : Objects.Heap) :
  heap_ok this h -> message_ok message h ->
  let ip := Objects._inProgressBar this in
  let bar0 := Objects.bars h !!! ip in
  let l := fst (Objects._computeBar this message h) in
  let h1 := snd (Objects._computeBar this message h) in
  (l ∉ dom (Objects.bars h)) /\ l <> ip /\
  (exists bar, Objects.bars h1 !! l = Some bar /\
     bar = Generic.stamp_fields message bar0 /\
     Generic.localTimestamp bar = Some (Generic.msg_localTimestamp message) /\
     Generic.symbol bar = Generic.msg_symbol message /\
     Generic.exchange bar = Generic.msg_exchange message /\
     (Generic.openTimestamp bar, Generic.closeTimestamp bar, Generic.timestamp bar,
      Generic.fundingTimestamp bar)
     = (Generic.openTimestamp bar0, Generic.closeTimestamp bar0, Generic.timestamp bar0,
        Generic.fundingTimestamp bar0) /\
     read h1 l = stamp_fields (message_snapshot h message) (read h ip)) /\
  (exists reset, Objects.bars h1 !! ip = Some reset /\
     Generic.ticks reset = 0 /\ Generic.deltaOi reset = 0 /\
     Generic.openTimestamp reset = Objects.DATE_MIN /\
     Generic.closeTimestamp reset = Objects.DATE_MIN /\
     Objects.valueOf Objects.DATE_MIN h1 = -1 /\
     Generic.localTimestamp reset = Some (Generic.msg_localTimestamp message)) /\
  Objects.dates h1 = Objects.dates h /\
  (forall h', Objects.later this h1 h' ->
     Objects.bars h' !! l = Objects.bars h1 !! l /\ read h' l = read h1 l) /\
  (forall ms,
     let h' := snd (Objects.run this ms h1) in
     Objects.bars h' !! l = Objects.bars h1 !! l /\ read h' l = read h1 l).
Proof.
  intros Hok Hm ip bar0 l h1.
  destruct (heap_ok_read this h Hok) as [Hbar Hdates]. fold ip bar0 in Hbar, Hdates.
  destruct (objects_computeBar_spec this message h bar0 Hbar)
    as (Hl & Hcopy & Hreset & Hd).
  destruct (objects_computeBar_refines this message h Hok Hm) as (Hok1 & Hout & E).
  fold l h1 in Hl, Hcopy, Hreset, Hd, Hok1, Hout, E.
  assert (Hframe : forall h', Objects.later this h1 h' ->
            Objects.bars h' !! l = Objects.bars h1 !! l /\ read h' l = read h1 l).
  { intros h' Hlater. pose proof (objects_later_frame this h1 h' Hlater) as Hf.
    split; [|by apply (emitted_ok_frame this h1 h')].
    rewrite Hcopy. by apply Hf. }
  split; [apply objects_computeBar_fresh|]. split; [exact Hl|].
  split; [|split; [|split; [exact Hd|split; [exact Hframe|]]]].
  - exists (Generic.stamp_fields message bar0).
    split; [exact Hcopy|]. do 5 (split; [reflexivity|]).
    symmetry. exact (f_equal fst E).
  - eexists. split; [exact Hreset|]. do 4 (split; [reflexivity|]).
    split; [|reflexivity].
    apply valueOf_lookup. rewrite Hd. by destruct Hok as [Hmin _].
  - intros ms h'. apply Hframe, objects_run_later.
Qed.

(** A time accumulator of one minute with one tick folded in, a heartbeat
    of the next minute delivered and the first check passed: the bar is
    emitted, it and the in-progress bar refer to the one [localTimestamp]
    date of the heartbeat, and three more messages (one more bar) leave the
    emitted object as it was. *)
Lemma emitted_bar_is_a_shallow_copy_witness :
  let options := mkOptions "time" 60000 None in
  let this := fst (Objects.constructor options Objects.module_heap) in
  let h0 := snd (Objects.constructor options Objects.module_heap) in
  let h1 := snd (Objects.run this [embed_message (tick_at 1 None)] h0) in
  let message := fst (Objects.deliver (embed_message (heartbeat_at 60000)) h1) in
  let h2 := snd (Objects.deliver (embed_message (heartbeat_at 60000)) h1) in
  let h := snd (Objects._hasNewBar this (Generic.msg_timestamp message) h2) in
  let ms := map embed_message [tick_at 60001 None; tick_at 60002 None; tick_at 120000 None] in
  let l := fst (Objects._computeBar this message h) in
  let h3 := snd (Objects._computeBar this message h) in
  let h' := snd (Objects.run this ms h3) in
  heap_ok this h /\ message_ok message h /\
  l <> Objects._inProgressBar this /\
  Generic.ticks <$> Objects.bars h3 !! l = Some 1 /\
  Generic.ticks <$> Objects.bars h3 !! Objects._inProgressBar this = Some 0 /\
  Generic.localTimestamp <$> Objects.bars h3 !! l
    = Generic.localTimestamp <$> Objects.bars h3 !! Objects._inProgressBar this /\
  Objects.bars h' !! l = Objects.bars h3 !! l /\ read h' l = read h3 l.
Proof.
  intros options this h0 h1 message h2 h ms l h3 h'.
  assert (Hok : heap_ok this h).
  { split; [vm_compute; reflexivity|].
    eexists. split; [vm_compute; reflexivity|].
    apply (bool_decide_eq_true_1 _). vm_compute. reflexivity. }
  assert (Hm : message_ok message h).
  { split; apply (bool_decide_eq_true_1 _); vm_compute; reflexivity. }
  split; [exact Hok|]. split; [exact Hm|].
  destruct (emitted_bar_is_a_shallow_copy this message h Hok Hm)
    as (_ & Hl & (bar & Hcopy & -> & Hlts & _) & (reset & Hreset & Hticks & _ & _ & _ & _ & Hshared)
        & _ & _ & Hrun).
  fold l h3 in Hl, Hcopy, Hreset.
  split; [exact Hl|].
  split; [by rewrite Hcopy|].
  split; [rewrite Hreset; cbn; by rewrite Hticks|].
  split.
  { rewrite Hcopy, Hreset. unfold fmap, option_fmap, option_map. f_equal.
    rewrite Hshared. exact Hlts. }
  apply (Hrun ms).
Defined.

(** The claim C8 has the emitted bar share no mutable storage with the live
    accumulator.  It shares a [Date]: a tick accumulator of interval 1 emits
    on its first tick; [_reset] does not assign [localTimestamp], so the
    [localTimestamp] of the emitted object and of the in-progress bar after
    the reset are the same reference, their dates are not disjoint, and
    setting the time of the date the in-progress bar refers to changes what
    the emitted bar reads (8 before, 0 after). *)
Lemma emitted_bar_shares_a_date_with_the_accumulator :
  let options := mkOptions "tick" 1 None in
  let this := fst (Objects.constructor options Objects.module_heap) in
  let h0 := snd (Objects.constructor options Objects.module_heap) in
  let out := fst (Objects.run this [embed_message (tick_at 1 None)] h0) in
  let h := snd (Objects.run this [embed_message (tick_at 1 None)] h0) in
  let live := Objects.bars h !!! Objects._inProgressBar this in
  exists l d,
    out = [l] /\ l <> Objects._inProgressBar this /\
    Generic.localTimestamp live = Some d /\
    Generic.localTimestamp (Objects.bars h !!! l) = Some d /\
    ~ (Objects.bar_dates (Objects.bars h !!! l) ## Objects.bar_dates live) /\
    localTimestamp (read h l) = Some 8 /\
    localTimestamp (read (Objects.setTime d 0 h) l) = Some 0.
Proof.
  exists 2%positive, 3%positive.
  split; [vm_compute; reflexivity|]. split; [done|].
  split; [vm_compute; reflexivity|]. split; [vm_compute; reflexivity|].
  split; [|split; vm_compute; reflexivity].
  intros Hdisj. apply (Hdisj 3%positive);
    apply (bool_decide_eq_true_1 _); vm_compute; reflexivity.
Qed.

(** ** Time bars of a whole interval cover disjoint buckets *)

Lemma embed_unembed_message message :
  embed_message (unembed_message message) = message.
Proof. by destruct message as [[]|[]]. Qed.

(** With a whole interval the constructor of the fractional model builds the
    object of the integer model, whatever the name. *)
Lemma fractional_whole_new_computable number_to_string options n :
  Fractional.opt_interval options = inject_Z n ->
  Fractional.new_computable number_to_string options
  = embed_computable
      (new_computable
         (mkOptions (Fractional.opt_kind options) n
            (Some (Fractional._name
                     (Fractional.new_computable number_to_string options))))).
Proof. intros Hi. destruct options as [k i nm]. cbn in Hi. by subst i. Qed.

(** X3. A time accumulator whose interval is a positive whole number of
    milliseconds, fed messages in non-decreasing timestamp order: each
    emitted bar is stamped with a multiple of the interval, and all the
    ticks folded into it, from [openTimestamp] to [closeTimestamp], lie in
    the interval's worth of milliseconds just before that stamp; the stamps
    strictly increase, so no two bars cover the same bucket. *)
Theorem time_bars_cover_disjoint_buckets
    (number_to_string : Q -> string) (options : Fractional.Options) (n : Z)
    (ms : list Fractional.Message) :
  Fractional.opt_kind options = "time" ->
  Fractional.opt_interval options = inject_Z n ->
  0 < n ->
  Sorted Z.le (map Generic.msg_timestamp ms) ->
  let bars :=
    fst (Fractional.run (Fractional.new_computable number_to_string options) ms) in
  Forall (closes_its_whole_bucket n) bars /\
  StronglySorted Z.lt (map Generic.timestamp bars).
Proof.
  intros Hk Hi Hn Hsorted bars. subst bars.
  rewrite (fractional_whole_new_computable number_to_string options n Hi).
  set (options' := mkOptions _ n _).
  assert (Ems : ms = map embed_message (map unembed_message ms)).
  { rewrite map_map. rewrite <- (map_id ms) at 1.
    apply map_ext. intros m. by rewrite embed_unembed_message. }
  assert (Hsorted' : Sorted Z.le (map msg_timestamp (map unembed_message ms))).
  { rewrite map_map. erewrite map_ext; [exact Hsorted|]. by intros []. }
  rewrite Ems, embed_run. cbn [fst].
  destruct (time_run_covers_disjoint_buckets options' (map unembed_message ms)
              Hk Hn Hsorted') as [H1 H2].
  split.
  - apply Forall_map. exact H1.
  - rewrite map_map. exact H2.
Qed.

Lemma time_bars_cover_disjoint_buckets_witness :
  let options := Fractional.mkOptions "time" (inject_Z 60000) None in
  let ms := [Fractional.tick_at 10000; Fractional.tick_at 59999;
             Fractional.heartbeat_at 65000; Fractional.tick_at 70000;
             Fractional.tick_at 200000] in
  let bars :=
    fst (Fractional.run (Fractional.new_computable (fun _ => "60000") options) ms) in
  Sorted Z.le (map Generic.msg_timestamp ms) /\
  map Generic.timestamp bars = [60000; 120000] /\
  Forall (closes_its_whole_bucket 60000) bars.
Proof.
  intros options ms bars.
  assert (Hsorted : Sorted Z.le (map Generic.msg_timestamp ms)).
  { repeat constructor; simpl; lia. }
  split; [exact Hsorted|]. split; [reflexivity|].
  exact (proj1 (time_bars_cover_disjoint_buckets (fun _ => "60000") options 60000 ms
                  eq_refl eq_refl eq_refl Hsorted)).
Defined.
